(** * inline-math: the recognition-and-rendering core, embedded in Rocq

    The TypeScript sources under [src/] are translated function by function:
    - [math/scan.ts]        : [maskJavaNonCode]
    - [math/pow.ts]         : [findPowCalls] and its helpers
    - [math/expression.ts]  : the [Expr] tree, the recursive-descent [Parser],
                              [exprToLatex], [exprToInlineText],
                              [exprContainsOperator]
    - [math/findExpressions.ts], [math/forLoopSum.ts]
    - [extension.ts]        : [pickLargestNonOverlapping]

    A JavaScript string is a sequence of UTF-16 code units; it is modelled
    as a list of code units, each an [N].  Offsets are [nat]. *)

From Stdlib Require Import String Ascii List NArith ZArith Arith Bool Lia.
From Stdlib Require Import Sorted Permutation.
Import ListNotations.

Set Implicit Arguments.
Set Warnings "-register-all".

(* ================================================================== *)
(** * Code units and JavaScript string primitives *)
(* ================================================================== *)

Definition char := N.
Definition jsstring := list char.

(** The code unit of an ASCII character. *)
Definition ch (a : ascii) : char := N_of_ascii a.

(** A string literal of the source, as code units. *)
Definition str (s : string) : jsstring := map ch (list_ascii_of_string s).

Definition blank : char := 32%N.        (* space *)
Definition dquote : char := 34%N.       (* double quote *)
Definition squote : char := 39%N.       (* single quote *)
Definition backslash : char := 92%N.    (* backslash *)
Definition caret : char := 94%N.        (* circumflex *)
Definition LF : char := 10%N.           (* line feed *)
Definition CR : char := 13%N.           (* carriage return *)

(** [c === a] for a one-character literal [a]. *)
Definition isCh (a : ascii) (c : char) : bool := N.eqb c (ch a).

(** [text[i] ?? <empty>] is an [option char]; a test against a
    one-character literal fails on the empty string. *)
Definition isO (a : ascii) (c : option char) : bool :=
  match c with Some c => isCh a c | None => false end.

Definition eqO (k : char) (c : option char) : bool :=
  match c with Some c => N.eqb c k | None => false end.

Definition charAt (text : jsstring) (i : nat) : option char := nth_error text i.

(** [text.slice(a, b)] for non-negative integer arguments. *)
Definition slice (text : jsstring) (a b : nat) : jsstring :=
  firstn (b - a) (skipn a text).

(** [text.includes(c)] for a one-character needle. *)
Definition includes (c : char) (text : jsstring) : bool :=
  existsb (N.eqb c) text.

(* ================================================================== *)
(** * scan.ts : the masker *)
(* ================================================================== *)

Inductive ScanState :=
| normal | lineComment | blockComment | stringLit | charLit | textBlock.

Definition isNewline (c : char) : bool := N.eqb c LF || N.eqb c CR.

(** The rest of the text after one more character ([i++]). *)
Definition drop1 (l : jsstring) : jsstring :=
  match l with [] => l | _ :: r => r end.

(** The loop of [maskJavaNonCode] from offset [i] on: [text] is the suffix
    [text[i..]], [ch0] is [text[i]], [next] and [next2] are [text[i+1]] and
    [text[i+2]] ([None] past the end).  The characters written to [out] are
    consed on in order; a branch that writes [out[i+1]] (and [out[i+2]]) and advances
    [i] continues after the characters it wrote. *)
Fixpoint maskFrom (state : ScanState) (escape : bool) (text : jsstring)
  {struct text} : jsstring :=
  match text with
  | [] => []
  | ch0 :: rest =>
    let next := hd_error rest in
    let next2 := hd_error (drop1 rest) in
    match state with
    | normal =>
        if isCh "/" ch0 && isO "/" next then
          blank :: blank :: maskFrom lineComment escape (drop1 rest)
        else if isCh "/" ch0 && isO "*" next then
          blank :: blank :: maskFrom blockComment escape (drop1 rest)
        else if N.eqb ch0 dquote then
          if eqO dquote next && eqO dquote next2 then
            blank :: blank :: blank
              :: maskFrom textBlock escape (drop1 (drop1 rest))
          else blank :: maskFrom stringLit false rest
        else if N.eqb ch0 squote then
          blank :: maskFrom charLit false rest
        else ch0 :: maskFrom normal escape rest
    | lineComment =>
        if isNewline ch0 then ch0 :: maskFrom normal escape rest
        else blank :: maskFrom lineComment escape rest
    | blockComment =>
        if isCh "*" ch0 && isO "/" next then
          blank :: blank :: maskFrom normal escape (drop1 rest)
        else (if isNewline ch0 then ch0 else blank)
               :: maskFrom blockComment escape rest
    | stringLit =>
        if isNewline ch0 then ch0 :: maskFrom normal false rest
        else if escape then blank :: maskFrom stringLit false rest
        else if N.eqb ch0 backslash then blank :: maskFrom stringLit true rest
        else if N.eqb ch0 dquote then blank :: maskFrom normal escape rest
        else blank :: maskFrom stringLit escape rest
    | charLit =>
        if isNewline ch0 then ch0 :: maskFrom normal false rest
        else if escape then blank :: maskFrom charLit false rest
        else if N.eqb ch0 backslash then blank :: maskFrom charLit true rest
        else if N.eqb ch0 squote then blank :: maskFrom normal escape rest
        else blank :: maskFrom charLit escape rest
    | textBlock =>
        if N.eqb ch0 dquote && eqO dquote next && eqO dquote next2 then
          blank :: blank :: blank
            :: maskFrom normal escape (drop1 (drop1 rest))
        else (if isNewline ch0 then ch0 else blank)
               :: maskFrom textBlock escape rest
    end
  end.

Definition maskJavaNonCode (text : jsstring) : jsstring :=
  maskFrom normal false text.

(* ================================================================== *)
(** * Character classes of the regular expressions *)
(* ================================================================== *)

Definition inRange (lo hi c : N) : bool := N.leb lo c && N.leb c hi.

(** [[0-9]], also [\d] *)
Definition isDigit (c : char) : bool := inRange 48 57 c.

(** [[A-Za-z_]] *)
Definition isIdentStart (c : char) : bool :=
  inRange 65 90 c || inRange 97 122 c || N.eqb c 95.

(** [[A-Za-z0-9_]], also [\w] *)
Definition isIdentPart (c : char) : bool := isIdentStart c || isDigit c.

(** [\s]: the white space and line terminator code units of ECMAScript;
    [String.prototype.trim] strips the same set. *)
Definition isSpace (c : char) : bool :=
  inRange 9 13 c || N.eqb c 32 || N.eqb c 160 || N.eqb c 5760
  || inRange 8192 8202 c || N.eqb c 8232 || N.eqb c 8233 || N.eqb c 8239
  || N.eqb c 8287 || N.eqb c 12288 || N.eqb c 65279.

(** A test of [text[i] ?? <empty>]: no class matches the empty string. *)
Definition testO (p : char -> bool) (c : option char) : bool :=
  match c with Some c => p c | None => false end.

(** [text.trim()] *)
Fixpoint trimStart (s : jsstring) : jsstring :=
  match s with
  | c :: r => if isSpace c then trimStart r else s
  | [] => []
  end.

Definition trimEnd (s : jsstring) : jsstring := rev (trimStart (rev s)).

Definition trim (s : jsstring) : jsstring := trimEnd (trimStart s).

(** [text.startsWith(needle, i)] *)
Fixpoint isPrefix (needle s : jsstring) : bool :=
  match needle, s with
  | [], _ => true
  | a :: n', b :: s' => N.eqb a b && isPrefix n' s'
  | _ :: _, [] => false
  end.

Definition startsWith (text needle : jsstring) (i : nat) : bool :=
  isPrefix needle (skipn i text).

(* ================================================================== *)
(** * expression.ts : the expression tree *)
(* ================================================================== *)

Inductive BinOp := Plus | Minus | Times | Divide.
Inductive Sign := Pos | Neg.
Inductive Bracket := Paren | Brace.

Inductive Expr :=
| ENumber (value : jsstring)
| EIdent (name : jsstring)
| ERaw (text : jsstring)
| EGroup (bracket : Bracket) (expr : Expr)
| EUnary (op : Sign) (expr : Expr)
| EBinary (op : BinOp) (left right : Expr)
| EMember (object : Expr) (member : jsstring)
| EIndex (object : Expr) (index : Expr)
| ECall (callee : Expr) (args : list Expr)
| ENew (ctor : Expr) (args : list Expr).

Definition binOpChar (op : BinOp) : char :=
  match op with
  | Plus => ch "+" | Minus => ch "-" | Times => ch "*" | Divide => ch "/"
  end.

Definition signChar (op : Sign) : char :=
  match op with Pos => ch "+" | Neg => ch "-" end.

(** enum Prec *)
Definition PrecAdd : nat := 10.
Definition PrecMul : nat := 20.
Definition PrecUnary : nat := 30.
Definition PrecPrimary : nat := 40.

(* ------------------------------------------------------------------ *)
(** ** Lexical helpers of the parser *)

(** [while (i < text.length && /\s/.test(text[i])) i++], run over the
    suffix [text[i..]]. *)
Fixpoint skipWsFrom (suffix : jsstring) (i : nat) : nat :=
  match suffix with
  | c :: r => if isSpace c then skipWsFrom r (S i) else i
  | [] => i
  end.

Definition skipWs (text : jsstring) (i : nat) : nat :=
  skipWsFrom (skipn i text) i.

(** [while (j < text.length && isIdentPart(text[j])) { name += text[j]; j++ }]:
    the characters appended to [name]. *)
Fixpoint identRun (suffix : jsstring) : jsstring :=
  match suffix with
  | c :: r => if isIdentPart c then c :: identRun r else []
  | [] => []
  end.

(** The [while (true)] loop of [parseQualifiedIdent] over the dotted
    segments.  Every turn moves [j] forward by two characters or more, so
    [length text] turns are never used up. *)
Fixpoint dottedSegments (turns : nat) (text name : jsstring) (j : nat)
  : jsstring * nat :=
  match turns with
  | O => (name, j)
  | S turns' =>
      let j0 := skipWs text j in
      if negb (isO "." (charAt text j0)) then (name, j)
      else
        let j1 := skipWs text (j0 + 1) in
        if negb (testO isIdentStart (charAt text j1)) then (name, j)
        else
          let seg := identRun (skipn j1 text) in
          dottedSegments turns' text (name ++ str "." ++ seg)
                         (j1 + length seg)
  end.

Definition parseQualifiedIdent (text : jsstring) (i : nat)
  : option (jsstring * nat) :=
  if negb (testO isIdentStart (charAt text i)) then None
  else
    let seg := identRun (skipn i text) in
    Some (dottedSegments (length text) text seg (i + length seg)).

(** [while (j < text.length && isDigit(text[j])) j++]: how far [j] moves. *)
Fixpoint digitRun (suffix : jsstring) : nat :=
  match suffix with
  | c :: r => if isDigit c then S (digitRun r) else 0
  | [] => 0
  end.

Definition parseNumber (text : jsstring) (i : nat) : option (jsstring * nat) :=
  if negb (testO isDigit (charAt text i)) then None
  else
    let j := i + digitRun (skipn i text) in
    let j :=
      if isO "." (charAt text j) && testO isDigit (charAt text (j + 1))
      then (j + 1) + digitRun (skipn (j + 1) text)
      else j in
    Some (slice text i j, j).

(** The loop of [findMatching] from index [i] on, [suffix] being
    [text[i..]]; [depth] may go below zero. *)
Fixpoint findMatchingFrom (suffix : jsstring) (i : nat) (depth : Z)
  (openCh closeCh : char) : option nat :=
  match suffix with
  | [] => None
  | c :: r =>
      if N.eqb c openCh then
        findMatchingFrom r (S i) (depth + 1) openCh closeCh
      else if N.eqb c closeCh then
        let depth := (depth - 1)%Z in
        if Z.eqb depth 0 then Some i
        else findMatchingFrom r (S i) depth openCh closeCh
      else findMatchingFrom r (S i) depth openCh closeCh
  end.

Definition findMatching (text : jsstring) (openIndex : nat)
  (openCh closeCh : char) : option nat :=
  findMatchingFrom (skipn openIndex text) openIndex 0%Z openCh closeCh.

(** The three bracket depths of [splitArgsText] and [splitTwoArgs];
    [Math.max(0, d - 1)] is [Nat.pred d]. *)
Record Depths := { depthParen : nat; depthBrace : nat; depthBracket : nat }.

Definition depths0 : Depths :=
  {| depthParen := 0; depthBrace := 0; depthBracket := 0 |}.

Definition stepDepths (c : char) (d : Depths) : Depths :=
  if isCh "(" c then
    {| depthParen := S (depthParen d); depthBrace := depthBrace d;
       depthBracket := depthBracket d |}
  else if isCh ")" c then
    {| depthParen := Nat.pred (depthParen d); depthBrace := depthBrace d;
       depthBracket := depthBracket d |}
  else if isCh "{" c then
    {| depthParen := depthParen d; depthBrace := S (depthBrace d);
       depthBracket := depthBracket d |}
  else if isCh "}" c then
    {| depthParen := depthParen d; depthBrace := Nat.pred (depthBrace d);
       depthBracket := depthBracket d |}
  else if isCh "[" c then
    {| depthParen := depthParen d; depthBrace := depthBrace d;
       depthBracket := S (depthBracket d) |}
  else if isCh "]" c then
    {| depthParen := depthParen d; depthBrace := depthBrace d;
       depthBracket := Nat.pred (depthBracket d) |}
  else d.

Definition topLevel (d : Depths) : bool :=
  Nat.eqb (depthParen d) 0 && Nat.eqb (depthBrace d) 0
  && Nat.eqb (depthBracket d) 0.

(** [part = argsText.slice(start, i).trim(); if (part.length > 0) push] *)
Definition pushPart (args : list jsstring) (argsText : jsstring)
  (start i : nat) : list jsstring :=
  let part := trim (slice argsText start i) in
  match part with [] => args | _ :: _ => args ++ [part] end.

(** The loop of [splitArgsText] for [i <= argsText.length]; the last turn,
    at [i = argsText.length], reads the stand-in comma and always closes a
    part. *)
Fixpoint splitArgsFrom (argsText suffix : jsstring) (i start : nat)
  (d : Depths) (args : list jsstring) : list jsstring :=
  match suffix with
  | [] => pushPart args argsText start i
  | c :: r =>
      let d := stepDepths c d in
      if isCh "," c && topLevel d then
        splitArgsFrom argsText r (S i) (S i) d (pushPart args argsText start i)
      else splitArgsFrom argsText r (S i) start d args
  end.

Definition splitArgsText (argsText : jsstring) : list jsstring :=
  splitArgsFrom argsText argsText 0 0 depths0 [].

(* ------------------------------------------------------------------ *)
(** ** The recursive-descent parser

    A method of [class Parser] reads and writes the field [this.i]; here it
    takes the offset and returns the new one with its result.  A method
    that returns [undefined] is [NoMatch].  The methods call each other, and
    [parseExpression] calls itself on argument texts, so the functions are
    defined by recursion on a bound on the depth of calls; [OutOfFuel]
    tells that the bound was reached.  [parser_fuel_enough] below shows
    that it never is with the bound [parseFuel]. *)

Inductive outcome (A : Type) : Type :=
| Done (a : A)
| NoMatch
| OutOfFuel.
Arguments NoMatch {A}.
Arguments OutOfFuel {A}.

(** [parseExpression(p) ?? { kind: raw, text: p }] *)
Definition orRaw (p : jsstring) (r : outcome Expr) : outcome Expr :=
  match r with
  | Done e => Done e
  | NoMatch => Done (ERaw p)
  | OutOfFuel => OutOfFuel
  end.

(** The results of [argParts.map(...)], in order. *)
Fixpoint collect (rs : list (outcome Expr)) : outcome (list Expr) :=
  match rs with
  | [] => Done []
  | r :: rs' =>
      match r, collect rs' with
      | Done e, Done es => Done (e :: es)
      | OutOfFuel, _ | _, OutOfFuel => OutOfFuel
      | _, _ => NoMatch
      end
  end.

Definition addOp (c : char) : option BinOp :=
  if isCh "+" c then Some Plus else if isCh "-" c then Some Minus else None.

Definition mulOp (c : char) : option BinOp :=
  if isCh "*" c then Some Times else if isCh "/" c then Some Divide else None.

Definition signOp (c : char) : option Sign :=
  if isCh "+" c then Some Pos else if isCh "-" c then Some Neg else None.

Definition bracketOf (c : char) : option Bracket :=
  if isCh "(" c then Some Paren else if isCh "{" c then Some Brace else None.

Definition closeOf (b : Bracket) : char :=
  match b with Paren => ch ")" | Brace => ch "}" end.

(** [/\b/.test(c)] on a one-character string [c]: there is a word boundary
    at one of its two ends exactly when [c] is a word character. *)
Definition hasWordBoundary (c : char) : bool := isIdentPart c.

Fixpoint parseExpressionF (fuel : nat) (text : jsstring) {struct fuel}
  : outcome Expr :=
  match fuel with
  | O => OutOfFuel
  | S fuel =>
      if includes caret text then NoMatch
      else
        match parseAdd fuel text 0 with
        | Done (expr, i) =>
            let i := skipWs text i in
            if negb (Nat.eqb i (length text)) then NoMatch else Done expr
        | NoMatch => NoMatch
        | OutOfFuel => OutOfFuel
        end
  end

with parseAdd (fuel : nat) (text : jsstring) (i : nat) {struct fuel}
  : outcome (Expr * nat) :=
  match fuel with
  | O => OutOfFuel
  | S fuel =>
      match parseMul fuel text i with
      | Done (left_, i) => parseAddLoop fuel text left_ i
      | NoMatch => NoMatch
      | OutOfFuel => OutOfFuel
      end
  end

(** the [while (true)] of [parseAdd] *)
with parseAddLoop (fuel : nat) (text : jsstring) (left_ : Expr) (i : nat)
  {struct fuel} : outcome (Expr * nat) :=
  match fuel with
  | O => OutOfFuel
  | S fuel =>
      let i := skipWs text i in
      match option_map addOp (charAt text i) with
      | Some (Some op) =>
          match parseMul fuel text (i + 1) with
          | Done (right_, i) => parseAddLoop fuel text (EBinary op left_ right_) i
          | NoMatch => NoMatch
          | OutOfFuel => OutOfFuel
          end
      | _ => Done (left_, i)
      end
  end

with parseMul (fuel : nat) (text : jsstring) (i : nat) {struct fuel}
  : outcome (Expr * nat) :=
  match fuel with
  | O => OutOfFuel
  | S fuel =>
      match parseUnary fuel text i with
      | Done (left_, i) => parseMulLoop fuel text left_ i
      | NoMatch => NoMatch
      | OutOfFuel => OutOfFuel
      end
  end

(** the [while (true)] of [parseMul] *)
with parseMulLoop (fuel : nat) (text : jsstring) (left_ : Expr) (i : nat)
  {struct fuel} : outcome (Expr * nat) :=
  match fuel with
  | O => OutOfFuel
  | S fuel =>
      let i := skipWs text i in
      match option_map mulOp (charAt text i) with
      | Some (Some op) =>
          match parseUnary fuel text (i + 1) with
          | Done (right_, i) => parseMulLoop fuel text (EBinary op left_ right_) i
          | NoMatch => NoMatch
          | OutOfFuel => OutOfFuel
          end
      | _ => Done (left_, i)
      end
  end

with parseUnary (fuel : nat) (text : jsstring) (i : nat) {struct fuel}
  : outcome (Expr * nat) :=
  match fuel with
  | O => OutOfFuel
  | S fuel =>
      let i := skipWs text i in
      match option_map signOp (charAt text i) with
      | Some (Some op) =>
          match parseUnary fuel text (i + 1) with
          | Done (expr, i) => Done (EUnary op expr, i)
          | NoMatch => NoMatch
          | OutOfFuel => OutOfFuel
          end
      | _ => parsePrimary fuel text i
      end
  end

with parsePrimary (fuel : nat) (text : jsstring) (i : nat) {struct fuel}
  : outcome (Expr * nat) :=
  match fuel with
  | O => OutOfFuel
  | S fuel =>
      let i := skipWs text i in
      let ch0 := charAt text i in
      (* new <ctor>(args) *)
      match
        (if startsWith text (str "new") i
            && hasWordBoundary (match charAt text (i + 3) with
                                | Some c => c | None => blank end)
         then parseQualifiedIdent text (skipWs text (i + 3))
         else None)
      with
      | Some (ctorName, ctorEnd) =>
          let i := skipWs text ctorEnd in
          match
            (if isO "(" (charAt text i)
             then findMatching text i (ch "(") (ch ")") else None)
          with
          | Some close =>
              let argParts := splitArgsText (slice text (i + 1) close) in
              match
                collect (map (fun p => orRaw p (parseExpressionF fuel p))
                             argParts)
              with
              | Done args => Done (ENew (EIdent ctorName) args, close + 1)
              | NoMatch => NoMatch
              | OutOfFuel => OutOfFuel
              end
          | None =>
              (* No parens; treat as raw *)
              Done (ERaw (slice text i ctorEnd), i)
          end
      | None =>
          match option_map bracketOf ch0 with
          | Some (Some bracket) =>
              match parseAdd fuel text (i + 1) with
              | Done (expr, i) =>
                  let i := skipWs text i in
                  if negb (eqO (closeOf bracket) (charAt text i)) then NoMatch
                  else Done (EGroup bracket expr, i + 1)
              | NoMatch => NoMatch
              | OutOfFuel => OutOfFuel
              end
          | _ =>
              match parseNumber text i with
              | Some (value, numEnd) => Done (ENumber value, numEnd)
              | None =>
                  match parseQualifiedIdent text i with
                  | Some (name, identEnd) =>
                      parsePostfix fuel text (EIdent name) identEnd
                  | None => NoMatch
                  end
              end
          end
      end
  end

(** the [while (true)] of [parsePostfix]; it never fails, a postfix that
    does not parse ends the loop *)
with parsePostfix (fuel : nat) (text : jsstring) (expr : Expr) (i : nat)
  {struct fuel} : outcome (Expr * nat) :=
  match fuel with
  | O => OutOfFuel
  | S fuel =>
      let i := skipWs text i in
      let ch0 := charAt text i in
      if isO "." ch0 then
        (* Member access: a . b *)
        match parseQualifiedIdent text (skipWs text (i + 1)) with
        | None => Done (expr, i)
        | Some (member, memberEnd) =>
            parsePostfix fuel text (EMember expr member) memberEnd
        end
      else if isO "[" ch0 then
        (* Index access: a[expr] *)
        match findMatching text i (ch "[") (ch "]") with
        | None => Done (expr, i)
        | Some close =>
            let inside := trim (slice text (i + 1) close) in
            match orRaw inside (parseExpressionF fuel inside) with
            | Done indexExpr =>
                parsePostfix fuel text (EIndex expr indexExpr) (close + 1)
            | NoMatch => NoMatch
            | OutOfFuel => OutOfFuel
            end
        end
      else if isO "(" ch0 then
        (* Call: f(args) *)
        match findMatching text i (ch "(") (ch ")") with
        | None => Done (expr, i)
        | Some close =>
            let argParts := splitArgsText (slice text (i + 1) close) in
            match
              collect (map (fun p => orRaw p (parseExpressionF fuel p))
                           argParts)
            with
            | Done args => parsePostfix fuel text (ECall expr args) (close + 1)
            | NoMatch => NoMatch
            | OutOfFuel => OutOfFuel
            end
        end
      else Done (expr, i)
  end.

(** Depth of calls that a text of [n] characters can need. *)
Definition parseFuel (n : nat) : nat := 8 * n + 8.

(** [export function parseExpression(text)] *)
Definition parseExpression (text : jsstring) : outcome Expr :=
  parseExpressionF (parseFuel (length text)) text.

(** [export function parseExpressionAt(text, start)] *)
Definition parseExpressionAt (text : jsstring) (start : nat)
  : outcome (Expr * nat) :=
  match parseAdd (parseFuel (length text)) text start with
  | Done (expr, i) =>
      let end_ := i in
      if includes caret (slice text start end_) then NoMatch
      else Done (expr, end_)
  | NoMatch => NoMatch
  | OutOfFuel => OutOfFuel
  end.

(* ------------------------------------------------------------------ *)
(** ** The renderers *)

(** [parts.join(sep)] *)
Fixpoint join (sep : jsstring) (parts : list jsstring) : jsstring :=
  match parts with
  | [] => []
  | [p] => p
  | p :: rest => p ++ sep ++ join sep rest
  end.

(** [[{}_^%$#&]] *)
Definition isLatexSpecial (c : char) : bool :=
  isCh "{" c || isCh "}" c || isCh "_" c || N.eqb c caret
  || isCh "%" c || isCh "$" c || isCh "#" c || isCh "&" c.

(** Two global replacements, one after the other: every backslash becomes
    [\textbackslash{}], then every special character of the result gets a
    backslash in front. *)
Definition escapeLatex (text : jsstring) : jsstring :=
  let step1 :=
    flat_map (fun c => if N.eqb c backslash then str "\textbackslash{}"
                       else [c]) text in
  flat_map (fun c => if isLatexSpecial c then [backslash; c] else [c]) step1.

Definition precOf (expr : Expr) : nat :=
  match expr with
  | EBinary op _ _ =>
      match op with Plus | Minus => PrecAdd | _ => PrecMul end
  | EUnary _ _ => PrecUnary
  | _ => PrecPrimary
  end.

(** [latexWrap(expr, parentPrec)], given [latex = exprToLatex(expr)] *)
Definition latexWrapped (latex : jsstring) (expr : Expr) (parentPrec : nat)
  : jsstring :=
  if precOf expr <? parentPrec then str "\left(" ++ latex ++ str "\right)"
  else latex.

Fixpoint exprToLatex (expr : Expr) : jsstring :=
  match expr with
  | ENumber value => escapeLatex value
  | EIdent name => escapeLatex name
  | ERaw text => str "\text{" ++ escapeLatex text ++ str "}"
  | EGroup bracket e =>
      match bracket with
      | Brace => str "\left\{" ++ exprToLatex e ++ str "\right\}"
      | Paren => str "\left(" ++ exprToLatex e ++ str "\right)"
      end
  | EUnary op e =>
      escapeLatex [signChar op] ++ latexWrapped (exprToLatex e) e PrecUnary
  | EBinary op l r =>
      match op with
      | Divide =>
          str "\frac{" ++ exprToLatex l ++ str "}{" ++ exprToLatex r ++ str "}"
      | _ =>
          let opLatex :=
            match op with
            | Times => str "\cdot"
            | _ => escapeLatex [binOpChar op]
            end in
          let parentPrec :=
            match op with Plus | Minus => PrecAdd | _ => PrecMul end in
          latexWrapped (exprToLatex l) l parentPrec ++ str " " ++ opLatex
            ++ str " " ++ latexWrapped (exprToLatex r) r (parentPrec + 1)
      end
  | EMember object member =>
      exprToLatex object ++ str "." ++ escapeLatex member
  | EIndex object index =>
      exprToLatex object ++ str "_{" ++ exprToLatex index ++ str "}"
  | ECall callee args =>
      let args := join (str ", ") (map exprToLatex args) in
      exprToLatex callee ++ str "\left(" ++ args ++ str "\right)"
  | ENew ctor args =>
      let args := join (str ", ") (map exprToLatex args) in
      str "\operatorname{new}\," ++ exprToLatex ctor ++ str "\left(" ++ args
        ++ str "\right)"
  end.

Definition latexWrap (expr : Expr) (parentPrec : nat) : jsstring :=
  latexWrapped (exprToLatex expr) expr parentPrec.

Fixpoint exprContainsOperator (expr : Expr) : bool :=
  match expr with
  | EBinary _ _ _ => true
  | EUnary _ e => exprContainsOperator e
  | EGroup _ e => exprContainsOperator e
  | EMember object _ => exprContainsOperator object
  | EIndex object index =>
      exprContainsOperator object || exprContainsOperator index
  | ECall callee args =>
      existsb exprContainsOperator args || exprContainsOperator callee
  | ENew ctor args =>
      existsb exprContainsOperator args || exprContainsOperator ctor
  | _ => false
  end.

(** The table [superscripts]: the superscript digit of an ASCII digit. *)
Definition superscriptOf (c : char) : char :=
  if isCh "0" c then 8304%N        (* U+2070 *)
  else if isCh "1" c then 185%N    (* U+00B9 *)
  else if isCh "2" c then 178%N    (* U+00B2 *)
  else if isCh "3" c then 179%N    (* U+00B3 *)
  else if isCh "4" c then 8308%N   (* U+2074 *)
  else if isCh "5" c then 8309%N
  else if isCh "6" c then 8310%N
  else if isCh "7" c then 8311%N
  else if isCh "8" c then 8312%N
  else if isCh "9" c then 8313%N   (* U+2079 *)
  else c.

(** [/^\d+$/.test(value)] guards the mapping. *)
Definition toSuperscriptDigits (value : jsstring) : option jsstring :=
  match value with
  | [] => None
  | _ :: _ =>
      if forallb isDigit value then Some (map superscriptOf value) else None
  end.

Definition middleDot : char := 183%N.        (* U+00B7 *)
Definition fractionSlash : char := 8260%N.   (* U+2044 *)

Fixpoint exprToInlineText (expr : Expr) : jsstring :=
  match expr with
  | ENumber value => value
  | EIdent name => name
  | ERaw text => text
  | EGroup bracket e =>
      match bracket with
      | Brace => str "{" ++ exprToInlineText e ++ str "}"
      | Paren => str "(" ++ exprToInlineText e ++ str ")"
      end
  | EUnary op e => [signChar op] ++ exprToInlineText e
  | EBinary op l r =>
      let op :=
        match op with
        | Times => middleDot
        | Divide => fractionSlash
        | _ => binOpChar op
        end in
      exprToInlineText l ++ [op] ++ exprToInlineText r
  | EMember object member => exprToInlineText object ++ str "." ++ member
  | EIndex object index =>
      exprToInlineText object ++ str "[" ++ exprToInlineText index ++ str "]"
  | ECall callee args =>
      exprToInlineText callee ++ str "("
        ++ join (str ",") (map exprToInlineText args) ++ str ")"
  | ENew ctor args =>
      str "new " ++ exprToInlineText ctor ++ str "("
        ++ join (str ",") (map exprToInlineText args) ++ str ")"
  end.

(* ================================================================== *)
(** * Regular expressions

    The detectors use a handful of JavaScript regular expressions.  They are
    written as terms of [regex] and run by a backtracking matcher that
    follows the ECMAScript rules the patterns rely on: alternatives are
    tried from left to right, a quantifier is greedy, a search takes the
    leftmost start that matches, and a capture group remembers the span of
    its last match. *)
(* ================================================================== *)

Inductive regex :=
| RChar (p : char -> bool)          (* a character class, or one character *)
| RLit (s : jsstring)               (* a run of literal characters *)
| REps                              (* the empty pattern *)
| RSeq (r1 r2 : regex)
| RAlt (r1 r2 : regex)              (* r1|r2 *)
| RStar (r : regex)                 (* r*, greedy *)
| RGroup (n : nat) (r : regex)      (* the n-th capture group *)
| RBackref (n : nat)                (* \n *)
| RWordBoundary                     (* \b *)
| RBegin                            (* ^ without the m flag *)
| REnd.                             (* $ without the m flag *)

(** r+ and r? *)
Definition RPlus (r : regex) : regex := RSeq r (RStar r).
Definition ROpt (r : regex) : regex := RAlt r REps.

Definition rseq (rs : list regex) : regex := fold_right RSeq REps rs.

Fixpoint ralt (rs : list regex) : regex :=
  match rs with
  | [] => REps
  | [r] => r
  | r :: rs' => RAlt r (ralt rs')
  end.

(** The span [(from, to)] of each capture group that has matched. *)
Definition captures := list (nat * (nat * nat)).

Fixpoint capture (n : nat) (caps : captures) : option (nat * nat) :=
  match caps with
  | [] => None
  | (m, span) :: caps' => if Nat.eqb m n then Some span else capture n caps'
  end.

Definition isWordAt (text : jsstring) (i : nat) : bool :=
  testO isIdentPart (charAt text i).

Definition atWordBoundary (text : jsstring) (i : nat) : bool :=
  xorb (match i with O => false | S i' => isWordAt text i' end)
       (isWordAt text i).

(** [matchRe r text i caps k]: match [r] at offset [i], then go on with the
    continuation [k]; [None] makes the matcher backtrack.  A turn of a
    star has to consume a character, so a star at [i] takes no more than
    [length text - i] turns. *)
Fixpoint matchRe (r : regex) (text : jsstring) (i : nat) (caps : captures)
  (k : nat -> captures -> option (nat * captures)) {struct r}
  : option (nat * captures) :=
  match r with
  | RChar p =>
      match charAt text i with
      | Some c => if p c then k (i + 1) caps else None
      | None => None
      end
  | RLit s => if startsWith text s i then k (i + length s) caps else None
  | REps => k i caps
  | RSeq r1 r2 =>
      matchRe r1 text i caps (fun j caps' => matchRe r2 text j caps' k)
  | RAlt r1 r2 =>
      match matchRe r1 text i caps k with
      | Some res => Some res
      | None => matchRe r2 text i caps k
      end
  | RStar r1 =>
      (fix turns (n : nat) (i : nat) (caps : captures) {struct n}
         : option (nat * captures) :=
         match n with
         | O => k i caps
         | S n' =>
             match
               matchRe r1 text i caps
                 (fun j caps' => if i <? j then turns n' j caps' else None)
             with
             | Some res => Some res
             | None => k i caps
             end
         end) (length text - i) i caps
  | RGroup n r1 =>
      matchRe r1 text i caps (fun j caps' => k j ((n, (i, j)) :: caps'))
  | RBackref n =>
      match capture n caps with
      | Some (a, b) =>
          let s := slice text a b in
          if startsWith text s i then k (i + length s) caps else None
      | None => k i caps
      end
  | RWordBoundary => if atWordBoundary text i then k i caps else None
  | RBegin => if Nat.eqb i 0 then k i caps else None
  | REnd => if Nat.eqb i (length text) then k i caps else None
  end.

(** The result of [re.exec(text)]: where the match starts and ends, and
    its captures. *)
Record MatchResult := {
  mIndex : nat;
  mEnd : nat;
  mCaptures : captures
}.

(** [m[n]], the text of the n-th group ([undefined] groups do not occur
    in the patterns below once the whole pattern has matched). *)
Definition group (text : jsstring) (m : MatchResult) (n : nat) : jsstring :=
  match capture n (mCaptures m) with
  | Some (a, b) => slice text a b
  | None => []
  end.

Fixpoint execFrom (re : regex) (text : jsstring) (tries : nat) (i : nat)
  : option MatchResult :=
  match matchRe re text i [] (fun j caps => Some (j, caps)) with
  | Some (j, caps) => Some {| mIndex := i; mEnd := j; mCaptures := caps |}
  | None =>
      match tries with
      | O => None
      | S tries' => execFrom re text tries' (S i)
      end
  end.

(** [re.exec(text)] with [re.lastIndex = lastIndex]; a pattern without the
    g flag always searches from 0. *)
Definition exec (re : regex) (text : jsstring) (lastIndex : nat)
  : option MatchResult :=
  if length text <? lastIndex then None
  else execFrom re text (length text - lastIndex) lastIndex.

(** [re.test(text)] *)
Definition test (re : regex) (text : jsstring) : bool :=
  match exec re text 0 with Some _ => true | None => false end.

(** [text.split(sep)] for a one-character separator *)
Fixpoint split (sep : char) (text : jsstring) : list jsstring :=
  match text with
  | [] => [[]]
  | c :: r =>
      if N.eqb c sep then [] :: split sep r
      else
        match split sep r with
        | p :: ps => (c :: p) :: ps
        | [] => [[c]]
        end
  end.

(** [text.indexOf(needle, from)], [None] for -1 *)
Fixpoint indexOfFrom (needle suffix : jsstring) (i : nat) : option nat :=
  if isPrefix needle suffix then Some i
  else
    match suffix with
    | [] => None
    | _ :: r => indexOfFrom needle r (S i)
    end.

Definition indexOf (text needle : jsstring) (from : nat) : option nat :=
  if length text <? from then None
  else indexOfFrom needle (skipn from text) from.

(** Pieces of the patterns *)
Definition ws : regex := RStar (RChar isSpace).                 (* \s* *)
Definition identifier : regex :=                                (* [A-Za-z_]\w* *)
  RSeq (RChar isIdentStart) (RStar (RChar isIdentPart)).
Definition notSemicolons : regex :=                             (* [^;]+ *)
  RPlus (RChar (fun c => negb (isCh ";" c))).
Definition lit (s : string) : regex := RLit (str s).

(* ================================================================== *)
(** * pow.ts : the Power-Call detector

    A [vscode.Range] built with [document.positionAt] is kept as its pair
    of offsets into the text. *)
(* ================================================================== *)

Record PowMatch := {
  powStart : nat;
  powEnd : nat;
  calleeText : jsstring;
  baseText : jsstring;
  expText : jsstring;
  baseExpr : Expr;
  expExpr : Expr;
  powLatex : jsstring;
  powInlineText : jsstring
}.

Definition isIdentChar (c : char) : bool := isIdentPart c.

Definition findMatchingParen (maskedText : jsstring) (openParenIndex : nat)
  : option nat :=
  findMatchingFrom (skipn openParenIndex maskedText) openParenIndex 0%Z
                   (ch "(") (ch ")").

(** The loop of [splitTwoArgs] over [maskedText[i..end)]. *)
Fixpoint splitTwoArgsFrom (maskedText suffix : jsstring) (start end_ i : nat)
  (d : Depths) : option (jsstring * jsstring) :=
  match suffix with
  | [] => None
  | c :: r =>
      if isCh "(" c || isCh ")" c || isCh "{" c || isCh "}" c
         || isCh "[" c || isCh "]" c
      then splitTwoArgsFrom maskedText r start end_ (S i) (stepDepths c d)
      else if isCh "," c && topLevel d then
        let a := trim (slice maskedText start i) in
        let b := trim (slice maskedText (i + 1) end_) in
        match a, b with
        | _ :: _, _ :: _ => Some (a, b)
        | _, _ => None
        end
      else splitTwoArgsFrom maskedText r start end_ (S i) d
  end.

Definition splitTwoArgs (maskedText : jsstring) (start end_ : nat)
  : option (jsstring * jsstring) :=
  splitTwoArgsFrom maskedText (slice maskedText start end_) start end_ start
                   depths0.

Definition formatPowInline (base exp : Expr) : jsstring :=
  let baseText :=
    if exprContainsOperator base
    then str "(" ++ exprToInlineText base ++ str ")"
    else exprToInlineText base in
  let fallback := baseText ++ str "^(" ++ exprToInlineText exp ++ str ")" in
  match exp with
  | ENumber value =>
      match toSuperscriptDigits value with
      | Some sup => baseText ++ sup
      | None => fallback
      end
  | _ => fallback
  end.

(** The pattern of [powRe], with the g flag; blanks are added here between
    its pieces:
    [(?: \b [A-Za-z_]\w* \s* \. \s* )* Math \s* \. \s* pow \s* \(] *)
Definition powRe : regex :=
  rseq [ RStar (rseq [RWordBoundary; identifier; ws; lit "."; ws]);
         lit "Math"; ws; lit "."; ws; lit "pow"; ws; lit "(" ].

(** The [while ((match = powRe.exec(maskedText)) !== null)] loop.  A match
    is not empty, so [powRe.lastIndex] grows with every turn. *)
Fixpoint findPowCallsFrom (turns : nat) (text maskedText : jsstring)
  (lastIndex : nat) (results : list PowMatch) : outcome (list PowMatch) :=
  match exec powRe maskedText lastIndex with
  | None => Done results
  | Some m =>
    match turns with
    | O => OutOfFuel
    | S turns =>
      let start := mIndex m in
      (* after a match, lastIndex is the end of the match *)
      let lastIndex := mEnd m in
      let prev := match start with O => None
                  | S p => charAt maskedText p end in
      if testO isIdentChar prev || isO "." prev then
        findPowCallsFrom turns text maskedText lastIndex results
      else
        let openParen := mEnd m - 1 in
        match findMatchingParen maskedText openParen with
        | None => findPowCallsFrom turns text maskedText lastIndex results
        | Some closeParen =>
          match splitTwoArgs maskedText (openParen + 1) closeParen with
          | None => findPowCallsFrom turns text maskedText lastIndex results
          | Some (a, b) =>
            (* Avoid XOR confusion inside pow args too. *)
            if includes caret a || includes caret b then
              findPowCallsFrom turns text maskedText lastIndex results
            else
              match orRaw a (parseExpression a),
                    orRaw b (parseExpression b) with
              | Done baseExpr, Done expExpr =>
                  let baseLatexRaw := exprToLatex baseExpr in
                  let baseLatex :=
                    if exprContainsOperator baseExpr
                    then str "\left(" ++ baseLatexRaw ++ str "\right)"
                    else baseLatexRaw in
                  let latex :=
                    str "{" ++ baseLatex ++ str "}^{" ++ exprToLatex expExpr
                      ++ str "}" in
                  let calleeText := trim (slice text start openParen) in
                  let inlineText := formatPowInline baseExpr expExpr in
                  findPowCallsFrom turns text maskedText (closeParen + 1)
                    (results ++
                     [ {| powStart := start; powEnd := closeParen + 1;
                          calleeText := calleeText;
                          baseText := a; expText := b;
                          baseExpr := baseExpr; expExpr := expExpr;
                          powLatex := latex;
                          powInlineText := inlineText |} ])
              | _, _ => OutOfFuel
              end
          end
        end
    end
  end.

(** [findPowCalls(document, maskedText)], [text] being
    [document.getText()]. *)
Definition findPowCalls (text maskedText : jsstring)
  : outcome (list PowMatch) :=
  findPowCallsFrom (length maskedText) text maskedText 0 [].

(* ================================================================== *)
(** * findExpressions.ts : the Generic-Expression detector *)
(* ================================================================== *)

Record ExpressionMatch := {
  exprStart : nat;
  exprEnd : nat;
  exprText : jsstring;
  expr : Expr;
  exprLatex : jsstring;
  exprInlineText : jsstring
}.

(** [/[A-Za-z0-9_\(\{\[\+\-]/] *)
Definition isStartChar (c : char) : bool :=
  isIdentPart c || isCh "(" c || isCh "{" c || isCh "[" c
  || isCh "+" c || isCh "-" c.

(** [!/[A-Za-z0-9_\.]/.test(ch)] *)
Definition isBoundaryChar (c : char) : bool :=
  negb (isIdentPart c || isCh "." c).

(** [while (end > i && /\s/.test(maskedText[end - 1])) end--] *)
Fixpoint trimTrailing (maskedText : jsstring) (i end_ : nat) : nat :=
  match end_ with
  | O => end_
  | S e =>
      if (i <? end_) && testO isSpace (charAt maskedText e)
      then trimTrailing maskedText i e
      else end_
  end.

Definition isCallOrNew (e : Expr) : bool :=
  match e with
  | ECall _ _ | ENew _ _ => true
  | _ => false
  end.

(** The [while] loop of [findExpressions]; every turn moves [i] forward. *)
Fixpoint findExpressionsFrom (turns : nat) (text maskedText : jsstring)
  (maxMatches : nat) (i : nat) (results : list ExpressionMatch)
  : outcome (list ExpressionMatch) :=
  if negb ((i <? length maskedText) && (length results <? maxMatches))
  then Done results
  else
    match turns with
    | O => OutOfFuel
    | S turns =>
      let continue_ i := findExpressionsFrom turns text maskedText maxMatches
                                             i results in
      if negb (testO isStartChar (charAt maskedText i)) then continue_ (i + 1)
      (* Require a boundary before the start, to reduce duplicates. *)
      else if (0 <? i)
              && negb (match charAt maskedText (i - 1) with
                       | Some c => isBoundaryChar c | None => true end)
      then continue_ (i + 1)
      else
        match parseExpressionAt maskedText i with
        | OutOfFuel => OutOfFuel
        | NoMatch => continue_ (i + 1)
        | Done (parsed, parsedEnd) =>
          if isCallOrNew parsed then continue_ (i + 1)
          else
            (* Trim trailing whitespace. *)
            let end_ := trimTrailing maskedText i parsedEnd in
            if end_ <=? i then continue_ (i + 1)
            (* Avoid interpreting a circumflex as exponentiation anywhere. *)
            else if includes caret (slice maskedText i end_)
            then continue_ end_
            (* Require a boundary after the match. *)
            else if (end_ <? length maskedText)
                    && negb (match charAt maskedText end_ with
                             | Some c => isBoundaryChar c | None => true end)
            then continue_ (i + 1)
            else if negb (exprContainsOperator parsed)
            then continue_ (Nat.max end_ (i + 1))
            else
              findExpressionsFrom turns text maskedText maxMatches end_
                (results ++
                 [ {| exprStart := i; exprEnd := end_;
                      exprText := slice text i end_;
                      expr := parsed;
                      exprLatex := exprToLatex parsed;
                      exprInlineText := exprToInlineText parsed |} ])
        end
    end.

(** [findExpressions(document, maskedText, maxMatches = 500)] *)
Definition findExpressions (text maskedText : jsstring) (maxMatches : nat)
  : outcome (list ExpressionMatch) :=
  findExpressionsFrom (length maskedText) text maskedText maxMatches 0 [].

(* ================================================================== *)
(** * forLoopSum.ts : the Loop-Summation detector *)
(* ================================================================== *)

Record SumMatch := {
  sumStart : nat;
  sumEnd : nat;
  indexVar : jsstring;
  lowerText : jsstring;
  upperText : jsstring;
  accumulatorText : jsstring;
  termText : jsstring;
  sumLatex : jsstring;
  sumInlineText : jsstring
}.

Definition findMatchingBrace (text : jsstring) (openIndex : nat) : option nat :=
  findMatchingFrom (skipn openIndex text) openIndex 0%Z (ch "{") (ch "}").

Record ForHeader := {
  hIndexVar : jsstring;
  hLower : jsstring;
  hUpper : jsstring
}.

(** The pattern of [initRe], blanks added between its pieces:
    [\b (?:var|let|const|int|long|size_t|auto)? \s* ([A-Za-z_]\w* ) \s* =
     \s* ([^;]+) $] *)
Definition initRe : regex :=
  rseq [ RWordBoundary;
         ROpt (ralt [lit "var"; lit "let"; lit "const"; lit "int"; lit "long";
                     lit "size_t"; lit "auto"]);
         ws; RGroup 1 identifier; ws; lit "="; ws; RGroup 2 notSemicolons;
         REnd ].

(** [escapeRegExp(indexVar)] puts a backslash before every character that
    is special in a pattern, so the escaped text, used as a pattern, matches
    the text of [indexVar] itself. *)
Definition indexVarRe (indexVar : jsstring) : regex := RLit indexVar.

(** [^ I \s* (<=|<) \s* ([^;]+) $], [I] being the index variable *)
Definition condRe (indexVar : jsstring) : regex :=
  rseq [ RBegin; indexVarRe indexVar; ws;
         RGroup 1 (RAlt (lit "<=") (lit "<")); ws; RGroup 2 notSemicolons;
         REnd ].

(** [(?: \+\+ \s* I | I \s* \+\+ | I \s* \+= \s* 1 | I \s* = \s* I \s* \+ \s* 1 )],
    with no anchor at either end *)
Definition updateRe (indexVar : jsstring) : regex :=
  let I := indexVarRe indexVar in
  ralt [ rseq [lit "++"; ws; I];
         rseq [I; ws; lit "++"];
         rseq [I; ws; lit "+="; ws; lit "1"];
         rseq [I; ws; lit "="; ws; I; ws; lit "+"; ws; lit "1"] ].

Definition parseForHeader (header : jsstring) : option ForHeader :=
  let parts := split (ch ";") header in
  if length parts <? 3 then None
  else
    let init := nth 0 parts [] in
    let cond := nth 1 parts [] in
    let update := nth 2 parts [] in
    let initTrim := trim init in
    match exec initRe initTrim 0 with
    | None => None
    | Some initM =>
      let indexVar := group initTrim initM 1 in
      let lower := trim (group initTrim initM 2) in
      let condTrim := trim cond in
      match exec (condRe indexVar) condTrim 0 with
      | None => None
      | Some condM =>
        let op := group condTrim condM 1 in
        let rhs := trim (group condTrim condM 2) in
        (* Validate update references the same index variable. *)
        let upd := trim update in
        if negb (test (updateRe indexVar) upd) then None
        else
          let upper :=
            if list_eq_dec N.eq_dec op (str "<") then rhs ++ str " - 1"
            else rhs in
          Some {| hIndexVar := indexVar; hLower := lower; hUpper := upper |}
      end
    end.

(** [\b ([A-Za-z_]\w* ) \s* \+= \s* ([^;]+) ;] *)
Definition plusEqRe : regex :=
  rseq [ RWordBoundary; RGroup 1 identifier; ws; lit "+="; ws;
         RGroup 2 notSemicolons; lit ";" ].

(** [\b ([A-Za-z_]\w* ) \s* = \s* \1 \s* \+ \s* ([^;]+) ;] *)
Definition sumEqLeftRe : regex :=
  rseq [ RWordBoundary; RGroup 1 identifier; ws; lit "="; ws; RBackref 1; ws;
         lit "+"; ws; RGroup 2 notSemicolons; lit ";" ].

(** [\b ([A-Za-z_]\w* ) \s* = \s* ([^;]+) \s* \+ \s* \1 \s* ;] *)
Definition sumEqRightRe : regex :=
  rseq [ RWordBoundary; RGroup 1 identifier; ws; lit "="; ws;
         RGroup 2 notSemicolons; ws; lit "+"; ws; RBackref 1; ws; lit ";" ].

(** Accumulation patterns: sum += expr;  sum = sum + expr;
    sum = expr + sum;  The patterns have no [^] or [$], so their m flag
    changes nothing. *)
Definition extractSummation (body : jsstring) : option (jsstring * jsstring) :=
  match exec plusEqRe body 0 with
  | Some plusEq => Some (group body plusEq 1, trim (group body plusEq 2))
  | None =>
    match exec sumEqLeftRe body 0 with
    | Some sumEqLeft =>
        Some (group body sumEqLeft 1, trim (group body sumEqLeft 2))
    | None =>
      match exec sumEqRightRe body 0 with
      | Some sumEqRight =>
          Some (group body sumEqRight 1, trim (group body sumEqRight 2))
      | None => None
      end
    end
  end.

Definition capitalSigma : char := 931%N.   (* U+03A3 *)

(** The [while (i < maskedText.length)] loop of [findForLoopSummations];
    every turn moves [i] forward. *)
Fixpoint findForLoopSummationsFrom (turns : nat) (maskedText : jsstring)
  (i : nat) (results : list SumMatch) : outcome (list SumMatch) :=
  if negb (i <? length maskedText) then Done results
  else
    match indexOf maskedText (str "for") i with
    | None => Done results
    | Some idx =>
      match turns with
      | O => OutOfFuel
      | S turns =>
        let continue_ i := findForLoopSummationsFrom turns maskedText i
                                                     results in
        (* Ensure word boundary. *)
        let prev := match idx with O => None
                    | S p => charAt maskedText p end in
        let next := charAt maskedText (idx + 3) in
        if testO isIdentChar prev || testO isIdentChar next
        then continue_ (idx + 3)
        else
          let j := skipWs maskedText (idx + 3) in
          if negb (isO "(" (charAt maskedText j)) then continue_ (idx + 3)
          else
            match findMatching maskedText j (ch "(") (ch ")") with
            | None => continue_ (idx + 3)
            | Some closeParen =>
              let headerText := slice maskedText (j + 1) closeParen in
              match parseForHeader headerText with
              | None => continue_ (closeParen + 1)
              | Some header =>
                (* Find body: either { ... } or a single statement. *)
                let bodyStart := skipWs maskedText (closeParen + 1) in
                match
                  (if isO "{" (charAt maskedText bodyStart) then
                     match findMatchingBrace maskedText bodyStart with
                     | None => None
                     | Some bodyEnd =>
                         Some (bodyEnd,
                               slice maskedText (bodyStart + 1) bodyEnd)
                     end
                   else
                     (* Single statement ends at the semicolon *)
                     match indexOf maskedText (str ";") bodyStart with
                     | None => None
                     | Some semi =>
                         Some (semi + 1, slice maskedText bodyStart semi)
                     end)
                with
                | None => continue_ (closeParen + 1)
                | Some (bodyEnd, bodyText) =>
                  match extractSummation bodyText with
                  | None => continue_ (bodyEnd + 1)
                  | Some (accumulatorText, termText) =>
                    (* If term contains a circumflex, skip. *)
                    if includes caret termText
                       || includes caret (hLower header)
                       || includes caret (hUpper header)
                    then continue_ (bodyEnd + 1)
                    else
                      match orRaw (hLower header)
                                  (parseExpression (hLower header)),
                            orRaw (hUpper header)
                                  (parseExpression (hUpper header)),
                            orRaw termText (parseExpression termText),
                            orRaw accumulatorText
                                  (parseExpression accumulatorText)
                      with
                      | Done lowerExpr, Done upperExpr, Done termExpr,
                        Done accExpr =>
                        let sumLatex :=
                          str "\sum_{" ++ hIndexVar header ++ str "="
                            ++ exprToLatex lowerExpr ++ str "}^{"
                            ++ exprToLatex upperExpr ++ str "} "
                            ++ exprToLatex termExpr in
                        let sumInline :=
                          [capitalSigma] ++ str "_" ++ hIndexVar header
                            ++ str "=" ++ exprToInlineText lowerExpr
                            ++ str ".." ++ exprToInlineText upperExpr
                            ++ str " " ++ exprToInlineText termExpr in
                        let latex :=
                          exprToLatex accExpr ++ str " = " ++ sumLatex in
                        let inlineText :=
                          exprToInlineText accExpr ++ str " = " ++ sumInline in
                        findForLoopSummationsFrom turns maskedText
                          (bodyEnd + 1)
                          (results ++
                           [ {| sumStart := idx; sumEnd := bodyEnd;
                                indexVar := hIndexVar header;
                                lowerText := hLower header;
                                upperText := hUpper header;
                                accumulatorText := accumulatorText;
                                termText := termText;
                                sumLatex := latex;
                                sumInlineText := inlineText |} ])
                      | _, _, _, _ => OutOfFuel
                      end
                  end
                end
              end
            end
      end
    end.

(** [findForLoopSummations(document, maskedText)] *)
Definition findForLoopSummations (maskedText : jsstring)
  : outcome (list SumMatch) :=
  findForLoopSummationsFrom (length maskedText) maskedText 0 [].

(* ================================================================== *)
(** * extension.ts : the overlap resolver

    [vscode.Position] and [vscode.Range] belong to the editor API; the part
    of them that [pickLargestNonOverlapping] uses is written out here as
    the API documents it: positions are ordered by line, then character;
    [a.intersection(b)] is the range from the greater start to the smaller
    end, and [undefined] when that start lies after that end;
    [a.contains(b)] holds when both ends of [b] lie in [a]. *)
(* ================================================================== *)

Record Position := { line : nat; character : nat }.

Record Range := { rstart : Position; rend : Position }.

Definition isBefore (p q : Position) : bool :=
  (line p <? line q) || ((line p =? line q) && (character p <? character q)).

Definition isAfter (p q : Position) : bool := isBefore q p.

Definition isBeforeOrEqual (p q : Position) : bool := negb (isBefore q p).

Definition posMax (p q : Position) : Position := if isBefore p q then q else p.
Definition posMin (p q : Position) : Position := if isBefore q p then q else p.

Definition intersection (a b : Range) : option Range :=
  let s := posMax (rstart b) (rstart a) in
  let e := posMin (rend b) (rend a) in
  if isAfter s e then None else Some {| rstart := s; rend := e |}.

Definition containsPosition (a : Range) (p : Position) : bool :=
  negb (isBefore p (rstart a)) && negb (isBefore (rend a) p).

Definition contains (a b : Range) : bool :=
  containsPosition a (rstart b) && containsPosition a (rend b).

Inductive AnyMatch :=
| MDivision (range : Range) (numerator denominator : jsstring)
| MPow (range : Range) (latex inlineText : jsstring)
| MExpr (range : Range) (latex inlineText : jsstring)
| MSum (range : Range) (latex inlineText : jsstring)
| MMap (range : Range) (latex inlineText : jsstring).

Definition rangeOf (m : AnyMatch) : Range :=
  match m with
  | MDivision r _ _ | MPow r _ _ | MExpr r _ _ | MSum r _ _ | MMap r _ _ => r
  end.

(** The comparator given to [sort]: start ascending, then end descending
    (longer first if same start). *)
Definition compareMatches (a b : AnyMatch) : Z :=
  let sa := rstart (rangeOf a) in
  let sb := rstart (rangeOf b) in
  let ea := rend (rangeOf a) in
  let eb := rend (rangeOf b) in
  if negb (line sa =? line sb) then (Z.of_nat (line sa) - Z.of_nat (line sb))%Z
  else if negb (character sa =? character sb)
  then (Z.of_nat (character sa) - Z.of_nat (character sb))%Z
  else if negb (line ea =? line eb)
  then (Z.of_nat (line eb) - Z.of_nat (line ea))%Z
  else (Z.of_nat (character eb) - Z.of_nat (character ea))%Z.

(** [Array.prototype.sort] is a stable sort; with a comparator that is a
    total preorder every stable sort gives the same array.  It is written
    here as an insertion sort: an element goes in front of the first
    element that does not compare below it. *)
Fixpoint insertSorted (cmp : AnyMatch -> AnyMatch -> Z) (x : AnyMatch)
  (sorted : list AnyMatch) : list AnyMatch :=
  match sorted with
  | [] => [x]
  | y :: rest =>
      if (cmp x y <=? 0)%Z then x :: y :: rest
      else y :: insertSorted cmp x rest
  end.

Definition sort (cmp : AnyMatch -> AnyMatch -> Z) (l : list AnyMatch)
  : list AnyMatch :=
  fold_right (insertSorted cmp) [] l.

(** The inner [for (const k of kept)] loop: does some kept match overlap
    the candidate?  Both branches under the intersection test set
    [overlaps] and leave the loop. *)
Definition overlapsKept (kept : list AnyMatch) (candidate : AnyMatch) : bool :=
  existsb (fun k =>
             match intersection (rangeOf k) (rangeOf candidate) with
             | Some _ =>
                 if contains (rangeOf k) (rangeOf candidate) then true
                 else true
             | None => false
             end) kept.

(** The outer [for (const item of withOffsets)] loop. *)
Fixpoint pickFrom (kept : list AnyMatch) (items : list AnyMatch)
  : list AnyMatch :=
  match items with
  | [] => kept
  | candidate :: rest =>
      if overlapsKept kept candidate then pickFrom kept rest
      else pickFrom (kept ++ [candidate]) rest
  end.

Definition pickLargestNonOverlapping (matches : list AnyMatch)
  : list AnyMatch :=
  pickFrom [] (sort compareMatches matches).

(* ================================================================== *)
(** * Vocabulary of the properties *)
(* ================================================================== *)

(** ** The masker *)

(** What [maskJavaNonCode] may do to one character: a line break is kept,
    any other character is kept or blanked. *)
Definition keeps (c d : char) : Prop :=
  (isNewline c = true -> d = c) /\ (d = blank \/ d = c).

(** A text is [clean] when it has no quote character and no slash directly
    followed by a slash or a star: nothing in it opens a comment, a string,
    a character literal or a text block. *)
Fixpoint clean (out : jsstring) : Prop :=
  match out with
  | [] => True
  | c :: rest =>
      c <> dquote /\ c <> squote /\
      (c = ch "/" -> hd_error rest <> Some (ch "/")
                     /\ hd_error rest <> Some (ch "*")) /\
      clean rest
  end.

(** ** The renderers *)

(** An expression tree built from [Number], [Identifier] and [Binary]
    nodes only, with leaf texts that satisfy [leaf]. *)
Inductive plainTree (leaf : jsstring -> Prop) : Expr -> Prop :=
| plain_number value : leaf value -> plainTree leaf (ENumber value)
| plain_ident name : leaf name -> plainTree leaf (EIdent name)
| plain_binary op l r :
    plainTree leaf l -> plainTree leaf r -> plainTree leaf (EBinary op l r).

(** A leaf text as the parser takes one from the source: not empty, and
    with no circumflex. *)
Definition leafText (s : jsstring) : Prop :=
  s <> [] /\ includes caret s = false.

(** What C9 asks of an expression: its two renderings are not empty and
    have no circumflex in them. *)
Definition rendersWithoutCaret (e : Expr) : Prop :=
  exprToInlineText e <> [] /\ includes caret (exprToInlineText e) = false /\
  exprToLatex e <> [] /\ includes caret (exprToLatex e) = false.

(** [goodLeaves e]: every [Number] and [Identifier] node of [e] has a
    leaf text of the parser, wherever it stands in the tree. *)
Inductive goodLeaves : Expr -> Prop :=
| good_number v : leafText v -> goodLeaves (ENumber v)
| good_ident n : leafText n -> goodLeaves (EIdent n)
| good_raw t : goodLeaves (ERaw t)
| good_group b e : goodLeaves e -> goodLeaves (EGroup b e)
| good_unary op e : goodLeaves e -> goodLeaves (EUnary op e)
| good_binary op l r :
    goodLeaves l -> goodLeaves r -> goodLeaves (EBinary op l r)
| good_member o m : goodLeaves o -> goodLeaves (EMember o m)
| good_index o i : goodLeaves o -> goodLeaves i -> goodLeaves (EIndex o i)
| good_call c args :
    goodLeaves c -> Forall goodLeaves args -> goodLeaves (ECall c args)
| good_new c args :
    goodLeaves c -> Forall goodLeaves args -> goodLeaves (ENew c args).

(** ** The Power-Call detector *)

(** The characters that [splitTwoArgs] does not step over: the brackets it
    counts and the comma. *)
Definition isArgPunct (c : char) : bool :=
  isCh "(" c || isCh ")" c || isCh "{" c || isCh "}" c
  || isCh "[" c || isCh "]" c || isCh "," c.

(** ** The overlap resolver *)

(** Two matches overlap when the editor finds an intersection of their
    ranges. *)
Definition overlap (a b : AnyMatch) : Prop :=
  intersection (rangeOf a) (rangeOf b) <> None.

(** [prefers k m]: [k] starts before [m], or at the same position and ends
    no earlier (it is at least as long). *)
Definition prefers (k m : AnyMatch) : Prop :=
  isBefore (rstart (rangeOf k)) (rstart (rangeOf m)) = true \/
  (rstart (rangeOf k) = rstart (rangeOf m) /\
   isBeforeOrEqual (rend (rangeOf m)) (rend (rangeOf k)) = true).

(** [a] does not sort after [b]. *)
Definition matchLeq (a b : AnyMatch) : Prop :=
  (compareMatches a b <= 0)%Z.

(** No two kept ranges intersect, whichever of the two is asked. *)
Definition apart (a b : AnyMatch) : Prop :=
  intersection (rangeOf a) (rangeOf b) = None /\
  intersection (rangeOf b) (rangeOf a) = None.

(** [p] comes strictly before [q]. *)
Definition plt (p q : Position) : Prop :=
  line p < line q \/ (line p = line q /\ character p < character q).

(** The position [p] lies in the range [r], ends included. *)
Definition within (p : Position) (r : Range) : Prop :=
  isBeforeOrEqual (rstart r) p = true /\ isBeforeOrEqual p (rend r) = true.

(** Ranges on one line, by their offsets. *)
Definition span (a b : nat) : Range :=
  {| rstart := {| line := 0; character := a |};
     rend := {| line := 0; character := b |} |}.

(** ** The parser and the Generic-Expression detector *)

(** A parsing method [advances] when the offset it leaves is not before the
    offset it found. *)
Definition advances (f : nat -> outcome (Expr * nat)) : Prop :=
  forall i e j, f i = Done (e, j) -> i <= j.

(** A call [answers] when it ends with a result or with [undefined]. *)
Definition answers {A : Type} (r : outcome A) : Prop := r <> OutOfFuel.

Section ExprInduction.

Variable P : Expr -> Prop.
Hypothesis HNumber : forall v, P (ENumber v).
Hypothesis HIdent : forall n, P (EIdent n).
Hypothesis HRaw : forall t, P (ERaw t).
Hypothesis HGroup : forall b e, P e -> P (EGroup b e).
Hypothesis HUnary : forall op e, P e -> P (EUnary op e).
Hypothesis HBinary : forall op l r, P l -> P r -> P (EBinary op l r).
Hypothesis HMember : forall o m, P o -> P (EMember o m).
Hypothesis HIndex : forall o i, P o -> P i -> P (EIndex o i).
Hypothesis HCall : forall c args, P c -> Forall P args -> P (ECall c args).
Hypothesis HNew : forall c args, P c -> Forall P args -> P (ENew c args).

(** Induction over [Expr] that reaches the arguments of a call. *)
Fixpoint Expr_tree_ind (e : Expr) : P e :=
  let all :=
    fix all (l : list Expr) : Forall P l :=
      match l with
      | [] => Forall_nil P
      | x :: r => Forall_cons x (Expr_tree_ind x) (all r)
      end in
  match e with
  | ENumber v => HNumber v
  | EIdent n => HIdent n
  | ERaw t => HRaw t
  | EGroup b e1 => HGroup b (Expr_tree_ind e1)
  | EUnary op e1 => HUnary op (Expr_tree_ind e1)
  | EBinary op l r => HBinary op (Expr_tree_ind l) (Expr_tree_ind r)
  | EMember o m => HMember m (Expr_tree_ind o)
  | EIndex o i => HIndex (Expr_tree_ind o) (Expr_tree_ind i)
  | ECall c args => HCall (Expr_tree_ind c) (all args)
  | ENew c args => HNew (Expr_tree_ind c) (all args)
  end.

End ExprInduction.

(** [child c e]: [c] is one of the nodes directly under [e]. *)
Inductive child : Expr -> Expr -> Prop :=
| child_group b e : child e (EGroup b e)
| child_unary op e : child e (EUnary op e)
| child_left op l r : child l (EBinary op l r)
| child_right op l r : child r (EBinary op l r)
| child_object o m : child o (EMember o m)
| child_index_object o i : child o (EIndex o i)
| child_index o i : child i (EIndex o i)
| child_callee c args : child c (ECall c args)
| child_call_arg c args a : In a args -> child a (ECall c args)
| child_ctor c args : child c (ENew c args)
| child_new_arg c args a : In a args -> child a (ENew c args).

(** [inTree s e]: the node [s] occurs in the tree [e]. *)
Inductive inTree (s : Expr) : Expr -> Prop :=
| inTree_root : inTree s s
| inTree_under c e : inTree s c -> child c e -> inTree s e.

Definition hasBinaryNode (e : Expr) : Prop :=
  exists op l r, inTree (EBinary op l r) e.

(** What C6 says of a match of the detector on the masked text. *)
Record arithmeticMatch (maskedText : jsstring) (m : ExpressionMatch) : Prop := {
  not_a_call : forall callee args, expr m <> ECall callee args;
  not_a_construct : forall ctor args, expr m <> ENew ctor args;
  no_caret : ~ In caret (slice maskedText (exprStart m) (exprEnd m));
  has_operator : hasBinaryNode (expr m);
  not_a_leaf : (forall v, expr m <> ENumber v) /\ (forall n, expr m <> EIdent n)
}.

(* ================================================================== *)
(** * stackedFraction.ts and latex.ts *)
(* ================================================================== *)

(** [c.repeat(n)] for a one-character string *)
Definition repeatChar (c : char) (n : nat) : jsstring := repeat c n.

Definition boxLine : char := 9472%N.   (* U+2500 *)

(** [Math.ceil(totalPad / 2)] is [(totalPad + 1) / 2] on the integers. *)
Definition padCenter (text : jsstring) (width : nat) : jsstring :=
  if width <=? length text then text
  else
    let totalPad := width - length text in
    let left_ := (totalPad + 1) / 2 in
    let right_ := totalPad - left_ in
    repeatChar blank left_ ++ text ++ repeatChar blank right_.

Definition buildStackedFraction (numerator denominator : jsstring)
  : jsstring :=
  let width := Nat.max (Nat.max (length numerator) (length denominator)) 1 in
  let top := padCenter numerator width in
  let line_ := repeatChar boxLine width in
  let bottom := padCenter denominator width in
  top ++ [LF] ++ line_ ++ [LF] ++ bottom.

Definition divisionToLatex (numerator denominator : jsstring) : jsstring :=
  str "\frac{" ++ numerator ++ str "}{" ++ denominator ++ str "}".

(* ================================================================== *)
(** * extension.ts : text helpers *)
(* ================================================================== *)

(** The table [subscripts] of [formatInlineFraction]. *)
Definition subscriptOf (c : char) : char :=
  if isCh "0" c then 8320%N        (* U+2080 *)
  else if isCh "1" c then 8321%N
  else if isCh "2" c then 8322%N
  else if isCh "3" c then 8323%N
  else if isCh "4" c then 8324%N
  else if isCh "5" c then 8325%N
  else if isCh "6" c then 8326%N
  else if isCh "7" c then 8327%N
  else if isCh "8" c then 8328%N
  else if isCh "9" c then 8329%N   (* U+2089 *)
  else c.

(** [/^\d+$/.test(value)] *)
Definition isInteger (value : jsstring) : bool :=
  match value with
  | [] => false
  | _ :: _ => forallb isDigit value
  end.

Definition formatInlineFraction (numerator denominator prefix : jsstring)
  : jsstring :=
  let toSuper (value : jsstring) := map superscriptOf value in
  let toSub (value : jsstring) := map subscriptOf value in
  if isInteger numerator && isInteger denominator then
    prefix ++ toSuper numerator ++ [fractionSlash] ++ toSub denominator
  else prefix ++ numerator ++ [fractionSlash] ++ denominator.

(** [text.replace(/c/g, replacement)] for a one-character pattern *)
Definition replaceAll (c : char) (replacement text : jsstring) : jsstring :=
  flat_map (fun x => if N.eqb x c then replacement else [x]) text.

(** Five replacements, one after the other, the ampersand first. *)
Definition escapeHtml (text : jsstring) : jsstring :=
  replaceAll squote (str "&#39;")
    (replaceAll dquote (str "&quot;")
       (replaceAll (ch ">") (str "&gt;")
          (replaceAll (ch "<") (str "&lt;")
             (replaceAll (ch "&") (str "&amp;") text)))).

(* ================================================================== *)
(** * division.ts : the Division detector

    The document is its list of lines, [document.lineAt(n).text]. *)
(* ================================================================== *)

Record DivisionMatch := {
  divRange : Range;
  numerator : jsstring;
  denominator : jsstring
}.

Record LineExclusions := {
  commentStart : option nat;
  quotedRanges : list (nat * nat)
}.

(** [if (quoteStart !== null) quotedRanges.push([quoteStart, to])] *)
Definition pushQuoted (quoteStart : option nat) (to : nat)
  (quotedRanges : list (nat * nat)) : list (nat * nat) :=
  match quoteStart with
  | Some q => quotedRanges ++ [(q, to)]
  | None => quotedRanges
  end.

(** The loop of [computeLineExclusions] from index [i] on, [suffix] being
    [line[i..]]. *)
Fixpoint computeLineExclusionsFrom (suffix : jsstring) (i lineLength : nat)
  (inDouble inSingle escape : bool) (quoteStart : option nat)
  (quotedRanges : list (nat * nat)) : LineExclusions :=
  match suffix with
  | [] =>
      (* If a quote was not closed, treat it as quoted to end-of-line. *)
      {| commentStart := None;
         quotedRanges := pushQuoted quoteStart lineLength quotedRanges |}
  | ch0 :: rest =>
      if escape then
        computeLineExclusionsFrom rest (S i) lineLength inDouble inSingle
                                  false quoteStart quotedRanges
      else if (inDouble || inSingle) && N.eqb ch0 backslash then
        computeLineExclusionsFrom rest (S i) lineLength inDouble inSingle
                                  true quoteStart quotedRanges
      else if negb inSingle && N.eqb ch0 dquote then
        if negb inDouble then
          computeLineExclusionsFrom rest (S i) lineLength true inSingle
                                    escape (Some i) quotedRanges
        else
          computeLineExclusionsFrom rest (S i) lineLength false inSingle
                                    escape None
                                    (pushQuoted quoteStart (i + 1) quotedRanges)
      else if negb inDouble && N.eqb ch0 squote then
        if negb inSingle then
          computeLineExclusionsFrom rest (S i) lineLength inDouble true
                                    escape (Some i) quotedRanges
        else
          computeLineExclusionsFrom rest (S i) lineLength inDouble false
                                    escape None
                                    (pushQuoted quoteStart (i + 1) quotedRanges)
      else if negb inSingle && negb inDouble && isCh "/" ch0
              && isO "/" (hd_error rest) then
        {| commentStart := Some i; quotedRanges := quotedRanges |}
      else
        computeLineExclusionsFrom rest (S i) lineLength inDouble inSingle
                                  escape quoteStart quotedRanges
  end.

Definition computeLineExclusions (line_ : jsstring) : LineExclusions :=
  computeLineExclusionsFrom line_ 0 (length line_) false false false None [].

Definition isInRanges (index : nat) (ranges : list (nat * nat)) : bool :=
  existsb (fun r => (fst r <=? index) && (index <? snd r)) ranges.

(** [(?: [A-Za-z_]\w* | \d+ (?: \. \d+ )? )] *)
Definition token : regex :=
  RAlt identifier
       (RSeq (RPlus (RChar isDigit))
             (ROpt (RSeq (lit ".") (RPlus (RChar isDigit))))).

(** [\b (TOKEN) \s* / \s* (TOKEN) \b], with the g flag *)
Definition divisionRe : regex :=
  rseq [ RWordBoundary; RGroup 1 token; ws; lit "/"; ws; RGroup 2 token;
         RWordBoundary ].

(** The [while ((match = divisionRe.exec(text)) !== null)] loop on one
    line; a match is not empty, so [lastIndex] grows with every turn. *)
Fixpoint findDivisionsInLine (turns : nat) (lineNumber : nat)
  (text : jsstring) (excl : LineExclusions) (lastIndex : nat)
  (results : list DivisionMatch) : outcome (list DivisionMatch) :=
  match exec divisionRe text lastIndex with
  | None => Done results
  | Some m =>
    match turns with
    | O => OutOfFuel
    | S turns =>
      let start := mIndex m in
      if match commentStart excl with
         | Some c => c <=? start
         | None => false
         end
      then Done results                                   (* break *)
      else if isInRanges start (quotedRanges excl) then
        findDivisionsInLine turns lineNumber text excl (mEnd m) results
      else
        let end_ := mEnd m in                 (* start + raw.length *)
        findDivisionsInLine turns lineNumber text excl (mEnd m)
          (results ++
           [ {| divRange :=
                  {| rstart := {| line := lineNumber; character := start |};
                     rend := {| line := lineNumber; character := end_ |} |};
                numerator := group text m 1;
                denominator := group text m 2 |} ])
    end
  end.

(** The [for] loop over the lines. *)
Fixpoint findDivisionsFrom (lines : list jsstring) (lineNumber : nat)
  (results : list DivisionMatch) : outcome (list DivisionMatch) :=
  match lines with
  | [] => Done results
  | text :: rest =>
      match findDivisionsInLine (length text) lineNumber text
                                (computeLineExclusions text) 0 results with
      | Done results => findDivisionsFrom rest (S lineNumber) results
      | NoMatch => NoMatch
      | OutOfFuel => OutOfFuel
      end
  end.

(** [findDivisions(document)] *)
Definition findDivisions (lines : list jsstring)
  : outcome (list DivisionMatch) :=
  findDivisionsFrom lines 0 [].

(* ================================================================== *)
(** * forLoopMap.ts : the Loop-Mapping detector

    Its [parseForHeader] and helpers are the ones of forLoopSum.ts, text
    for text. *)
(* ================================================================== *)

Record MapMatch := {
  mapStart : nat;
  mapEnd : nat;
  mapIndexVar : jsstring;
  mapLowerText : jsstring;
  mapUpperText : jsstring;
  arrayText : jsstring;
  indexText : jsstring;
  valueText : jsstring;
  mapLatex : jsstring;
  mapInlineText : jsstring
}.

(** [new RegExp(`\b${escapeRegExp(ident)}\b`).test(text)] *)
Definition wordContainsIdent (text ident : jsstring) : bool :=
  test (rseq [RWordBoundary; indexVarRe ident; RWordBoundary]) text.

(** [\b ([A-Za-z_][\w\.]* ) \s* \[ \s* ([^\]]+) \s* \] \s* = \s* ([^;]+) ;] *)
Definition mappingRe : regex :=
  rseq [ RWordBoundary;
         RGroup 1 (RSeq (RChar isIdentStart)
                        (RStar (RChar (fun c => isIdentPart c || isCh "." c))));
         ws; lit "["; ws;
         RGroup 2 (RPlus (RChar (fun c => negb (isCh "]" c))));
         ws; lit "]"; ws; lit "="; ws; RGroup 3 notSemicolons; lit ";" ].

Record Mapping := {
  mArrayText : jsstring;
  mIndexText : jsstring;
  mValueText : jsstring
}.

Definition extractMapping (body indexVar : jsstring) : option Mapping :=
  match exec mappingRe body 0 with
  | None => None
  | Some m =>
      let arrayText := trim (group body m 1) in
      let indexText := trim (group body m 2) in
      let valueText := trim (group body m 3) in
      if negb (wordContainsIdent indexText indexVar) then None
      else Some {| mArrayText := arrayText; mIndexText := indexText;
                   mValueText := valueText |}
  end.

Definition toExpr (text : jsstring) : outcome Expr :=
  orRaw text (parseExpression text).

(** The [while (i < maskedText.length)] loop of [findForLoopMappings]. *)
Fixpoint findForLoopMappingsFrom (turns : nat) (maskedText : jsstring)
  (i : nat) (results : list MapMatch) : outcome (list MapMatch) :=
  if negb (i <? length maskedText) then Done results
  else
    match indexOf maskedText (str "for") i with
    | None => Done results
    | Some idx =>
      match turns with
      | O => OutOfFuel
      | S turns =>
        let continue_ i := findForLoopMappingsFrom turns maskedText i
                                                   results in
        let prev := match idx with O => None
                    | S p => charAt maskedText p end in
        let next := charAt maskedText (idx + 3) in
        if testO isIdentChar prev || testO isIdentChar next
        then continue_ (idx + 3)
        else
          let j := skipWs maskedText (idx + 3) in
          if negb (isO "(" (charAt maskedText j)) then continue_ (idx + 3)
          else
            match findMatching maskedText j (ch "(") (ch ")") with
            | None => continue_ (idx + 3)
            | Some closeParen =>
              let headerText := slice maskedText (j + 1) closeParen in
              match parseForHeader headerText with
              | None => continue_ (closeParen + 1)
              | Some header =>
                let bodyStart := skipWs maskedText (closeParen + 1) in
                match
                  (if isO "{" (charAt maskedText bodyStart) then
                     match findMatchingBrace maskedText bodyStart with
                     | None => None
                     | Some bodyEnd =>
                         Some (bodyEnd,
                               slice maskedText (bodyStart + 1) bodyEnd)
                     end
                   else
                     match indexOf maskedText (str ";") bodyStart with
                     | None => None
                     | Some semi =>
                         Some (semi + 1, slice maskedText bodyStart semi)
                     end)
                with
                | None => continue_ (closeParen + 1)
                | Some (bodyEnd, bodyText) =>
                  match extractMapping bodyText (hIndexVar header) with
                  | None => continue_ (bodyEnd + 1)
                  | Some extracted =>
                    let arrayText := mArrayText extracted in
                    let indexText := mIndexText extracted in
                    let valueText := mValueText extracted in
                    if includes caret arrayText
                       || includes caret indexText
                       || includes caret valueText
                       || includes caret (hLower header)
                       || includes caret (hUpper header)
                    then continue_ (bodyEnd + 1)
                    else
                      match toExpr (hLower header), toExpr (hUpper header),
                            toExpr arrayText, toExpr indexText,
                            toExpr valueText, toExpr (hIndexVar header)
                      with
                      | Done lowerExpr, Done upperExpr, Done arrayExpr,
                        Done indexExpr, Done valueExpr, Done idxVarExpr =>
                        let lhsExpr := EIndex arrayExpr indexExpr in
                        let latex :=
                          exprToLatex lhsExpr ++ str " = "
                            ++ exprToLatex valueExpr ++ str ",\quad "
                            ++ exprToLatex idxVarExpr ++ str " = "
                            ++ exprToLatex lowerExpr ++ str ",\ldots,"
                            ++ exprToLatex upperExpr in
                        let inlineText :=
                          exprToInlineText lhsExpr ++ str " = "
                            ++ exprToInlineText valueExpr ++ str "  ("
                            ++ hIndexVar header ++ str "="
                            ++ exprToInlineText lowerExpr ++ str ".."
                            ++ exprToInlineText upperExpr ++ str ")" in
                        findForLoopMappingsFrom turns maskedText
                          (bodyEnd + 1)
                          (results ++
                           [ {| mapStart := idx; mapEnd := bodyEnd;
                                mapIndexVar := hIndexVar header;
                                mapLowerText := hLower header;
                                mapUpperText := hUpper header;
                                arrayText := arrayText;
                                indexText := indexText;
                                valueText := valueText;
                                mapLatex := latex;
                                mapInlineText := inlineText |} ])
                      | _, _, _, _, _, _ => OutOfFuel
                      end
                  end
                end
              end
            end
      end
    end.

(** [findForLoopMappings(document, maskedText)] *)
Definition findForLoopMappings (maskedText : jsstring)
  : outcome (list MapMatch) :=
  findForLoopMappingsFrom (length maskedText) maskedText 0 [].

(* ================================================================== *)
(** * Vocabulary of the further properties *)
(* ================================================================== *)

(** [endsWithSlash code]: the last character of [code] is a slash. *)
Definition endsWithSlash (code : jsstring) : Prop :=
  exists pre, code = pre ++ [ch "/"].

(** What a comment leaves of one of its characters. *)
Definition blankOrNewline (c : char) : char :=
  if isNewline c then c else blank.

(** No star of [body] is followed by a slash. *)
Fixpoint noCommentEnd (body : jsstring) : Prop :=
  match body with
  | [] => True
  | c :: rest =>
      (c = ch "*" -> hd_error rest <> Some (ch "/")) /\ noCommentEnd rest
  end.

(** The inside of a string or character literal with quote [q]: plain
    characters and escaped characters, with no line break and no closing
    quote. *)
Inductive literalBody (q : char) : jsstring -> Prop :=
| literalBody_nil : literalBody q []
| literalBody_plain c b :
    isNewline c = false -> c <> backslash -> c <> q ->
    literalBody q b -> literalBody q (c :: b)
| literalBody_escape c b :
    isNewline c = false -> literalBody q b ->
    literalBody q (backslash :: c :: b).

(** The delimiter of a text block. *)
Definition tripleQuote : jsstring := [dquote; dquote; dquote].

(** No three characters in a row of [s] are double quotes. *)
Fixpoint noTripleQuote (s : jsstring) : Prop :=
  match s with
  | [] => True
  | c :: rest =>
      ~ (c = dquote /\ hd_error rest = Some dquote /\
         hd_error (drop1 rest) = Some dquote) /\
      noTripleQuote rest
  end.

(** How many characters of [l] are [c], as an integer. *)
Definition countChar (c : char) (l : jsstring) : Z :=
  Z.of_nat (count_occ N.eq_dec l c).

(** A text with a character at each end that is not white space. *)
Definition trimmed (p : jsstring) : Prop := p <> [] /\ trim p = p.

(** A text that does not start with white space. *)
Definition noLeadingSpace (s : jsstring) : Prop :=
  match s with [] => True | c :: _ => isSpace c = false end.

(** The part that a top-level comma or the end of the text closes: the
    trimmed text, unless nothing is left of it. *)
Definition partOf (a : jsstring) : list jsstring :=
  match trim a with [] => [] | _ :: _ => [trim a] end.

(** A parsing method [consumes] when a result ends inside the text and
    after the first character that is not white space: it has read a
    character or more. *)
Definition consumes (text : jsstring) (f : nat -> outcome (Expr * nat))
  : Prop :=
  forall i e j, f i = Done (e, j) -> skipWs text i < j <= length text.

(** A loop of the parser [staysWithin] the text: it does not move back,
    and started inside the text it ends inside it. *)
Definition staysWithin (text : jsstring) (f : nat -> outcome (Expr * nat))
  : Prop :=
  forall i e j, f i = Done (e, j) ->
    i <= j /\ (i <= length text -> j <= length text).

(** A raw node that holds some text. *)
Definition rawWithText (e : Expr) : Prop :=
  match e with ERaw (_ :: _) => True | _ => False end.

(** No text anywhere in the tree holds a circumflex. *)
Inductive noCaretTree : Expr -> Prop :=
| nc_number v : includes caret v = false -> noCaretTree (ENumber v)
| nc_ident n : includes caret n = false -> noCaretTree (EIdent n)
| nc_raw t : includes caret t = false -> noCaretTree (ERaw t)
| nc_group b e : noCaretTree e -> noCaretTree (EGroup b e)
| nc_unary op e : noCaretTree e -> noCaretTree (EUnary op e)
| nc_binary op l r :
    noCaretTree l -> noCaretTree r -> noCaretTree (EBinary op l r)
| nc_member o m :
    noCaretTree o -> includes caret m = false -> noCaretTree (EMember o m)
| nc_index o i : noCaretTree o -> noCaretTree i -> noCaretTree (EIndex o i)
| nc_call c args :
    noCaretTree c -> Forall noCaretTree args -> noCaretTree (ECall c args)
| nc_new c args :
    noCaretTree c -> Forall noCaretTree args -> noCaretTree (ENew c args).

(** No offset from [a] up to [b] holds a circumflex. *)
Definition cleanRange (text : jsstring) (a b : nat) : Prop :=
  forall k, a <= k < b -> charAt text k <> Some caret.

(** ** Matches in order *)

(** The spans [(start, end)] come one after the other from [from] on: each
    is not empty and starts no earlier than the one before it ends. *)
Fixpoint inOrder (from : nat) (spans : list (nat * nat)) : Prop :=
  match spans with
  | [] => True
  | (a, b) :: rest => from <= a /\ a < b /\ inOrder b rest
  end.

(** Where the last of the spans ends, [from] when there is none. *)
Fixpoint lastEnd (from : nat) (spans : list (nat * nat)) : nat :=
  match spans with
  | [] => from
  | (_, b) :: rest => lastEnd b rest
  end.

Definition exprSpan (m : ExpressionMatch) : nat * nat :=
  (exprStart m, exprEnd m).

(** What the Generic-Expression detector records in a match: the text of
    the document and the renderings of the expression that the parser
    finds at the start of the match, between two boundaries. *)
Record recordedMatch (text maskedText : jsstring) (m : ExpressionMatch)
  : Prop := {
  text_of_document : exprText m = slice text (exprStart m) (exprEnd m);
  latex_of_expr : exprLatex m = exprToLatex (expr m);
  inline_of_expr : exprInlineText m = exprToInlineText (expr m);
  latex_no_caret : includes caret (exprLatex m) = false;
  inline_no_caret : includes caret (exprInlineText m) = false;
  parsed_at_start : exists parsedEnd,
    parseExpressionAt maskedText (exprStart m) = Done (expr m, parsedEnd) /\
    exprEnd m = trimTrailing maskedText (exprStart m) parsedEnd;
  starts_at_start_char :
    testO isStartChar (charAt maskedText (exprStart m)) = true;
  ends_without_space :
    testO isSpace (charAt maskedText (exprEnd m - 1)) = false;
  boundary_before : forall c,
    0 < exprStart m -> charAt maskedText (exprStart m - 1) = Some c ->
    isBoundaryChar c = true;
  boundary_after : forall c,
    charAt maskedText (exprEnd m) = Some c -> isBoundaryChar c = true
}.

(** ** The renderers *)

(** What [escapeLatex] makes of one character: the braces that the first
    replacement writes after [\textbackslash] are escaped by the second. *)
Definition escapedChar (c : char) : jsstring :=
  if N.eqb c backslash then str "\textbackslash\{\}"
  else if isLatexSpecial c then [backslash; c]
  else [c].

(** A non-negative integer literal: one ASCII digit or more. *)
Definition digitsOnly (value : jsstring) : Prop :=
  value <> [] /\ forallb isDigit value = true.

(** ** The text helpers of the extension *)

(** What [escapeHtml] makes of one character. *)
Definition htmlChar (c : char) : jsstring :=
  if N.eqb c (ch "&") then str "&amp;"
  else if N.eqb c (ch "<") then str "&lt;"
  else if N.eqb c (ch ">") then str "&gt;"
  else if N.eqb c dquote then str "&quot;"
  else if N.eqb c squote then str "&#39;"
  else [c].

(** The characters that end or open markup in HTML text and attributes. *)
Definition isHtmlMarkup (c : char) : bool :=
  N.eqb c (ch "<") || N.eqb c (ch ">") || N.eqb c dquote || N.eqb c squote.



(** ** Patterns *)

(** A character that every match of the pattern holds: it stands in a
    literal that no alternative and no quantifier lets the matcher leave
    out. *)
Fixpoint mustContain (c : char) (r : regex) : bool :=
  match r with
  | RLit s => includes c s
  | RSeq r1 r2 => mustContain c r1 || mustContain c r2
  | RAlt r1 r2 => mustContain c r1 && mustContain c r2
  | RGroup _ r1 => mustContain c r1
  | _ => false
  end.

(** ** The Loop-Summation detector *)

Definition sumSpan (m : SumMatch) : nat * nat := (sumStart m, sumEnd m).

(** What the Loop-Summation detector records in a match: a [for] with a
    header in parentheses that [parseForHeader] accepts and a body in
    braces in which [extractSummation] finds an accumulation; the match
    ends at the closing brace. *)
Record recordedSum (maskedText : jsstring) (m : SumMatch) : Prop := {
  sum_at_for : startsWith maskedText (str "for") (sumStart m) = true;
  sum_ends_at_brace : charAt maskedText (sumEnd m) = Some (ch "}");
  sum_header : exists j closeParen,
    sumStart m + 3 <= j /\
    charAt maskedText j = Some (ch "(") /\
    findMatching maskedText j (ch "(") (ch ")") = Some closeParen /\
    closeParen < sumEnd m /\
    parseForHeader (slice maskedText (j + 1) closeParen)
      = Some {| hIndexVar := indexVar m; hLower := lowerText m;
                hUpper := upperText m |};
  sum_body : exists bodyStart,
    charAt maskedText bodyStart = Some (ch "{") /\
    findMatchingBrace maskedText bodyStart = Some (sumEnd m) /\
    extractSummation (slice maskedText (bodyStart + 1) (sumEnd m))
      = Some (accumulatorText m, termText m);
  sum_no_caret :
    includes caret (termText m) = false /\
    includes caret (lowerText m) = false /\
    includes caret (upperText m) = false;
  sum_renderings : exists lowerExpr upperExpr termExpr accExpr,
    orRaw (lowerText m) (parseExpression (lowerText m)) = Done lowerExpr /\
    orRaw (upperText m) (parseExpression (upperText m)) = Done upperExpr /\
    orRaw (termText m) (parseExpression (termText m)) = Done termExpr /\
    orRaw (accumulatorText m) (parseExpression (accumulatorText m))
      = Done accExpr /\
    sumLatex m
      = exprToLatex accExpr ++ str " = " ++ str "\sum_{" ++ indexVar m
          ++ str "=" ++ exprToLatex lowerExpr ++ str "}^{"
          ++ exprToLatex upperExpr ++ str "} " ++ exprToLatex termExpr /\
    sumInlineText m
      = exprToInlineText accExpr ++ str " = " ++ [capitalSigma] ++ str "_"
          ++ indexVar m ++ str "=" ++ exprToInlineText lowerExpr
          ++ str ".." ++ exprToInlineText upperExpr ++ str " "
          ++ exprToInlineText termExpr
}.

(** The pattern has no capture group in it. *)
Fixpoint groupFree (r : regex) : bool :=
  match r with
  | RSeq r1 r2 | RAlt r1 r2 => groupFree r1 && groupFree r2
  | RStar r1 => groupFree r1
  | RGroup _ _ => false
  | _ => true
  end.

(** A number of characters that every match of the pattern takes. *)
Fixpoint minLen (r : regex) : nat :=
  match r with
  | RChar _ => 1
  | RLit s => length s
  | RSeq r1 r2 => minLen r1 + minLen r2
  | RAlt r1 r2 => Nat.min (minLen r1) (minLen r2)
  | RGroup _ r1 => minLen r1
  | _ => 0
  end.

(** ** The Division detector *)

Definition isQuote (c : char) : bool := N.eqb c dquote || N.eqb c squote.

(** What [computeLineExclusions] returns for a line: quoted ranges that
    start at a quote character, follow each other inside the line, and
    end before the comment, which starts at two slashes. *)
Record exclusionsOf (line_ : jsstring) (e : LineExclusions) : Prop := {
  quoted_in_order : inOrder 0 (quotedRanges e);
  quoted_in_line : lastEnd 0 (quotedRanges e) <= length line_;
  quoted_at_quote :
    Forall (fun r => testO isQuote (charAt line_ (fst r)) = true)
           (quotedRanges e);
  comment_at_slashes : forall c, commentStart e = Some c ->
    charAt line_ c = Some (ch "/") /\ charAt line_ (c + 1) = Some (ch "/") /\
    lastEnd 0 (quotedRanges e) <= c
}.

(** [b] does not start before [a] ends. *)
Definition follows (a b : DivisionMatch) : Prop :=
  ~ plt (rstart (divRange b)) (rend (divRange a)).

(** What the Division detector records in a match on the line [text]: a
    span of the line that starts with the numerator and ends with the
    denominator, a slash between the two; it starts outside the quoted
    ranges of the line and before its comment. *)
Record divisionOnLine (text : jsstring) (m : DivisionMatch) : Prop := {
  div_one_line : line (rend (divRange m)) = line (rstart (divRange m));
  div_parts : exists numEnd slash denStart,
    character (rstart (divRange m)) < numEnd /\ numEnd <= slash /\
    slash < denStart /\ denStart < character (rend (divRange m)) /\
    character (rend (divRange m)) <= length text /\
    charAt text slash = Some (ch "/") /\
    numerator m = slice text (character (rstart (divRange m))) numEnd /\
    denominator m = slice text denStart (character (rend (divRange m)));
  div_not_quoted :
    isInRanges (character (rstart (divRange m)))
               (quotedRanges (computeLineExclusions text)) = false;
  div_before_comment : forall c,
    commentStart (computeLineExclusions text) = Some c ->
    character (rstart (divRange m)) < c
}.

Definition recordedDivision (lines : list jsstring) (m : DivisionMatch)
  : Prop :=
  exists text,
    nth_error lines (line (rstart (divRange m))) = Some text /\
    divisionOnLine text m.

(** [m] ends no later than the offset [i] of line [n]. *)
Definition endsBy (n i : nat) (m : DivisionMatch) : Prop :=
  ~ plt {| line := n; character := i |} (rend (divRange m)).

(** The state of the Division detector at offset [i] of line [n]: the
    matches found so far are recorded matches of the document, in order,
    and end by that offset. *)
Definition divisionsFound (lines : list jsstring) (n i : nat)
  (results : list DivisionMatch) : Prop :=
  Forall (recordedDivision lines) results /\
  ForallOrdPairs follows results /\
  Forall (endsBy n i) results.

(** ** The Loop-Mapping detector *)

Definition mapSpan (m : MapMatch) : nat * nat := (mapStart m, mapEnd m).

(** What the Loop-Mapping detector records in a match: a [for] with a
    header in parentheses that [parseForHeader] accepts and a body in
    braces in which [extractMapping] finds an assignment to an element
    whose index names the loop variable; the match ends at the closing
    brace. *)
Record recordedMap (maskedText : jsstring) (m : MapMatch) : Prop := {
  map_at_for : startsWith maskedText (str "for") (mapStart m) = true;
  map_ends_at_brace : charAt maskedText (mapEnd m) = Some (ch "}");
  map_header : exists j closeParen,
    mapStart m + 3 <= j /\
    charAt maskedText j = Some (ch "(") /\
    findMatching maskedText j (ch "(") (ch ")") = Some closeParen /\
    closeParen < mapEnd m /\
    parseForHeader (slice maskedText (j + 1) closeParen)
      = Some {| hIndexVar := mapIndexVar m; hLower := mapLowerText m;
                hUpper := mapUpperText m |};
  map_body : exists bodyStart,
    charAt maskedText bodyStart = Some (ch "{") /\
    findMatchingBrace maskedText bodyStart = Some (mapEnd m) /\
    extractMapping (slice maskedText (bodyStart + 1) (mapEnd m))
                   (mapIndexVar m)
      = Some {| mArrayText := arrayText m; mIndexText := indexText m;
                mValueText := valueText m |};
  map_index_names_variable :
    wordContainsIdent (indexText m) (mapIndexVar m) = true;
  map_no_caret :
    includes caret (arrayText m) = false /\
    includes caret (indexText m) = false /\
    includes caret (valueText m) = false /\
    includes caret (mapLowerText m) = false /\
    includes caret (mapUpperText m) = false;
  map_renderings :
    exists lowerExpr upperExpr arrayExpr indexExpr valueExpr idxVarExpr,
    toExpr (mapLowerText m) = Done lowerExpr /\
    toExpr (mapUpperText m) = Done upperExpr /\
    toExpr (arrayText m) = Done arrayExpr /\
    toExpr (indexText m) = Done indexExpr /\
    toExpr (valueText m) = Done valueExpr /\
    toExpr (mapIndexVar m) = Done idxVarExpr /\
    mapLatex m
      = exprToLatex (EIndex arrayExpr indexExpr) ++ str " = "
          ++ exprToLatex valueExpr ++ str ",\quad "
          ++ exprToLatex idxVarExpr ++ str " = "
          ++ exprToLatex lowerExpr ++ str ",\ldots,"
          ++ exprToLatex upperExpr /\
    mapInlineText m
      = exprToInlineText (EIndex arrayExpr indexExpr) ++ str " = "
          ++ exprToInlineText valueExpr ++ str "  ("
          ++ mapIndexVar m ++ str "="
          ++ exprToInlineText lowerExpr ++ str ".."
          ++ exprToInlineText upperExpr ++ str ")"
}.

(** The state of the Loop-Mapping detector at offset [i]: the matches
    found so far are recorded matches, in order, and end before [i]. *)
Definition mappingsFound (maskedText : jsstring) (i : nat)
  (results : list MapMatch) : Prop :=
  Forall (recordedMap maskedText) results /\
  inOrder 0 (map mapSpan results) /\
  lastEnd 0 (map mapSpan results) <= i /\
  lastEnd 0 (map mapSpan results) <= length maskedText.

(** ** Loop headers *)



(* ================================================================== *)
(** * Argument texts *)
(* ================================================================== *)

(** An opening bracket and the bracket that closes it. *)
Inductive bracketPair : char -> char -> Prop :=
| pair_paren : bracketPair (ch "(") (ch ")")
| pair_brace : bracketPair (ch "{") (ch "}")
| pair_bracket : bracketPair (ch "[") (ch "]").

Definition isBracket (c : char) : bool :=
  isCh "(" c || isCh ")" c || isCh "{" c || isCh "}" c
  || isCh "[" c || isCh "]" c.

(** A text in which every bracket is closed by its own kind, innermost
    first; commas may stand anywhere in it. *)
Inductive enclosed : jsstring -> Prop :=
| enclosed_nil : enclosed []
| enclosed_char c s :
    isBracket c = false -> enclosed s -> enclosed (c :: s)
| enclosed_group o c inner s :
    bracketPair o c -> enclosed inner -> enclosed s ->
    enclosed (o :: inner ++ c :: s).

(** One argument of a call: a text with closed brackets in which every
    comma stands inside brackets, so that no comma of it is at the top
    level. *)
Inductive argument : jsstring -> Prop :=
| argument_nil : argument []
| argument_char c s :
    isArgPunct c = false -> argument s -> argument (c :: s)
| argument_group o c inner s :
    bracketPair o c -> enclosed inner -> argument s ->
    argument (o :: inner ++ c :: s).






(** [spans text r i j]: the pattern [r] can take the text from offset [i]
    to offset [j].  A turn of a star takes a character or more, as in the
    matcher; a pattern with a back reference spans nothing here. *)
Inductive spans (text : jsstring) : regex -> nat -> nat -> Prop :=
| spans_char p i c :
    charAt text i = Some c -> p c = true -> spans text (RChar p) i (i + 1)
| spans_lit s i :
    startsWith text s i = true -> spans text (RLit s) i (i + length s)
| spans_eps i : spans text REps i i
| spans_seq r1 r2 i j k :
    spans text r1 i j -> spans text r2 j k -> spans text (RSeq r1 r2) i k
| spans_alt_first r1 r2 i j :
    spans text r1 i j -> spans text (RAlt r1 r2) i j
| spans_alt_second r1 r2 i j :
    spans text r2 i j -> spans text (RAlt r1 r2) i j
| spans_star_none r i : spans text (RStar r) i i
| spans_star_turn r i j k :
    spans text r i j -> i < j -> spans text (RStar r) j k ->
    spans text (RStar r) i k
| spans_group n r i j : spans text r i j -> spans text (RGroup n r) i j
| spans_boundary i :
    atWordBoundary text i = true -> spans text RWordBoundary i i
| spans_begin : spans text RBegin 0 0
| spans_end : spans text REnd (length text) (length text).

(* ================================================================== *)
(** * Properties of the masker *)
(* ================================================================== *)

Section Masker.

Lemma keeps_same c : keeps c c.
Proof. split; auto. Qed.

Lemma keeps_blank c : isNewline c = false -> keeps c blank.
Proof. intros H; split; [congruence | auto]. Qed.

Lemma keeps_newline_or_blank c :
  keeps c (if isNewline c then c else blank).
Proof.
  destruct (isNewline c) eqn:E; [apply keeps_same | now apply keeps_blank].
Qed.

Lemma isCh_eq a c : isCh a c = true -> c = ch a.
Proof. apply N.eqb_eq. Qed.

Lemma isO_eq a o : isO a o = true -> o = Some (ch a).
Proof. destruct o; simpl; [intros H; apply isCh_eq in H; congruence | discriminate]. Qed.

Lemma eqO_eq k o : eqO k o = true -> o = Some k.
Proof. destruct o; simpl; [intros H; apply N.eqb_eq in H; congruence | discriminate]. Qed.

Lemma hd_error_drop1 (l : jsstring) c : hd_error l = Some c -> l = c :: drop1 l.
Proof. destruct l; simpl; congruence. Qed.

End Masker.

Ltac mask_facts :=
  repeat match goal with
  | H : _ && _ = true |- _ => apply andb_prop in H; destruct H
  | H : isCh _ _ = true |- _ => apply isCh_eq in H
  | H : isO _ _ = true |- _ => apply isO_eq in H
  | H : eqO _ _ = true |- _ => apply eqO_eq in H
  | H : N.eqb _ _ = true |- _ => apply N.eqb_eq in H
  | H : hd_error _ = Some _ |- _ => apply hd_error_drop1 in H
  end.

(** Once [text[i+1]] is known to exist, name the text after it. *)
Ltac expose_lookahead :=
  repeat match goal with
  | H : ?r = _ :: drop1 ?r |- _ =>
      let r' := fresh "r" in
      let E := fresh in
      remember (drop1 r) as r' eqn:E; clear E; subst r
  end.

Lemma maskFrom_keeps n :
  forall text state escape, length text <= n ->
    Forall2 keeps text (maskFrom state escape text).
Proof.
  induction n as [|n IH]; intros [|c0 rest] state escape Hlen;
    simpl in Hlen; try lia; try constructor.
  assert (Hrest : length rest <= n) by lia.
  assert (Hk : forall c : char, In c [ch "/"; ch "*"; dquote; squote; backslash] ->
                 keeps c blank) by
    (intros c Hc; apply keeps_blank; simpl in Hc;
     repeat (destruct Hc as [<-|Hc]; [reflexivity|]); destruct Hc).
  simpl; destruct state;
    repeat match goal with
    | |- context [if ?b then _ else _] => destruct b eqn:?
    end;
    mask_facts; subst; expose_lookahead; simpl in *.
  all: repeat (constructor; try (apply keeps_same || (apply Hk; simpl; tauto)
                                 || (apply keeps_blank; assumption))).
  all: apply IH; simpl in *; lia.
Qed.

Lemma Forall2_keeps_nth (s out : jsstring) :
  Forall2 keeps s out ->
  forall i c, nth_error s i = Some c ->
    exists d, nth_error out i = Some d /\ keeps c d.
Proof.
  induction 1 as [|c d s out Hcd _ IH]; intros [|i] c' Hi; simpl in *;
    try discriminate.
  - injection Hi as <-. eauto.
  - eauto.
Qed.

(** C2. [maskJavaNonCode] keeps the length of its input; a line break of
    the input stands unchanged at the same offset of the output; and every
    character of the output is a blank or the character of the input at
    the same offset. *)
Theorem maskJavaNonCode_preserves_layout (s : jsstring) :
  length (maskJavaNonCode s) = length s /\
  (forall i c, nth_error s i = Some c -> isNewline c = true ->
     nth_error (maskJavaNonCode s) i = Some c) /\
  (forall i d, nth_error (maskJavaNonCode s) i = Some d ->
     d = blank \/ nth_error s i = Some d).
Proof.
  pose proof (@maskFrom_keeps (length s) s normal false (le_n _)) as HF.
  fold (maskJavaNonCode s) in HF.
  pose proof (Forall2_length HF) as Hlen.
  split; [auto|split].
  - intros i c Hi Hnl.
    destruct (Forall2_keeps_nth HF _ Hi) as (d & Hd & Hk & _).
    rewrite Hd, (Hk Hnl); reflexivity.
  - intros i d Hd.
    destruct (nth_error s i) as [c|] eqn:Hi.
    + destruct (Forall2_keeps_nth HF _ Hi) as (d' & Hd' & _ & [Hb | He]);
        rewrite Hd in Hd'; injection Hd' as <-; subst; auto.
    + apply nth_error_None in Hi.
      assert (i < length (maskJavaNonCode s)) by
        (apply nth_error_Some; congruence).
      lia.
Qed.

Lemma isO_false a o : isO a o = false -> o <> Some (ch a).
Proof.
  intros H E; subst o; simpl in H. unfold isCh in H.
  now rewrite N.eqb_refl in H.
Qed.

Lemma maskFrom_clean_fixed (out : jsstring) :
  clean out -> forall escape, maskFrom normal escape out = out.
Proof.
  induction out as [|c rest IH]; intros Hc escape; [reflexivity|].
  destruct Hc as (Hq & Hs & Hsl & Hrest). simpl.
  destruct (isCh "/" c) eqn:Ec; simpl.
  - apply isCh_eq in Ec. destruct (Hsl Ec) as [H1 H2].
    destruct (isO "/" (hd_error rest)) eqn:E1;
      [apply isO_eq in E1; contradiction|].
    destruct (isO "*" (hd_error rest)) eqn:E2;
      [apply isO_eq in E2; contradiction|].
    apply N.eqb_neq in Hq, Hs. rewrite Hq, Hs. f_equal; auto.
  - apply N.eqb_neq in Hq, Hs. rewrite Hq, Hs. f_equal; auto.
Qed.

Lemma maskFrom_head state escape (text : jsstring) d :
  hd_error (maskFrom state escape text) = Some d ->
  d = blank \/ hd_error text = Some d.
Proof.
  intros H.
  pose proof (@maskFrom_keeps (length text) text state escape (le_n _)) as HF.
  destruct HF as [|c d' s out [_ Hk] _]; simpl in *; [discriminate|].
  injection H as <-. destruct Hk; subst; auto.
Qed.

Lemma blank_not_special :
  blank <> dquote /\ blank <> squote /\ blank <> ch "/" /\ blank <> ch "*".
Proof. repeat split; discriminate. Qed.

Lemma newline_not_special c :
  isNewline c = true -> c <> dquote /\ c <> squote /\ c <> ch "/".
Proof.
  unfold isNewline; intros H; apply orb_prop in H.
  destruct H as [H|H]; apply N.eqb_eq in H; subst c; repeat split; discriminate.
Qed.

Lemma clean_cons_plain c rest :
  c <> dquote -> c <> squote -> c <> ch "/" -> clean rest -> clean (c :: rest).
Proof. simpl; tauto. Qed.

Lemma maskFrom_clean n :
  forall text state escape, length text <= n ->
    clean (maskFrom state escape text).
Proof.
  induction n as [|n IH]; intros [|c0 rest] state escape Hlen;
    simpl in Hlen; try lia; try exact I.
  assert (Hrest : length rest <= n) by lia.
  destruct blank_not_special as (Hb1 & Hb2 & Hb3 & Hb4).
  simpl maskFrom; destruct state;
    repeat match goal with
    | |- context [if ?b then _ else _] => destruct b eqn:?
    end;
    mask_facts; subst; expose_lookahead; simpl length in *.
  all: repeat match goal with
       | H : isNewline _ = true |- _ =>
           apply newline_not_special in H; destruct H as (? & ? & ?)
       | |- clean (blank :: _) => apply clean_cons_plain; auto
       | |- clean (?c :: _) =>
           apply clean_cons_plain; [assumption | assumption | assumption |]
       end.
  all: try (apply IH; simpl in *; lia).
  (* the one character copied in state [normal] *)
  apply N.eqb_neq in Heqb1, Heqb2.
  simpl; split; [assumption | split; [assumption | split]].
  - intros ->; split; intros E; apply maskFrom_head in E;
      destruct E as [E|E]; try easy.
    + rewrite E in Heqb. discriminate.
    + rewrite E in Heqb0. discriminate.
  - apply IH; lia.
Qed.

(** C7. Masking the masked text changes nothing. *)
Theorem maskJavaNonCode_idempotent (s : jsstring) :
  maskJavaNonCode (maskJavaNonCode s) = maskJavaNonCode s.
Proof.
  unfold maskJavaNonCode at 1.
  apply maskFrom_clean_fixed.
  apply (@maskFrom_clean (length s)); auto.
Qed.

(* ================================================================== *)
(** * Properties of the parser entry point and of the renderers *)
(* ================================================================== *)

(** C1. A text with a circumflex in it has no parse: [parseExpression]
    answers [undefined] whatever the rest of the text is. *)
Theorem parseExpression_rejects_caret (text : jsstring) :
  In caret text -> parseExpression text = NoMatch.
Proof.
  intros Hin. unfold parseExpression, parseFuel.
  replace (8 * length text + 8) with (S (8 * length text + 7)) by lia.
  simpl parseExpressionF.
  replace (includes caret text) with true; [reflexivity|].
  symmetry; apply existsb_exists. exists caret; split; [assumption|].
  apply N.eqb_refl.
Qed.

Lemma parseExpression_rejects_caret_witness :
  In caret (str "a ^ b") /\ parseExpression (str "a ^ b") = NoMatch.
Proof.
  split.
  - simpl; tauto.
  - apply (parseExpression_rejects_caret (str "a ^ b")). simpl; tauto.
Defined.

Section Renderers.

Lemma includes_app c (a b : jsstring) :
  includes c (a ++ b) = includes c a || includes c b.
Proof. apply existsb_app. Qed.

Lemma includes_flat_map c (f : char -> jsstring) (l : jsstring) :
  includes c (flat_map f l) = existsb (fun x => includes c (f x)) l.
Proof.
  induction l as [|x l IH]; simpl; [reflexivity|].
  now rewrite includes_app, IH.
Qed.

Lemma existsb_false_weaken (p q : char -> bool) (l : jsstring) :
  (forall x, p x = false -> q x = false) ->
  existsb p l = false -> existsb q l = false.
Proof.
  intros Hpq; induction l as [|x l IH]; simpl; [reflexivity|].
  intros H; apply orb_false_iff in H; destruct H as [Hx Hl].
  now rewrite (Hpq _ Hx), IH.
Qed.

Lemma escapeLatex_no_caret (s : jsstring) :
  includes caret s = false -> includes caret (escapeLatex s) = false.
Proof.
  intros H. unfold escapeLatex. rewrite includes_flat_map.
  assert (H1 : includes caret
            (flat_map (fun c => if N.eqb c backslash
                                then str "\textbackslash{}" else [c]) s)
          = false).
  { rewrite includes_flat_map.
    revert H; apply existsb_false_weaken; intros x Hx.
    destruct (N.eqb x backslash); [reflexivity|].
    unfold includes; cbn [existsb]; now rewrite Hx. }
  revert H1; apply existsb_false_weaken; intros x Hx.
  destruct (isLatexSpecial x); unfold includes; cbn [existsb];
    now rewrite Hx.
Qed.

Lemma flat_map_nonempty (f : char -> jsstring) (l : jsstring) :
  (forall x, f x <> []) -> l <> [] -> flat_map f l <> [].
Proof.
  intros Hf Hl; destruct l as [|x l]; [congruence|]; simpl.
  specialize (Hf x). destruct (f x); [congruence | discriminate].
Qed.

Lemma escapeLatex_nonempty (s : jsstring) : s <> [] -> escapeLatex s <> [].
Proof.
  intros H; unfold escapeLatex.
  apply flat_map_nonempty; [intros x; destruct (isLatexSpecial x); discriminate|].
  apply flat_map_nonempty; [|assumption].
  intros x; destruct (N.eqb x backslash); discriminate.
Qed.

Lemma app_nonempty_l (a b : jsstring) : a <> [] -> a ++ b <> [].
Proof. destruct a; simpl; [congruence | discriminate]. Qed.

Lemma latexWrapped_no_caret latex e p :
  includes caret latex = false ->
  includes caret (latexWrapped latex e p) = false.
Proof.
  intros H; unfold latexWrapped; destruct (precOf e <? p); [|assumption].
  rewrite !includes_app, H; reflexivity.
Qed.

Lemma latexWrapped_nonempty latex e p :
  latex <> [] -> latexWrapped latex e p <> [].
Proof.
  intros H; unfold latexWrapped; destruct (precOf e <? p); [|assumption].
  discriminate.
Qed.

End Renderers.

(** C9, as stated, fails: the renderers copy a leaf text, so a leaf with a
    circumflex is rendered with it (the typeset form escapes it, and still
    holds it), and an empty leaf is rendered as the empty string. *)
Lemma renderers_leaf_counterexample :
  plainTree (fun _ => True) (EIdent (str "^")) /\
  includes caret (exprToInlineText (EIdent (str "^"))) = true /\
  includes caret (exprToLatex (EIdent (str "^"))) = true /\
  plainTree (fun _ => True) (ENumber []) /\
  exprToInlineText (ENumber []) = [] /\
  exprToLatex (ENumber []) = [].
Proof.
  repeat split; constructor; exact I.
Qed.

(** C9, amended.  For a tree built from [Number], [Identifier] and [Binary]
    nodes whose leaf texts are not empty and have no circumflex, both
    renderers give a string that is not empty and has no circumflex. *)
Theorem renderers_plain_tree_no_caret (e : Expr) :
  plainTree leafText e -> rendersWithoutCaret e.
Proof.
  unfold rendersWithoutCaret.
  induction 1 as [v [Hne Hc] | n [Hne Hc]
                 | op l r _ (Il1 & Il2 & Il3 & Il4) _ (Ir1 & Ir2 & Ir3 & Ir4)].
  - simpl; auto using escapeLatex_no_caret, escapeLatex_nonempty.
  - simpl; auto using escapeLatex_no_caret, escapeLatex_nonempty.
  - split; [simpl; now apply app_nonempty_l|].
    split; [cbn [exprToInlineText]; rewrite !includes_app, Il2, Ir2;
            now destruct op|].
    split.
    + destruct op; simpl; try discriminate;
        apply app_nonempty_l, latexWrapped_nonempty; assumption.
    + destruct op; cbn [exprToLatex];
        rewrite !includes_app;
        rewrite ?latexWrapped_no_caret by assumption;
        rewrite ?Il4, ?Ir4; reflexivity.
Qed.

Lemma renderers_plain_tree_no_caret_witness :
  rendersWithoutCaret
    (EBinary Divide (ENumber (str "3"))
       (EBinary Times (EIdent (str "x")) (EIdent (str "y")))).
Proof.
  apply renderers_plain_tree_no_caret.
  repeat constructor; discriminate.
Defined.

(* ================================================================== *)
(** * Properties of the overlap resolver *)
(* ================================================================== *)

Module Resolver.

Lemma position_eq (p q : Position) :
  line p = line q -> character p = character q -> p = q.
Proof. destruct p, q; simpl; congruence. Qed.

Lemma isBefore_iff p q : isBefore p q = true <-> plt p q.
Proof.
  unfold isBefore, plt.
  rewrite orb_true_iff, andb_true_iff, !Nat.ltb_lt, Nat.eqb_eq. reflexivity.
Qed.

Lemma isBefore_false_iff p q : isBefore p q = false <-> ~ plt p q.
Proof.
  rewrite <- isBefore_iff. destruct (isBefore p q); split; congruence.
Qed.

Lemma plt_total p q : plt p q \/ p = q \/ plt q p.
Proof.
  unfold plt.
  destruct (Nat.lt_total (line p) (line q)) as [H|[H|H]]; auto.
  destruct (Nat.lt_total (character p) (character q)) as [G|[G|G]]; auto.
  right; left; now apply position_eq.
Qed.

Lemma plt_trans p q r : plt p q -> plt q r -> plt p r.
Proof. unfold plt; lia. Qed.

Lemma plt_irrefl p : ~ plt p p.
Proof. unfold plt; lia. Qed.

Lemma plt_nplt_trans p q r : plt p q -> ~ plt r q -> plt p r.
Proof.
  intros H G. destruct (plt_total q r) as [T|[->|T]];
    [now apply plt_trans with q | exact H | contradiction].
Qed.

Lemma nplt_plt_trans p q r : ~ plt q p -> plt q r -> plt p r.
Proof.
  intros H G. destruct (plt_total p q) as [T|[->|T]];
    [now apply plt_trans with q | exact G | contradiction].
Qed.

Lemma plt_posMin_posMax e1 e2 s1 s2 :
  plt (posMin e1 e2) (posMax s1 s2) <->
  plt e1 s1 \/ plt e1 s2 \/ plt e2 s1 \/ plt e2 s2.
Proof.
  unfold posMin, posMax.
  destruct (isBefore e2 e1) eqn:He; destruct (isBefore s1 s2) eqn:Hs;
    (apply isBefore_iff in He || apply isBefore_false_iff in He);
    (apply isBefore_iff in Hs || apply isBefore_false_iff in Hs);
    cbv iota; unfold plt in *; lia.
Qed.

Lemma intersection_None a b :
  intersection a b = None <->
  plt (rend b) (rstart b) \/ plt (rend b) (rstart a) \/
  plt (rend a) (rstart b) \/ plt (rend a) (rstart a).
Proof.
  unfold intersection, isAfter. rewrite <- plt_posMin_posMax, <- isBefore_iff.
  destruct (isBefore (posMin (rend b) (rend a))
                     (posMax (rstart b) (rstart a)));
    split; congruence.
Qed.

Lemma position_eq_iff (l1 c1 l2 c2 : nat) :
  {| line := l1; character := c1 |} = {| line := l2; character := c2 |}
  <-> l1 = l2 /\ c1 = c2.
Proof. split; [intros H; injection H; auto | intros [-> ->]; reflexivity]. Qed.

Lemma leq_iff (a b : AnyMatch) :
  matchLeq a b <->
  plt (rstart (rangeOf a)) (rstart (rangeOf b)) \/
  (rstart (rangeOf a) = rstart (rangeOf b) /\
   ~ plt (rend (rangeOf a)) (rend (rangeOf b))).
Proof.
  unfold matchLeq, compareMatches, plt.
  destruct (rangeOf a) as [[la ca] [ma da]], (rangeOf b) as [[lb cb] [mb db]].
  cbn [rstart rend line character]. rewrite position_eq_iff.
  destruct (Nat.eqb_spec la lb), (Nat.eqb_spec ca cb), (Nat.eqb_spec ma mb);
    cbn [negb]; lia.
Qed.

Lemma leq_prefers (a b : AnyMatch) : matchLeq a b <-> prefers a b.
Proof.
  rewrite leq_iff. unfold prefers, isBeforeOrEqual.
  rewrite isBefore_iff, negb_true_iff, isBefore_false_iff. reflexivity.
Qed.

Lemma leq_trans (a b c : AnyMatch) :
  matchLeq a b -> matchLeq b c -> matchLeq a c.
Proof.
  rewrite !leq_iff. intros [H|[H H']] [G|[G G']].
  - left; now apply plt_trans with (rstart (rangeOf b)).
  - left; now rewrite <- G.
  - left; now rewrite H.
  - right; split; [congruence|].
    intros T. apply G'. now apply nplt_plt_trans with (rend (rangeOf a)).
Qed.

Lemma leq_total (a b : AnyMatch) : matchLeq a b \/ matchLeq b a.
Proof.
  rewrite !leq_iff.
  destruct (plt_total (rstart (rangeOf a)) (rstart (rangeOf b)))
    as [H|[H|H]]; auto.
  destruct (plt_total (rend (rangeOf a)) (rend (rangeOf b))) as [G|[G|G]].
  - right; right; split; [auto|]. intros T; apply (@plt_irrefl (rend (rangeOf a))).
    now apply plt_trans with (rend (rangeOf b)).
  - left; right; split; [auto|]. rewrite G; apply plt_irrefl.
  - left; right; split; [auto|]. intros T; apply (@plt_irrefl (rend (rangeOf a))).
    now apply plt_trans with (rend (rangeOf b)).
Qed.

(** ** The sort *)

Lemma insertSorted_perm x l :
  Permutation (insertSorted compareMatches x l) (x :: l).
Proof.
  induction l as [|y l IH]; simpl; [reflexivity|].
  destruct (compareMatches x y <=? 0)%Z; [reflexivity|].
  rewrite IH. apply perm_swap.
Qed.

Lemma sort_perm l : Permutation (sort compareMatches l) l.
Proof.
  induction l as [|x l IH]; simpl; [reflexivity|].
  rewrite insertSorted_perm. now constructor.
Qed.

Lemma insertSorted_sorted x l :
  StronglySorted matchLeq l -> StronglySorted matchLeq (insertSorted compareMatches x l).
Proof.
  induction 1 as [|y l Hs IH Hy]; simpl.
  - repeat constructor.
  - destruct (Z.leb_spec (compareMatches x y) 0) as [Hxy | Hxy].
    + constructor; [now constructor|].
      constructor; [exact Hxy|].
      eapply Forall_impl; [|exact Hy]. intros z; now apply leq_trans.
    + constructor; [exact IH|].
      eapply Permutation_Forall; [symmetry; apply insertSorted_perm|].
      constructor; [|exact Hy].
      destruct (leq_total y x) as [H|H]; [exact H | unfold matchLeq in H; lia].
Qed.

Lemma sort_sorted l : StronglySorted matchLeq (sort compareMatches l).
Proof.
  induction l as [|x l IH]; simpl; [constructor | now apply insertSorted_sorted].
Qed.

(** ** The greedy pass *)

Lemma intersection_sym (a b : Range) :
  intersection a b = None -> intersection b a = None.
Proof. rewrite !intersection_None. tauto. Qed.

(** Two ranges have no intersection exactly when no position lies in
    both. *)
Lemma intersection_None_iff (a b : Range) :
  intersection a b = None <-> forall p, ~ (within p a /\ within p b).
Proof.
  unfold within, isBeforeOrEqual. split.
  - rewrite intersection_None. intros H p [[H1 H2] [H3 H4]].
    rewrite negb_true_iff, isBefore_false_iff in H1, H2, H3, H4.
    destruct H as [H|[H|[H|H]]].
    + apply H4. now apply plt_nplt_trans with (rstart b).
    + apply H4. now apply plt_nplt_trans with (rstart a).
    + apply H2. now apply plt_nplt_trans with (rstart b).
    + apply H2. now apply plt_nplt_trans with (rstart a).
  - intros H. unfold intersection, isAfter.
    destruct (isBefore (posMin (rend b) (rend a))
                       (posMax (rstart b) (rstart a))) eqn:E;
      [reflexivity | exfalso].
    apply isBefore_false_iff in E.
    rewrite plt_posMin_posMax in E.
    apply (H (posMax (rstart b) (rstart a))).
    rewrite !negb_true_iff, !isBefore_false_iff.
    unfold posMax.
    destruct (isBefore (rstart b) (rstart a)) eqn:Hs;
      (apply isBefore_iff in Hs || apply isBefore_false_iff in Hs);
      repeat split; try tauto; try apply plt_irrefl.
    intros T. apply (@plt_irrefl (rstart a)).
    now apply plt_trans with (rstart b).
Qed.

Lemma overlapsKept_false kept c :
  overlapsKept kept c = false <->
  Forall (fun k => intersection (rangeOf k) (rangeOf c) = None) kept.
Proof.
  unfold overlapsKept. induction kept as [|k kept IH]; simpl.
  - split; auto.
  - rewrite orb_false_iff, IH. split.
    + intros [Hk Hr]; constructor; [|exact Hr].
      destruct (intersection (rangeOf k) (rangeOf c)); [|reflexivity].
      destruct (contains (rangeOf k) (rangeOf c)); discriminate.
    + intros H; inversion H as [|? ? Hk Hr]; subst. rewrite Hk; auto.
Qed.

Lemma overlapsKept_true kept c :
  overlapsKept kept c = true -> exists k, In k kept /\ overlap k c.
Proof.
  unfold overlapsKept; intros H; apply existsb_exists in H.
  destruct H as (k & Hin & Hk). exists k; split; [exact Hin|].
  unfold overlap; destruct (intersection (rangeOf k) (rangeOf c));
    [discriminate | discriminate].
Qed.

Lemma pickFrom_keeps kept items m :
  In m kept -> In m (pickFrom kept items).
Proof.
  revert kept; induction items as [|c rest IH]; intros kept H; simpl;
    [exact H|].
  destruct (overlapsKept kept c); apply IH; [exact H|].
  apply in_or_app; now left.
Qed.

Lemma pickFrom_incl kept items m :
  In m (pickFrom kept items) -> In m kept \/ In m items.
Proof.
  revert kept; induction items as [|c rest IH]; intros kept H; simpl in *;
    [now left|].
  destruct (overlapsKept kept c).
  - destruct (IH _ H); auto.
  - destruct (IH _ H) as [H1|H1]; [|auto].
    apply in_app_or in H1; destruct H1 as [H1|[<-|[]]]; auto.
Qed.

Lemma ForallOrdPairs_snoc (R : AnyMatch -> AnyMatch -> Prop) l x :
  ForallOrdPairs R l -> Forall (fun k => R k x) l ->
  ForallOrdPairs R (l ++ [x]).
Proof.
  induction 1 as [|a l Ha Hl IH]; intros Hx; simpl.
  - repeat constructor.
  - inversion Hx as [|? ? Hax Hlx]; subst.
    constructor; [|now apply IH].
    apply Forall_app; split; [exact Ha | now constructor].
Qed.

Lemma pickFrom_apart kept items :
  ForallOrdPairs apart kept -> ForallOrdPairs apart (pickFrom kept items).
Proof.
  revert kept; induction items as [|c rest IH]; intros kept Hk; simpl;
    [exact Hk|].
  destruct (overlapsKept kept c) eqn:E; apply IH; [exact Hk|].
  apply ForallOrdPairs_snoc; [exact Hk|].
  apply overlapsKept_false in E.
  eapply Forall_impl; [|exact E].
  intros k Hkc; split; [exact Hkc | now apply intersection_sym].
Qed.

Lemma pickFrom_prefers kept items :
  StronglySorted matchLeq items ->
  (forall k m, In k kept -> In m items -> matchLeq k m) ->
  forall m, In m items ->
    In m (pickFrom kept items) \/
    exists k, In k (pickFrom kept items) /\ prefers k m /\ overlap k m.
Proof.
  intros Hs; revert kept.
  induction Hs as [|c rest Hs IH Hc]; intros kept Hinv m Hm; [destruct Hm|].
  simpl. destruct (overlapsKept kept c) eqn:E.
  - destruct Hm as [<-|Hm].
    + right. apply overlapsKept_true in E. destruct E as (k & Hk & Hov).
      exists k; split; [now apply pickFrom_keeps|].
      split; [apply leq_prefers, Hinv; simpl; auto | exact Hov].
    + apply IH; [|exact Hm]. intros k m' Hk Hm'; apply Hinv; simpl; auto.
  - destruct Hm as [<-|Hm].
    + left. apply pickFrom_keeps, in_or_app; right; simpl; auto.
    + apply IH; [|exact Hm]. intros k m' Hk Hm'.
      apply in_app_or in Hk; destruct Hk as [Hk|[<-|[]]].
      * apply Hinv; simpl; auto.
      * rewrite Forall_forall in Hc. now apply Hc.
Qed.

End Resolver.

(** C3. The matches kept by [pickLargestNonOverlapping] are matches of the
    input, unchanged; no two of them intersect; every match of the input is
    kept or overlaps a kept match that starts earlier, or at the same
    position and is at least as long; and of the ranges [0,10), [2,6) and
    [12,20) the first and the last are kept. *)
Theorem pickLargestNonOverlapping_keeps_outer (matches : list AnyMatch) :
  let kept := pickLargestNonOverlapping matches in
  (forall m, In m kept -> In m matches) /\
  ForallOrdPairs apart kept /\
  (forall m, In m matches ->
     In m kept \/
     exists k, In k kept /\ prefers k m /\ overlap k m) /\
  pickLargestNonOverlapping
    [ MExpr (span 0 10) [] [];
      MDivision (span 2 6) [] [];
      MPow (span 12 20) [] [] ]
  = [ MExpr (span 0 10) [] []; MPow (span 12 20) [] [] ].
Proof.
  unfold pickLargestNonOverlapping; cbv zeta.
  split; [|split; [|split]].
  - intros m Hm. apply Resolver.pickFrom_incl in Hm.
    destruct Hm as [[]|Hm].
    eapply Permutation_in; [apply Resolver.sort_perm | exact Hm].
  - apply Resolver.pickFrom_apart. constructor.
  - intros m Hm.
    apply Resolver.pickFrom_prefers.
    + apply Resolver.sort_sorted.
    + intros k m' [].
    + eapply Permutation_in; [symmetry; apply Resolver.sort_perm | exact Hm].
  - reflexivity.
Qed.

(* ================================================================== *)
(** * The detectors on the examples of the specification *)
(* ================================================================== *)

(** C8. On the line [auto x = 3/4*Math.pow(9,2)] the Power-Call detector
    finds one call, with base [9], exponent [2] and typeset form
    [{9}^{2}]. *)
Theorem findPowCalls_example :
  let text := str "auto x = 3/4*Math.pow(9,2)" in
  findPowCalls text (maskJavaNonCode text) =
  Done [ {| powStart := 13; powEnd := 26;
            calleeText := str "Math.pow";
            baseText := str "9"; expText := str "2";
            baseExpr := ENumber (str "9"); expExpr := ENumber (str "2");
            powLatex := str "{9}^{2}";
            powInlineText := str "9" ++ [178%N] |} ].
Proof. vm_compute. reflexivity. Qed.

(** On [Math.pow(a, b, c)] the Power-Call detector reports a call with
    base [a] and exponent [b, c]. *)
Example findPowCalls_extra_argument_example :
  let text := str "Math.pow(a, b, c)" in
  splitTwoArgs (maskJavaNonCode text) 9 16 = Some (str "a", str "b, c") /\
  findPowCalls text (maskJavaNonCode text) =
  Done [ {| powStart := 0; powEnd := 17;
            calleeText := str "Math.pow";
            baseText := str "a"; expText := str "b, c";
            baseExpr := EIdent (str "a"); expExpr := ERaw (str "b, c");
            powLatex := str "{a}^{\text{b, c}}";
            powInlineText := str "a^(b, c)" |} ].
Proof. split; vm_compute; reflexivity. Qed.

(** C5. On [for (int i = 0; i < n; i++) { sum += i * i; }] the
    Loop-Summation detector finds one summation, with index [i], lower
    bound [0], upper bound [n - 1], accumulator [sum] and term [i * i]. *)
Theorem findForLoopSummations_example :
  let text := str "for (int i = 0; i < n; i++) { sum += i * i; }" in
  findForLoopSummations (maskJavaNonCode text) =
  Done [ {| sumStart := 0; sumEnd := 44;
            indexVar := str "i";
            lowerText := str "0"; upperText := str "n - 1";
            accumulatorText := str "sum"; termText := str "i * i";
            sumLatex := str "sum = \sum_{i=0}^{n - 1} i \cdot i";
            sumInlineText :=
              str "sum = " ++ [capitalSigma] ++ str "_i=0..n-1 i"
                ++ [middleDot] ++ str "i" |} ].
Proof. vm_compute. reflexivity. Qed.

(** C4, the descending loop: [for (i = n; i > 0; i--) { sum += i; }] gives
    no summation. *)
Lemma findForLoopSummations_descending :
  let text := str "for (i = n; i > 0; i--) { sum += i; }" in
  parseForHeader (str "i = n; i > 0; i--") = None /\
  findForLoopSummations (maskJavaNonCode text) = Done [].
Proof. split; vm_compute; reflexivity. Qed.

(** C4, where the code departs from it: the pattern for the update clause
    is searched anywhere in the clause, so an update that only starts like
    a unit step is taken for one.  The loop
    [for (int i = 0; i < n; i += 10) { sum += i; }] is reported as the sum
    of [i] for [i] from [0] to [n - 1]. *)
Theorem findForLoopSummations_step_ten :
  let text := str "for (int i = 0; i < n; i += 10) { sum += i; }" in
  test (updateRe (str "i")) (str "i += 10") = true /\
  parseForHeader (str "int i = 0; i < n; i += 10") =
    Some {| hIndexVar := str "i"; hLower := str "0"; hUpper := str "n - 1" |} /\
  findForLoopSummations (maskJavaNonCode text) =
  Done [ {| sumStart := 0; sumEnd := 44;
            indexVar := str "i";
            lowerText := str "0"; upperText := str "n - 1";
            accumulatorText := str "sum"; termText := str "i";
            sumLatex := str "sum = \sum_{i=0}^{n - 1} i";
            sumInlineText :=
              str "sum = " ++ [capitalSigma] ++ str "_i=0..n-1 i" |} ].
Proof. repeat split; vm_compute; reflexivity. Qed.

(* ================================================================== *)
(** * The parser always answers *)
(* ================================================================== *)

Section ParserHelpers.

Lemma charAt_lt (text : jsstring) i c : charAt text i = Some c -> i < length text.
Proof. intros H; apply nth_error_Some; unfold charAt in H; congruence. Qed.

Lemma skipWsFrom_ge suffix i : i <= skipWsFrom suffix i.
Proof.
  revert i; induction suffix as [|c r IH]; intros i; simpl; [lia|].
  destruct (isSpace c); [specialize (IH (S i)); lia | lia].
Qed.

Lemma skipWs_ge text i : i <= skipWs text i.
Proof. apply skipWsFrom_ge. Qed.

Lemma dottedSegments_ge turns text name j :
  j <= snd (dottedSegments turns text name j).
Proof.
  revert name j; induction turns as [|t IH]; intros name j; simpl; [lia|].
  destruct (isO "." (charAt text (skipWs text j))); simpl; [|lia].
  destruct (testO isIdentStart
              (charAt text (skipWs text (skipWs text j + 1)))); simpl; [|lia].
  match goal with |- _ <= snd (dottedSegments _ _ ?n ?k) =>
    specialize (IH n k) end.
  pose proof (skipWs_ge text j).
  pose proof (skipWs_ge text (skipWs text j + 1)). lia.
Qed.

Lemma parseQualifiedIdent_ge text i name j :
  parseQualifiedIdent text i = Some (name, j) -> i <= j.
Proof.
  unfold parseQualifiedIdent.
  destruct (testO isIdentStart (charAt text i)); simpl; [|discriminate].
  intros H; injection H as H.
  match type of H with dottedSegments ?t _ ?n ?k = _ =>
    pose proof (dottedSegments_ge t text n k) as G end.
  rewrite H in G; simpl in G. lia.
Qed.

Lemma parseNumber_ge text i value j :
  parseNumber text i = Some (value, j) -> i <= j.
Proof.
  unfold parseNumber.
  destruct (testO isDigit (charAt text i)); simpl; [|discriminate].
  match goal with |- context [if ?b then _ else _] => destruct b end;
    intros H; injection H as _ H; lia.
Qed.

Lemma findMatchingFrom_bounds suffix i depth o c close :
  findMatchingFrom suffix i depth o c = Some close ->
  i <= close < i + length suffix.
Proof.
  revert i depth; induction suffix as [|x r IH]; intros i depth; simpl;
    [discriminate|].
  destruct (N.eqb x o).
  - intros H; apply IH in H; lia.
  - destruct (N.eqb x c).
    + destruct (Z.eqb (depth - 1) 0).
      * intros H; injection H as <-; lia.
      * intros H; apply IH in H; lia.
    + intros H; apply IH in H; lia.
Qed.

Lemma findMatching_bounds text i o c close :
  findMatching text i o c = Some close -> i <= close < length text.
Proof.
  unfold findMatching; intros H.
  apply findMatchingFrom_bounds in H.
  rewrite length_skipn in H.
  destruct (Nat.le_gt_cases i (length text)); lia.
Qed.

Lemma trimStart_length s : length (trimStart s) <= length s.
Proof.
  induction s as [|c r IH]; simpl; [lia|].
  destruct (isSpace c); simpl; lia.
Qed.

Lemma trim_length s : length (trim s) <= length s.
Proof.
  unfold trim, trimEnd. rewrite length_rev.
  pose proof (trimStart_length (rev (trimStart s))) as H.
  rewrite length_rev in H. pose proof (trimStart_length s). lia.
Qed.

Lemma slice_length text a b : length (slice text a b) <= b - a.
Proof. unfold slice. rewrite length_firstn. lia. Qed.

Lemma slice_length_text text a b : length (slice text a b) <= length text.
Proof.
  unfold slice. rewrite length_firstn, length_skipn. lia.
Qed.

Lemma pushPart_short n args argsText start i :
  Forall (fun p => length p <= n) args -> length argsText <= n ->
  Forall (fun p => length p <= n) (pushPart args argsText start i).
Proof.
  intros Ha Hn; unfold pushPart.
  destruct (trim (slice argsText start i)) as [|c r] eqn:E; [exact Ha|].
  apply Forall_app; split; [exact Ha|]. constructor; [|constructor].
  rewrite <- E.
  pose proof (trim_length (slice argsText start i)).
  pose proof (slice_length_text argsText start i). lia.
Qed.

Lemma splitArgsFrom_short n argsText suffix i start d args :
  Forall (fun p => length p <= n) args -> length argsText <= n ->
  Forall (fun p => length p <= n)
         (splitArgsFrom argsText suffix i start d args).
Proof.
  revert i start d args; induction suffix as [|c r IH];
    intros i start d args Ha Hn; simpl.
  - now apply pushPart_short.
  - destruct (isCh "," c && topLevel (stepDepths c d)); apply IH; auto.
    now apply pushPart_short.
Qed.

Lemma splitArgsText_short argsText :
  Forall (fun p => length p <= length argsText) (splitArgsText argsText).
Proof. apply splitArgsFrom_short; auto. Qed.

Lemma collect_answers (rs : list (outcome Expr)) :
  Forall (fun r => r <> OutOfFuel) rs -> collect rs <> OutOfFuel.
Proof.
  induction 1 as [|r rs Hr _ IH]; simpl; [discriminate|].
  destruct r; [|destruct (collect rs); congruence | congruence].
  destruct (collect rs); congruence.
Qed.

Lemma orRaw_answers p r : r <> OutOfFuel -> orRaw p r <> OutOfFuel.
Proof. destruct r; simpl; congruence. Qed.

End ParserHelpers.

Ltac break_in H :=
  repeat match type of H with
  | context [match ?x with _ => _ end] => destruct x eqn:?; try discriminate
  | context [if ?b then _ else _] => destruct b eqn:?; try discriminate
  end.

Ltac name_skips :=
  repeat match goal with
  | H : context [skipWs ?t ?i] |- _ =>
      let x := fresh "w" in
      pose proof (skipWs_ge t i); set (x := skipWs t i) in *; clearbody x
  | |- context [skipWs ?t ?i] =>
      let x := fresh "w" in
      pose proof (skipWs_ge t i); set (x := skipWs t i) in *; clearbody x
  end.

Ltac lexical_facts :=
  repeat match goal with
  | H : parseNumber _ _ = Some (_, _) |- _ => apply parseNumber_ge in H
  | H : parseQualifiedIdent _ _ = Some (_, _) |- _ =>
      apply parseQualifiedIdent_ge in H
  | H : findMatching _ _ _ _ = Some _ |- _ => apply findMatching_bounds in H
  | H : charAt _ _ = Some _ |- _ => apply charAt_lt in H
  end.

Ltac advance_facts :=
  repeat match goal with
  | A : advances ?f, G : ?f _ = Done (_, _) |- _ => apply A in G
  | A : forall x, advances (?f x), G : ?f _ _ = Done (_, _) |- _ =>
      apply A in G
  end.

Ltac break_guards :=
  repeat match goal with
  | H : (if ?b then _ else None) = Some _ |- _ =>
      destruct b eqn:?; try discriminate
  end.

Ltac advance_step H :=
  simpl in H; break_in H; try (injection H as <- <-); subst; break_guards;
  advance_facts; lexical_facts; name_skips; try lia.

Lemma parser_advances fuel : forall text,
  advances (parseAdd fuel text) /\
  (forall l, advances (parseAddLoop fuel text l)) /\
  advances (parseMul fuel text) /\
  (forall l, advances (parseMulLoop fuel text l)) /\
  advances (parseUnary fuel text) /\
  advances (parsePrimary fuel text) /\
  (forall e0, advances (parsePostfix fuel text e0)).
Proof.
  induction fuel as [|fuel IH]; intros text.
  - repeat split; intros; intros ? ? ? H; discriminate H.
  - destruct (IH text) as (A & AL & M & ML & U & P & PF).
    unfold advances; repeat split; intros;
      match goal with H : _ = Done (_, _) |- _ => advance_step H end.
Qed.

Lemma answers_Done {A : Type} (a : A) : answers (Done a).
Proof. discriminate. Qed.

Lemma answers_NoMatch {A : Type} : answers (@NoMatch A).
Proof. discriminate. Qed.

Lemma option_map_Some_lt {B : Type} (f : char -> option B) text i b :
  option_map f (charAt text i) = Some b -> i < length text.
Proof.
  destruct (charAt text i) eqn:E; simpl; [|discriminate].
  intros _; now apply charAt_lt in E.
Qed.

Lemma isO_lt a text i : isO a (charAt text i) = true -> i < length text.
Proof.
  destruct (charAt text i) eqn:E; simpl; [|discriminate].
  intros _; now apply charAt_lt in E.
Qed.

Lemma startsWith_new_lt text i :
  startsWith text (str "new") i = true -> i + 3 <= length text.
Proof.
  unfold startsWith. intros H.
  assert (3 <= length (skipn i text)).
  { destruct (skipn i text) as [|a [|b [|c r]]]; simpl in *;
      rewrite ?andb_false_r in H; try discriminate; lia. }
  rewrite length_skipn in *. lia.
Qed.

(** The argument texts of a call are shorter than what is left of the
    text at the opening bracket, so the bound left for them is enough. *)
Lemma arguments_answer fuel text w close :
  (forall p, 8 * length p + 8 <= fuel -> answers (parseExpressionF fuel p)) ->
  w < length text -> close < length text ->
  8 * (length text - w) <= fuel ->
  answers (collect (map (fun p => orRaw p (parseExpressionF fuel p))
                        (splitArgsText (slice text (w + 1) close)))).
Proof.
  intros IH Hw Hc Hf. apply collect_answers, Forall_map.
  eapply Forall_impl; [|apply splitArgsText_short].
  intros p Hp; cbv beta in Hp; apply orRaw_answers, IH.
  pose proof (slice_length text (w + 1) close). lia.
Qed.

Lemma index_answers fuel text w close :
  (forall p, 8 * length p + 8 <= fuel -> answers (parseExpressionF fuel p)) ->
  w < length text -> close < length text ->
  8 * (length text - w) <= fuel ->
  answers (orRaw (trim (slice text (w + 1) close))
                 (parseExpressionF fuel (trim (slice text (w + 1) close)))).
Proof.
  intros IH Hw Hc Hf. apply orRaw_answers, IH.
  pose proof (slice_length text (w + 1) close).
  pose proof (trim_length (slice text (w + 1) close)). lia.
Qed.

Ltac break_goal :=
  repeat match goal with
  | |- answers (match ?x with _ => _ end) => destruct x eqn:?
  | |- answers (if ?b then _ else _) => destruct b eqn:?
  | |- answers (Done _) => apply answers_Done
  | |- answers NoMatch => apply answers_NoMatch
  end.

Ltac more_facts :=
  break_guards;
  repeat match goal with
  | H : option_map _ (charAt _ _) = Some _ |- _ => apply option_map_Some_lt in H
  | H : isO _ (charAt _ _) = true |- _ => apply isO_lt in H
  | H : _ && _ = true |- _ => apply andb_prop in H; destruct H
  | H : startsWith _ (str "new") _ = true |- _ => apply startsWith_new_lt in H
  end.

Lemma parser_fuel_enough fuel : forall text,
  (8 * length text + 8 <= fuel -> answers (parseExpressionF fuel text)) /\
  (forall i, 8 * (length text - i) + 7 <= fuel ->
     answers (parseAdd fuel text i)) /\
  (forall l i, 8 * (length text - i) + 6 <= fuel ->
     answers (parseAddLoop fuel text l i)) /\
  (forall i, 8 * (length text - i) + 5 <= fuel ->
     answers (parseMul fuel text i)) /\
  (forall l i, 8 * (length text - i) + 4 <= fuel ->
     answers (parseMulLoop fuel text l i)) /\
  (forall i, 8 * (length text - i) + 3 <= fuel ->
     answers (parseUnary fuel text i)) /\
  (forall i, 8 * (length text - i) + 2 <= fuel ->
     answers (parsePrimary fuel text i)) /\
  (forall e0 i, 8 * (length text - i) + 1 <= fuel ->
     answers (parsePostfix fuel text e0 i)).
Proof.
  induction fuel as [|fuel IH]; intros text.
  - repeat split; intros; lia.
  - assert (E : forall p, 8 * length p + 8 <= fuel ->
                          answers (parseExpressionF fuel p))
      by (intros p; apply (IH p)).
    destruct (IH text) as (_ & A & AL & M & ML & U & P & PF).
    destruct (parser_advances fuel text) as (A' & AL' & M' & ML' & U' & P' & PF').
    repeat split; intros; simpl; break_goal.
    all: more_facts; advance_facts; lexical_facts.
    all: try match goal with
      | H : parseAdd _ _ ?j = OutOfFuel |- _ =>
          exfalso; apply (A j); [|exact H]
      | H : parseAddLoop _ _ ?l ?j = OutOfFuel |- _ =>
          exfalso; apply (AL l j); [|exact H]
      | H : parseMul _ _ ?j = OutOfFuel |- _ =>
          exfalso; apply (M j); [|exact H]
      | H : parseMulLoop _ _ ?l ?j = OutOfFuel |- _ =>
          exfalso; apply (ML l j); [|exact H]
      | H : parseUnary _ _ ?j = OutOfFuel |- _ =>
          exfalso; apply (U j); [|exact H]
      | H : parsePrimary _ _ ?j = OutOfFuel |- _ =>
          exfalso; apply (P j); [|exact H]
      | H : parsePostfix _ _ ?l ?j = OutOfFuel |- _ =>
          exfalso; apply (PF l j); [|exact H]
      | H : collect _ = OutOfFuel |- _ =>
          exfalso; revert H; apply arguments_answer; [exact E| | |]
      | H : orRaw _ _ = OutOfFuel |- _ =>
          exfalso; revert H; apply index_answers; [exact E| | |]
      | |- answers (parseAdd _ _ _) => apply A
      | |- answers (parseAddLoop _ _ _ _) => apply AL
      | |- answers (parseMul _ _ _) => apply M
      | |- answers (parseMulLoop _ _ _ _) => apply ML
      | |- answers (parseUnary _ _ _) => apply U
      | |- answers (parsePrimary _ _ _) => apply P
      | |- answers (parsePostfix _ _ _ _) => apply PF
      end.
    all: name_skips; lia.
Qed.

(** [parseExpression] and [parseExpressionAt] answer on every text: the
    bound [parseFuel] is never reached. *)
Lemma parseExpression_answers (text : jsstring) :
  answers (parseExpression text).
Proof.
  unfold parseExpression, parseFuel.
  apply (parser_fuel_enough (8 * length text + 8) text). lia.
Qed.

Lemma parseExpressionAt_answers (text : jsstring) (start : nat) :
  answers (parseExpressionAt text start).
Proof.
  unfold parseExpressionAt, parseFuel.
  destruct (parser_fuel_enough (8 * length text + 8) text)
    as (_ & A & _).
  specialize (A start).
  destruct (parseAdd (8 * length text + 8) text start) as [[e j]| |].
  - destruct (includes caret (slice text start j)); discriminate.
  - discriminate.
  - exfalso; apply A; [lia | reflexivity].
Qed.

(* ================================================================== *)
(** * Properties of the Generic-Expression detector *)
(* ================================================================== *)

Lemma hasBinaryNode_under c e : hasBinaryNode c -> child c e -> hasBinaryNode e.
Proof.
  intros (op & l & r & H) Hc. exists op, l, r. now apply inTree_under with c.
Qed.

Lemma exprContainsOperator_binary (e : Expr) :
  exprContainsOperator e = true -> hasBinaryNode e.
Proof.
  induction e as [v|n|t|b e IH|op e IH|op l r IHl IHr|o m IH|o i IHo IHi
                 |c args IHc IHargs|c args IHc IHargs] using Expr_tree_ind;
    simpl; intros H; try discriminate.
  - eapply hasBinaryNode_under; [apply IH, H | constructor].
  - eapply hasBinaryNode_under; [apply IH, H | constructor].
  - exists op, l, r; constructor.
  - eapply hasBinaryNode_under; [apply IH, H | constructor].
  - apply orb_prop in H; destruct H as [H|H].
    + eapply hasBinaryNode_under; [apply IHo, H | constructor].
    + eapply hasBinaryNode_under; [apply IHi, H | constructor].
  - apply orb_prop in H; destruct H as [H|H].
    + apply existsb_exists in H; destruct H as (a & Ha & Hop).
      rewrite Forall_forall in IHargs.
      eapply hasBinaryNode_under; [apply (IHargs a Ha Hop) | now constructor].
    + eapply hasBinaryNode_under; [apply IHc, H | constructor].
  - apply orb_prop in H; destruct H as [H|H].
    + apply existsb_exists in H; destruct H as (a & Ha & Hop).
      rewrite Forall_forall in IHargs.
      eapply hasBinaryNode_under; [apply (IHargs a Ha Hop) | now constructor].
    + eapply hasBinaryNode_under; [apply IHc, H | constructor].
Qed.

Lemma includes_false_not_In c (s : jsstring) :
  includes c s = false -> ~ In c s.
Proof.
  intros H Hin.
  assert (includes c s = true)
    by (apply existsb_exists; exists c; split; [exact Hin | apply N.eqb_refl]).
  congruence.
Qed.

Lemma findExpressionsFrom_arithmetic turns :
  forall text maskedText maxMatches i results,
    length maskedText - i <= turns ->
    Forall (arithmeticMatch maskedText) results ->
    exists ms,
      findExpressionsFrom turns text maskedText maxMatches i results = Done ms
      /\ Forall (arithmeticMatch maskedText) ms.
Proof.
  induction turns as [|turns IH]; intros text maskedText maxMatches i results
    Hturns Hres.
  - exists results; split; [|exact Hres]. simpl.
    replace (i <? length maskedText) with false
      by (symmetry; apply Nat.ltb_ge; lia).
    reflexivity.
  - simpl.
    destruct (i <? length maskedText) eqn:Hi; simpl;
      [|exists results; split; [reflexivity | exact Hres]].
    apply Nat.ltb_lt in Hi.
    destruct (length results <? maxMatches); simpl;
      [|exists results; split; [reflexivity | exact Hres]].
    pose proof (@parseExpressionAt_answers maskedText i) as Hans.
    repeat match goal with
    | |- context [match parseExpressionAt ?t ?j with _ => _ end] =>
        destruct (parseExpressionAt t j) as [[parsed parsedEnd]| |] eqn:Hparse
    | |- exists ms, (if ?b then _ else _) = _ /\ _ => destruct b eqn:?
    end;
    try (exfalso; apply Hans; reflexivity);
    try (apply IH; [|exact Hres]);
    try match goal with
    | H : (_ <=? _) = false |- _ => apply Nat.leb_gt in H
    end; try lia.
    apply IH; [lia|].
    apply Forall_app; split; [exact Hres|].
    constructor; [|constructor].
    match goal with
    | H : negb (exprContainsOperator _) = false |- _ =>
        apply negb_false_iff in H; rename H into Hop
    end.
    constructor; simpl.
    + intros callee args ->; discriminate.
    + intros ctor args ->; discriminate.
    + now apply includes_false_not_In.
    + now apply exprContainsOperator_binary.
    + split; intros v ->; discriminate.
Qed.

(** C6. The Generic-Expression detector ends on every text, and each match
    it returns is not a bare call or construction, spans no circumflex of
    the masked text, and has a binary operator node in its tree (so it is
    no bare number or identifier). *)
Theorem findExpressions_matches_are_arithmetic
  (text maskedText : jsstring) (maxMatches : nat) :
  exists ms,
    findExpressions text maskedText maxMatches = Done ms /\
    forall m, In m ms -> arithmeticMatch maskedText m.
Proof.
  destruct (@findExpressionsFrom_arithmetic (length maskedText) text maskedText
              maxMatches 0 []) as (ms & Hms & Hall); [lia | constructor |].
  exists ms; split; [exact Hms|]. now apply Forall_forall.
Qed.

(** The detector at work: the property above is about matches that exist. *)
Example findExpressions_example :
  let text := str "x = a*b + c/2; foo(1+2)" in
  match findExpressions text (maskJavaNonCode text) 500 with
  | Done ms => map (fun m => (exprStart m, exprEnd m, exprText m)) ms
               = [ (4, 13, str "a*b + c/2"); (19, 22, str "1+2") ]
  | _ => False
  end.
Proof. vm_compute. reflexivity. Qed.

(* ================================================================== *)
(** * The split of the arguments of a power call *)
(* ================================================================== *)

Section SplitTwoArgs.

Lemma slice_middle (pre mid post : jsstring) :
  slice (pre ++ mid ++ post) (length pre) (length pre + length mid) = mid.
Proof.
  unfold slice. rewrite skipn_app, skipn_all, Nat.sub_diag. simpl.
  replace (length pre + length mid - length pre) with (length mid) by lia.
  rewrite firstn_app, firstn_all, Nat.sub_diag. simpl. apply app_nil_r.
Qed.

Lemma isArgPunct_false c :
  isArgPunct c = false ->
  (isCh "(" c || isCh ")" c || isCh "{" c || isCh "}" c
   || isCh "[" c || isCh "]" c) = false /\ isCh "," c = false.
Proof. unfold isArgPunct; intros H; now apply orb_false_iff in H. Qed.

Lemma splitTwoArgsFrom_first_comma maskedText start end_ (a rest : jsstring) :
  Forall (fun c => isArgPunct c = false) a ->
  forall i,
    splitTwoArgsFrom maskedText (a ++ ch "," :: rest) start end_ i depths0 =
    let a' := trim (slice maskedText start (i + length a)) in
    let b' := trim (slice maskedText (i + length a + 1) end_) in
    match a', b' with
    | _ :: _, _ :: _ => Some (a', b')
    | _, _ => None
    end.
Proof.
  induction 1 as [|c a Hc _ IH]; intros i.
  - simpl. rewrite Nat.add_0_r. reflexivity.
  - apply isArgPunct_false in Hc; destruct Hc as [Hb Hcomma].
    cbn [app splitTwoArgsFrom]. rewrite Hb, Hcomma. simpl andb. cbv iota.
    rewrite IH. simpl length.
    now replace (S i + length a) with (i + S (length a)) by lia.
Qed.

(** Whatever follows the first comma outside brackets, more commas
    included, is the second argument. *)
Lemma splitTwoArgs_first_comma (pre a rest post : jsstring) :
  Forall (fun c => isArgPunct c = false) a ->
  trim a <> [] -> trim rest <> [] ->
  splitTwoArgs (pre ++ a ++ ch "," :: rest ++ post) (length pre)
               (length pre + length a + 1 + length rest)
  = Some (trim a, trim rest).
Proof.
  intros Ha Hta Htr. unfold splitTwoArgs.
  set (text := pre ++ a ++ ch "," :: rest ++ post).
  assert (E1 : slice text (length pre)
                 (length pre + length a + 1 + length rest)
               = a ++ ch "," :: rest).
  { unfold text.
    replace (pre ++ a ++ ch "," :: rest ++ post)
      with (pre ++ (a ++ ch "," :: rest) ++ post)
      by (now rewrite <- !app_assoc).
    replace (length pre + length a + 1 + length rest)
      with (length pre + length (a ++ ch "," :: rest))
      by (rewrite length_app; simpl; lia).
    apply slice_middle. }
  assert (E2 : slice text (length pre) (length pre + length a) = a)
    by apply slice_middle.
  assert (E3 : slice text (length pre + length a + 1)
                 (length pre + length a + 1 + length rest) = rest).
  { unfold text.
    replace (pre ++ a ++ ch "," :: rest ++ post)
      with ((pre ++ a ++ [ch ","]) ++ rest ++ post)
      by (now rewrite <- !app_assoc).
    replace (length pre + length a + 1)
      with (length (pre ++ a ++ [ch ","]))
      by (rewrite !length_app; simpl; lia).
    apply slice_middle. }
  rewrite E1, splitTwoArgsFrom_first_comma, E2, E3 by exact Ha.
  destruct (trim a); [congruence|]. destruct (trim rest); [congruence|].
  reflexivity.
Qed.

End SplitTwoArgs.

(* ================================================================== *)
(** * The bound on the dotted segments of an identifier *)
(* ================================================================== *)

Lemma skipWs_past_end text j : length text <= j -> skipWs text j = j.
Proof.
  intros H; unfold skipWs. now rewrite skipn_all2.
Qed.

(** Once the turns cover what is left of the text, more of them change
    nothing: the loop of [parseQualifiedIdent] has ended by itself. *)
Lemma dottedSegments_turns turns :
  forall text name j extra,
    length text - j <= turns ->
    dottedSegments (turns + extra) text name j
    = dottedSegments turns text name j.
Proof.
  induction turns as [|turns IH]; intros text name j extra Hj.
  - destruct extra as [|extra]; [reflexivity|]. simpl.
    rewrite skipWs_past_end by lia.
    replace (charAt text j) with (@None char)
      by (symmetry; apply nth_error_None; lia).
    reflexivity.
  - simpl.
    destruct (isO "." (charAt text (skipWs text j))) eqn:Hdot; simpl;
      [|reflexivity].
    destruct (testO isIdentStart
                (charAt text (skipWs text (skipWs text j + 1)))); simpl;
      [|reflexivity].
    apply IH.
    pose proof (skipWs_ge text j).
    pose proof (skipWs_ge text (skipWs text j + 1)). lia.
Qed.

(* ================================================================== *)
(** * The masker at work *)
(* ================================================================== *)

Example maskJavaNonCode_example :
  maskJavaNonCode (str "a/b // x/y") = str "a/b       " /\
  maskJavaNonCode (str "s = 'c' + k; /* 1/2 */ t") = str "s =     + k;           t".
Proof. split; vm_compute; reflexivity. Qed.

(* ================================================================== *)
(** * The result of the parser does not depend on the bound *)
(* ================================================================== *)

Section FuelStable.

Lemma collect_cons_answers r rs :
  answers (collect (r :: rs)) -> answers r /\ answers (collect rs).
Proof.
  unfold answers; simpl.
  destruct r, (collect rs); split; congruence.
Qed.

Lemma arguments_stable fuel fuel' (parts : list jsstring) :
  (forall p r, parseExpressionF fuel p = r -> answers r ->
               parseExpressionF fuel' p = r) ->
  answers (collect (map (fun p => orRaw p (parseExpressionF fuel p)) parts)) ->
  collect (map (fun p => orRaw p (parseExpressionF fuel' p)) parts)
  = collect (map (fun p => orRaw p (parseExpressionF fuel p)) parts).
Proof.
  intros Hst; induction parts as [|p parts IH]; intros Hans; [reflexivity|].
  cbn [map] in *. apply collect_cons_answers in Hans.
  destruct Hans as [Hp Hrest].
  cbn [collect]. rewrite (IH Hrest).
  rewrite (Hst p (parseExpressionF fuel p) eq_refl); [reflexivity|].
  intros E; rewrite E in Hp; now apply Hp.
Qed.

Lemma index_stable fuel fuel' (inside : jsstring) :
  (forall p r, parseExpressionF fuel p = r -> answers r ->
               parseExpressionF fuel' p = r) ->
  answers (orRaw inside (parseExpressionF fuel inside)) ->
  orRaw inside (parseExpressionF fuel' inside)
  = orRaw inside (parseExpressionF fuel inside).
Proof.
  intros Hst Hans.
  rewrite (Hst inside (parseExpressionF fuel inside) eq_refl); [reflexivity|].
  intros E; rewrite E in Hans; now apply Hans.
Qed.

End FuelStable.

Ltac answered :=
  match goal with
  | |- answers (Done _) => apply answers_Done
  | |- answers NoMatch => apply answers_NoMatch
  end.

Lemma parser_fuel_stable fuel : forall fuel' text, fuel <= fuel' ->
  (forall r, parseExpressionF fuel text = r -> answers r ->
     parseExpressionF fuel' text = r) /\
  (forall i r, parseAdd fuel text i = r -> answers r ->
     parseAdd fuel' text i = r) /\
  (forall l i r, parseAddLoop fuel text l i = r -> answers r ->
     parseAddLoop fuel' text l i = r) /\
  (forall i r, parseMul fuel text i = r -> answers r ->
     parseMul fuel' text i = r) /\
  (forall l i r, parseMulLoop fuel text l i = r -> answers r ->
     parseMulLoop fuel' text l i = r) /\
  (forall i r, parseUnary fuel text i = r -> answers r ->
     parseUnary fuel' text i = r) /\
  (forall i r, parsePrimary fuel text i = r -> answers r ->
     parsePrimary fuel' text i = r) /\
  (forall e0 i r, parsePostfix fuel text e0 i = r -> answers r ->
     parsePostfix fuel' text e0 i = r).
Proof.
  induction fuel as [|fuel IH]; intros fuel' text Hle.
  - repeat split; intros; subst; exfalso;
      match goal with H : answers _ |- _ => now apply H end.
  - destruct fuel' as [|fuel']; [lia|].
    assert (E : forall p r, parseExpressionF fuel p = r -> answers r ->
                            parseExpressionF fuel' p = r)
      by (intros p; apply (IH fuel' p); lia).
    destruct (IH fuel' text) as (_ & A & AL & M & ML & U & P & PF); [lia|].
    repeat split; intros; subst; simpl;
      match goal with Hans : answers _ |- _ => simpl in Hans end.
    all: repeat (
      match goal with
      | Hans : answers (match ?x with _ => _ end) |- _ => destruct x eqn:?
      | Hans : answers (if ?x then _ else _) |- _ => destruct x eqn:?
      end;
      try (exfalso; match goal with Hans : answers OutOfFuel |- _ =>
                      exact (Hans eq_refl) end);
      try match goal with
        | G : parseAdd _ _ ?j = ?r |- _ =>
            rewrite (A j r G) by answered; clear G
        | G : parseMul _ _ ?j = ?r |- _ =>
            rewrite (M j r G) by answered; clear G
        | G : parseUnary _ _ ?j = ?r |- _ =>
            rewrite (U j r G) by answered; clear G
        | G : collect (map _ ?parts) = ?r |- _ =>
            rewrite (@arguments_stable fuel fuel' parts E)
              by (rewrite G; answered);
            rewrite G; clear G
        | G : orRaw ?inside _ = ?r |- _ =>
            rewrite (@index_stable fuel fuel' inside E)
              by (rewrite G; answered);
            rewrite G; clear G
        end).
    all: try reflexivity.
    all: match goal with
      | Hans : answers (parseAddLoop _ _ ?l ?j) |- _ =>
          apply (AL l j _ eq_refl Hans)
      | Hans : answers (parseMulLoop _ _ ?l ?j) |- _ =>
          apply (ML l j _ eq_refl Hans)
      | Hans : answers (parsePrimary _ _ ?j) |- _ =>
          apply (P j _ eq_refl Hans)
      | Hans : answers (parsePostfix _ _ ?l ?j) |- _ =>
          apply (PF l j _ eq_refl Hans)
      end.
Qed.

(** Any bound from [parseFuel] on gives the result of [parseExpression]. *)
Lemma parseExpression_any_fuel (text : jsstring) (fuel : nat) :
  parseFuel (length text) <= fuel ->
  parseExpressionF fuel text = parseExpression text.
Proof.
  intros H.
  destruct (@parser_fuel_stable (parseFuel (length text)) fuel text H)
    as (E & _).
  apply E; [reflexivity | apply parseExpression_answers].
Qed.

(* ================================================================== *)
(** * The leaves that the parser builds *)
(* ================================================================== *)

Section ParserLeaves.

Lemma includes_false_sub c (s t : jsstring) :
  incl s t -> includes c t = false -> includes c s = false.
Proof.
  intros Hst Ht. destruct (includes c s) eqn:E; [|reflexivity].
  apply existsb_exists in E; destruct E as (x & Hx & Hcx).
  assert (includes c t = true)
    by (apply existsb_exists; exists x; split; [now apply Hst | exact Hcx]).
  congruence.
Qed.

Lemma slice_incl text a b : incl (slice text a b) text.
Proof.
  intros x Hx. unfold slice in Hx.
  rewrite <- (firstn_skipn a text). apply in_or_app; right.
  rewrite <- (firstn_skipn (b - a) (skipn a text)). apply in_or_app; now left.
Qed.

Lemma identPart_not_caret c : isIdentPart c = true -> N.eqb caret c = false.
Proof.
  intros H. destruct (N.eqb_spec caret c) as [<-|]; [discriminate H | reflexivity].
Qed.

Lemma identRun_no_caret suffix : includes caret (identRun suffix) = false.
Proof.
  induction suffix as [|c r IH]; simpl; [reflexivity|].
  destruct (isIdentPart c) eqn:E; [|reflexivity].
  unfold includes in *; cbn [existsb]. now rewrite (identPart_not_caret c E), IH.
Qed.

Lemma dottedSegments_leaf turns text name j :
  leafText name -> leafText (fst (dottedSegments turns text name j)).
Proof.
  revert name j; induction turns as [|turns IH]; intros name j Hn; simpl;
    [exact Hn|].
  destruct (isO "." (charAt text (skipWs text j))); simpl; [|exact Hn].
  destruct (testO isIdentStart
              (charAt text (skipWs text (skipWs text j + 1)))); simpl;
    [|exact Hn].
  apply IH. destruct Hn as [Hne Hc]. split.
  - destruct name; [congruence | discriminate].
  - rewrite includes_app, Hc. cbn [app orb].
    change (includes caret (?c :: ?s)) with (N.eqb caret c || includes caret s).
    rewrite identRun_no_caret. reflexivity.
Qed.

Lemma parseQualifiedIdent_leaf text i name j :
  parseQualifiedIdent text i = Some (name, j) -> leafText name.
Proof.
  unfold parseQualifiedIdent.
  destruct (testO isIdentStart (charAt text i)) eqn:E; simpl; [|discriminate].
  intros H; injection H as H.
  match type of H with dottedSegments ?t _ ?n ?k = _ =>
    pose proof (@dottedSegments_leaf t text n k) as G end.
  rewrite H in G; simpl in G. apply G. split.
  - unfold charAt in E. rewrite <- hd_error_skipn in E.
    destruct (skipn i text) as [|c r]; simpl in *; [discriminate|].
    unfold isIdentPart. rewrite E. discriminate.
  - apply identRun_no_caret.
Qed.

Lemma digitRun_pos text i :
  testO isDigit (charAt text i) = true -> 1 <= digitRun (skipn i text).
Proof.
  unfold charAt. rewrite <- hd_error_skipn.
  destruct (skipn i text) as [|c r]; simpl; [discriminate|].
  intros ->. lia.
Qed.

Lemma parseNumber_slice text i value j :
  parseNumber text i = Some (value, j) ->
  value = slice text i j /\ i < j /\ i < length text.
Proof.
  unfold parseNumber.
  destruct (testO isDigit (charAt text i)) eqn:E; simpl; [|discriminate].
  pose proof (digitRun_pos text i E) as Hpos.
  assert (Hi : i < length text).
  { destruct (charAt text i) eqn:Ec; [|discriminate]. now apply charAt_lt in Ec. }
  match goal with |- context [if ?b then _ else _] => destruct b end;
    intros H; injection H as <- <-; repeat split; auto; lia.
Qed.

Lemma slice_nonempty text i j :
  i < j -> i < length text -> slice text i j <> [].
Proof.
  intros Hij Hi. unfold slice.
  destruct (skipn i text) as [|c r] eqn:E.
  - apply (f_equal (@length char)) in E. rewrite length_skipn in E.
    simpl in E; lia.
  - destruct (j - i) eqn:D; [lia | discriminate].
Qed.

Lemma parseNumber_leaf text i value j :
  includes caret text = false ->
  parseNumber text i = Some (value, j) -> leafText value.
Proof.
  intros Hc H. apply parseNumber_slice in H. destruct H as (-> & Hij & Hi).
  split; [now apply slice_nonempty|].
  eapply includes_false_sub; [apply slice_incl | exact Hc].
Qed.

Lemma collect_good (rs : list (outcome Expr)) es :
  Forall (fun r => forall e, r = Done e -> goodLeaves e) rs ->
  collect rs = Done es -> Forall goodLeaves es.
Proof.
  intros H; revert es; induction H as [|r rs Hr _ IH]; intros es; simpl.
  - intros E; injection E as <-; constructor.
  - destruct r as [e| |]; try discriminate;
      destruct (collect rs) as [es'| |]; try discriminate.
    intros E; injection E as <-. constructor; [now apply Hr | now apply IH].
Qed.

Lemma arguments_good fuel (parts : list jsstring) es :
  (forall p e, parseExpressionF fuel p = Done e -> goodLeaves e) ->
  collect (map (fun p => orRaw p (parseExpressionF fuel p)) parts) = Done es ->
  Forall goodLeaves es.
Proof.
  intros IH. apply collect_good, Forall_map, Forall_forall.
  intros p _ e. destruct (parseExpressionF fuel p) eqn:E; simpl;
    intros H; try discriminate; injection H as <-;
    [now apply (IH p) | constructor].
Qed.

End ParserLeaves.

Ltac leaf_facts :=
  repeat match goal with
  | H : parseNumber _ _ = Some (_, _) |- _ =>
      apply parseNumber_leaf in H; [|assumption]
  | H : parseQualifiedIdent _ _ = Some (_, _) |- _ =>
      apply parseQualifiedIdent_leaf in H
  end.

Lemma parser_good_leaves fuel : forall text,
  (forall e, parseExpressionF fuel text = Done e -> goodLeaves e) /\
  (includes caret text = false ->
   (forall i e j, parseAdd fuel text i = Done (e, j) -> goodLeaves e) /\
   (forall l i e j, goodLeaves l ->
      parseAddLoop fuel text l i = Done (e, j) -> goodLeaves e) /\
   (forall i e j, parseMul fuel text i = Done (e, j) -> goodLeaves e) /\
   (forall l i e j, goodLeaves l ->
      parseMulLoop fuel text l i = Done (e, j) -> goodLeaves e) /\
   (forall i e j, parseUnary fuel text i = Done (e, j) -> goodLeaves e) /\
   (forall i e j, parsePrimary fuel text i = Done (e, j) -> goodLeaves e) /\
   (forall e0 i e j, goodLeaves e0 ->
      parsePostfix fuel text e0 i = Done (e, j) -> goodLeaves e)).
Proof.
  induction fuel as [|fuel IH]; intros text.
  - split; [|intros _; repeat split]; intros; discriminate.
  - assert (E : forall p e, parseExpressionF fuel p = Done e -> goodLeaves e)
      by (intros p; apply (IH p)).
    split.
    + intros e H; simpl in H.
      destruct (includes caret text) eqn:Hc; [discriminate|].
      destruct (IH text) as (_ & IHt). destruct (IHt Hc) as (A & _).
      break_in H. injection H as <-. eauto.
    + intros Hc. destruct (IH text) as (_ & IHt).
      destruct (IHt Hc) as (A & AL & M & ML & U & P & PF).
      repeat split; intros;
        match goal with H : _ = Done (_, _) |- _ =>
          simpl in H; break_in H; try (injection H as <- <-); subst
        end;
        break_guards; leaf_facts;
        repeat match goal with
        | G : parseAdd _ _ _ = Done (_, _) |- _ => apply A in G
        | G : parseMul _ _ _ = Done (_, _) |- _ => apply M in G
        | G : parseUnary _ _ _ = Done (_, _) |- _ => apply U in G
        | G : parsePrimary _ _ _ = Done (_, _) |- _ => apply P in G
        | G : parseExpressionF _ _ = Done _ |- _ => apply E in G
        | G : collect (map _ _) = Done _ |- _ =>
            apply (@arguments_good fuel _ _ E) in G
        | G : orRaw _ ?r = Done _ |- _ =>
            destruct r eqn:?; simpl in G; try discriminate;
            injection G as <-
        end;
        try match goal with
        | G : parseAddLoop _ _ _ _ = Done (_, _) |- _ =>
            eapply AL; [|exact G]
        | G : parseMulLoop _ _ _ _ = Done (_, _) |- _ =>
            eapply ML; [|exact G]
        | G : parsePostfix _ _ _ _ = Done (_, _) |- _ =>
            eapply PF; [|exact G]
        end;
        auto 6 using goodLeaves.
Qed.

(** Every tree that [parseExpression] returns has leaves without a
    circumflex, so the amended C9 holds of every such tree made of
    [Number], [Identifier] and [Binary] nodes. *)
Lemma parseExpression_good_leaves (text : jsstring) (e : Expr) :
  parseExpression text = Done e -> goodLeaves e.
Proof. apply parser_good_leaves. Qed.

Lemma goodLeaves_plainTree (e : Expr) :
  goodLeaves e -> plainTree (fun _ => True) e -> plainTree leafText e.
Proof.
  intros Hg Hp; induction Hp as [v _|n _|op l r _ IHl _ IHr];
    inversion Hg; subst; constructor; auto.
Qed.

Lemma parsed_plain_tree_no_caret (text : jsstring) (e : Expr) :
  parseExpression text = Done e -> plainTree (fun _ => True) e ->
  plainTree leafText e.
Proof.
  intros Hp. apply goodLeaves_plainTree.
  now apply parseExpression_good_leaves with text.
Qed.

(* ================================================================== *)
(** * The parser and the patterns at work *)
(* ================================================================== *)

Example parseExpression_precedence :
  parseExpression (str "a*(b+1)/2 - c") =
  Done (EBinary Minus
          (EBinary Divide
             (EBinary Times (EIdent (str "a"))
                (EGroup Paren
                   (EBinary Plus (EIdent (str "b")) (ENumber (str "1")))))
             (ENumber (str "2")))
          (EIdent (str "c"))).
Proof. vm_compute. reflexivity. Qed.

Example parseExpression_postfix :
  parseExpression (str "f(x, y[2]) . z") =
  Done (EMember
          (ECall (EIdent (str "f"))
             [EIdent (str "x");
              EIndex (EIdent (str "y")) (ENumber (str "2"))])
          (str "z")).
Proof. vm_compute. reflexivity. Qed.

Example parseExpression_no_match :
  parseExpression (str "1 +") = NoMatch /\
  parseExpression (str "(a + b") = NoMatch /\
  parseExpression (str "a b") = NoMatch.
Proof. repeat split; vm_compute; reflexivity. Qed.

(** The test before the constructor branch asks for a word character
    right after [new]: with a blank there the text is read as the
    identifier [new], and the branch is taken for [newFoo(1)]. *)
Example parseExpression_new :
  parseExpression (str "new Foo(1)") = NoMatch /\
  parseExpression (str "newFoo(1)")
    = Done (ENew (EIdent (str "Foo")) [ENumber (str "1")]).
Proof. split; vm_compute; reflexivity. Qed.

Example exprToLatex_example :
  exprToLatex (EBinary Times
                 (EBinary Plus (EIdent (str "a_1")) (ENumber (str "2")))
                 (EUnary Neg (EIdent (str "b"))))
  = str "\left(a\_1 + 2\right) \cdot -b".
Proof. vm_compute. reflexivity. Qed.

(** The update patterns: the four unit steps match, a decrement does not;
    the pattern is not anchored, so it also matches inside a longer
    clause. *)
Example updateRe_examples :
  map (test (updateRe (str "i")))
      [str "i++"; str "++i"; str "i += 1"; str "i = i + 1"; str "i +=1";
       str "i--"; str "i -= 1"; str "j++"; str "i += 2";
       str "i += 10"; str "i++, j--"]
  = [true; true; true; true; true;
     false; false; false; false;
     true; true].
Proof. vm_compute. reflexivity. Qed.

(** Greedy groups give characters back until the rest of the pattern
    matches, and [\1] repeats the text of the first group. *)
Example extractSummation_examples :
  extractSummation (str " total = total + a[i] * 2; ")
    = Some (str "total", str "a[i] * 2") /\
  extractSummation (str " total = a[i] + total ; ")
    = Some (str "total", str "a[i]") /\
  extractSummation (str " s += x; t += y; ") = Some (str "s", str "x") /\
  extractSummation (str " total = other + a[i]; ") = None.
Proof. repeat split; vm_compute; reflexivity. Qed.

Example parseForHeader_examples :
  parseForHeader (str "var i = 0; i < n; i++")
    = Some {| hIndexVar := str "i"; hLower := str "0";
              hUpper := str "n - 1" |} /\
  parseForHeader (str "let k=1; k<=m+1; ++k")
    = Some {| hIndexVar := str "k"; hLower := str "1";
              hUpper := str "m+1" |} /\
  parseForHeader (str "int i = 0; j < n; i++") = None /\
  parseForHeader (str "int i = 0; i < n") = None.
Proof. repeat split; vm_compute; reflexivity. Qed.

(* ================================================================== *)
(** * The Loop-Summation and Power-Call detectors always answer *)
(* ================================================================== *)

Section DetectorsAnswer.

Lemma orRaw_parseExpression_done (p : jsstring) :
  exists e, orRaw p (parseExpression p) = Done e.
Proof.
  pose proof (parseExpression_answers p) as H.
  destruct (parseExpression p) as [e| |]; simpl; eauto.
  exfalso; now apply H.
Qed.

Lemma indexOfFrom_ge needle suffix i idx :
  indexOfFrom needle suffix i = Some idx -> i <= idx.
Proof.
  revert i; induction suffix as [|c r IH]; intros i; simpl.
  - destruct (isPrefix needle []); [|discriminate].
    intros H; injection H as <-; lia.
  - destruct (isPrefix needle (c :: r)).
    + intros H; injection H as <-; lia.
    + intros H; apply IH in H; lia.
Qed.

Lemma indexOf_ge text needle from idx :
  indexOf text needle from = Some idx -> from <= idx.
Proof.
  unfold indexOf. destruct (length text <? from); [discriminate|].
  apply indexOfFrom_ge.
Qed.

Lemma findMatchingBrace_bounds text i close :
  findMatchingBrace text i = Some close -> i <= close < length text.
Proof. apply (@findMatching_bounds text i (ch "{") (ch "}") close). Qed.

Lemma findForLoopSummationsFrom_answers turns :
  forall maskedText i results,
    length maskedText - i <= turns ->
    answers (findForLoopSummationsFrom turns maskedText i results).
Proof.
  induction turns as [|turns IH]; intros maskedText i results Hturns.
  - simpl.
    replace (i <? length maskedText) with false
      by (symmetry; apply Nat.ltb_ge; lia).
    apply answers_Done.
  - simpl.
    destruct (i <? length maskedText) eqn:Hi; simpl; [|apply answers_Done].
    apply Nat.ltb_lt in Hi.
    destruct (indexOf maskedText (str "for") i) as [idx|] eqn:Hidx;
      [|apply answers_Done].
    apply indexOf_ge in Hidx.
    repeat match goal with
    | |- answers (match orRaw ?p (parseExpression ?p) with _ => _ end) =>
        let e := fresh "e" in
        let E := fresh "E" in
        destruct (orRaw_parseExpression_done p) as [e E]; rewrite E
    | |- answers (match ?x with _ => _ end) => destruct x eqn:?
    | |- answers (if ?b then _ else _) => destruct b eqn:?
    end.
    all: break_guards;
      repeat match goal with
      | H : (if ?b then _ else _) = Some _ |- _ => destruct b eqn:?
      | H : match findMatchingBrace ?t ?j with _ => _ end = Some _ |- _ =>
          destruct (findMatchingBrace t j) eqn:?; [|discriminate];
          injection H as <- <-
      | H : match indexOf ?t ?n ?j with _ => _ end = Some _ |- _ =>
          destruct (indexOf t n j) eqn:?; [|discriminate];
          injection H as <- <-
      | H : findMatchingBrace _ _ = Some _ |- _ =>
          apply findMatchingBrace_bounds in H
      | H : indexOf _ _ _ = Some _ |- _ => apply indexOf_ge in H
      end;
      lexical_facts; apply IH; name_skips; lia.
Qed.

(** [findForLoopSummations] ends with a list of matches on every text. *)
Lemma findForLoopSummations_answers (maskedText : jsstring) :
  answers (findForLoopSummations maskedText).
Proof. apply findForLoopSummationsFrom_answers. lia. Qed.

(** ** Where a match of a pattern can end *)

Lemma isPrefix_length needle s :
  isPrefix needle s = true -> length needle <= length s.
Proof.
  revert s; induction needle as [|a n IH]; intros [|b s]; simpl;
    try discriminate; try lia.
  intros H; apply andb_prop in H; destruct H as [_ H].
  apply IH in H; lia.
Qed.

Lemma startsWith_length text needle i :
  startsWith text needle i = true -> i <= length text ->
  i + length needle <= length text.
Proof.
  unfold startsWith; intros H Hi. apply isPrefix_length in H.
  rewrite length_skipn in H. lia.
Qed.

(** The matcher calls its continuation at an offset that is not before
    the one it started from, and not past the end of the text. *)
Lemma matchRe_continues (r : regex) :
  forall text i caps k res,
    i <= length text ->
    matchRe r text i caps k = Some res ->
    exists j caps', i <= j <= length text /\ k j caps' = Some res.
Proof.
  induction r as [p|s| |r1 IH1 r2 IH2|r1 IH1 r2 IH2|r1 IH1|n r1 IH1|n| | | ];
    intros text i caps k res Hi H; simpl in H.
  - destruct (charAt text i) as [c|] eqn:E; [|discriminate].
    apply charAt_lt in E.
    destruct (p c); [|discriminate]. exists (i + 1), caps; split; [lia|auto].
  - destruct (startsWith text s i) eqn:E; [|discriminate].
    apply startsWith_length in E; [|exact Hi].
    exists (i + length s), caps; split; [lia|auto].
  - exists i, caps; split; [lia|auto].
  - apply IH1 in H; [|exact Hi]. destruct H as (j & caps' & Hj & H).
    apply IH2 in H; [|lia]. destruct H as (j' & caps'' & Hj' & H).
    exists j', caps''; split; [lia|auto].
  - destruct (matchRe r1 text i caps k) eqn:E.
    + injection H as <-. now apply IH1 in E.
    + now apply IH2 in H.
  - set (n := length text - i) in H. clearbody n. revert i caps Hi H.
    induction n as [|n IHn]; intros i caps Hi H.
    + exists i, caps; split; [lia|auto].
    + match type of H with
      | match ?m with _ => _ end = _ => destruct m eqn:E
      end.
      * injection H as <-. apply IH1 in E; [|exact Hi].
        destruct E as (j & caps' & Hj & E).
        destruct (i <? j) eqn:Hij; [|discriminate].
        apply IHn in E; [|lia]. destruct E as (j' & caps'' & Hj' & E).
        exists j', caps''; split; [lia|auto].
      * exists i, caps; split; [lia|auto].
  - apply IH1 in H; [|exact Hi]. destruct H as (j & caps' & Hj & H). eauto.
  - destruct (capture n caps) as [[a b]|].
    + destruct (startsWith text (slice text a b) i) eqn:E; [|discriminate].
      apply startsWith_length in E; [|exact Hi].
      exists (i + length (slice text a b)), caps; split; [lia|auto].
    + exists i, caps; split; [lia|auto].
  - destruct (atWordBoundary text i); [|discriminate].
    exists i, caps; split; [lia|auto].
  - destruct (i =? 0); [|discriminate]. exists i, caps; split; [lia|auto].
  - destruct (i =? length text); [|discriminate].
    exists i, caps; split; [lia|auto].
Qed.

Lemma execFrom_bounds re text tries i m :
  execFrom re text tries i = Some m -> i <= mIndex m.
Proof.
  revert i; induction tries as [|tries IH]; intros i; simpl;
    destruct (matchRe re text i [] (fun j caps => Some (j, caps)))
      as [[j caps]|]; try discriminate;
    try (intros H; injection H as <-; simpl; lia).
  intros H; apply IH in H; lia.
Qed.

Lemma matchRe_seq r1 r2 text i caps k :
  matchRe (RSeq r1 r2) text i caps k
  = matchRe r1 text i caps (fun j caps' => matchRe r2 text j caps' k).
Proof. reflexivity. Qed.

Lemma matchRe_lit s text i caps k res :
  i <= length text ->
  matchRe (RLit s) text i caps k = Some res ->
  i + length s <= length text /\ k (i + length s) caps = Some res.
Proof.
  intros Hi H; simpl in H.
  destruct (startsWith text s i) eqn:E; [|discriminate].
  apply startsWith_length in E; auto.
Qed.






End DetectorsAnswer.

(* ================================================================== *)
(** * Further properties of the masker *)
(* ================================================================== *)

Section MaskerRegions.

(** Outside a string or character literal the escape flag is not read
    before it is reset. *)
Lemma maskFrom_escape_irrelevant n :
  forall text state e e',
    length text <= n ->
    state <> stringLit -> state <> charLit ->
    maskFrom state e text = maskFrom state e' text.
Proof.
  induction n as [|n IH]; intros [|c0 rest] state e e' Hlen Hs Hc;
    simpl in Hlen; try lia; try reflexivity.
  assert (Hrest : length rest <= n) by lia.
  assert (Hd1 : length (drop1 rest) <= n) by (destruct rest; simpl in *; lia).
  assert (Hd2 : length (drop1 (drop1 rest)) <= n)
    by (destruct rest as [|? [|? ?]]; simpl in *; lia).
  destruct state; try congruence; simpl;
    repeat match goal with
    | |- context [if ?b then _ else _] => destruct b eqn:?
    end;
    repeat match goal with |- _ :: _ = _ :: _ => f_equal end;
    try reflexivity; apply IH; auto; discriminate.
Qed.

Lemma maskFrom_normal_any_escape text e :
  maskFrom normal e text = maskJavaNonCode text.
Proof.
  apply (@maskFrom_escape_irrelevant (length text)); auto; discriminate.
Qed.

(** Code without quotes and comment openers is copied, and masking goes
    on behind it, as long as the border does not make an opener. *)
Lemma maskFrom_normal_app (code rest : jsstring) e :
  clean code ->
  (endsWithSlash code ->
   hd_error rest <> Some (ch "/") /\ hd_error rest <> Some (ch "*")) ->
  maskFrom normal e (code ++ rest) = code ++ maskFrom normal e rest.
Proof.
  induction code as [|c code IH]; intros Hc Hb; [reflexivity|].
  destruct Hc as (Hq & Hs & Hsl & Hrest).
  cbn [app maskFrom].
  assert (Hnext : c = ch "/" ->
            hd_error (code ++ rest) <> Some (ch "/") /\
            hd_error (code ++ rest) <> Some (ch "*")).
  { intros Hcs. destruct code as [|d code']; simpl.
    - apply Hb. exists []. now rewrite Hcs.
    - now apply Hsl. }
  apply N.eqb_neq in Hq, Hs. rewrite Hq, Hs.
  assert (E1 : isCh "/" c && isO "/" (hd_error (code ++ rest)) = false).
  { destruct (isCh "/" c) eqn:Ec; [|reflexivity]. apply isCh_eq in Ec.
    destruct (isO "/" (hd_error (code ++ rest))) eqn:E; [|reflexivity].
    apply isO_eq in E. now destruct (Hnext Ec). }
  assert (E2 : isCh "/" c && isO "*" (hd_error (code ++ rest)) = false).
  { destruct (isCh "/" c) eqn:Ec; [|reflexivity]. apply isCh_eq in Ec.
    destruct (isO "*" (hd_error (code ++ rest))) eqn:E; [|reflexivity].
    apply isO_eq in E. now destruct (Hnext Ec). }
  rewrite E1, E2. f_equal. apply IH; [exact Hrest|].
  intros [pre Hpre]. apply Hb. exists (c :: pre). now rewrite Hpre.
Qed.

Lemma maskFrom_lineComment (comment tail : jsstring) e :
  Forall (fun c => isNewline c = false) comment ->
  maskFrom lineComment e (comment ++ tail)
  = repeat blank (length comment) ++ maskFrom lineComment e tail.
Proof.
  induction 1 as [|c comment Hc _ IH]; [reflexivity|].
  cbn [app maskFrom length repeat]. rewrite Hc. now rewrite IH.
Qed.

Lemma maskFrom_blockComment (body tail : jsstring) e :
  noCommentEnd body ->
  (forall pre, body = pre ++ [ch "*"] -> hd_error tail <> Some (ch "/")) ->
  maskFrom blockComment e (body ++ tail)
  = map blankOrNewline body ++ maskFrom blockComment e tail.
Proof.
  induction body as [|c body IH]; intros Hb Hlast; [reflexivity|].
  destruct Hb as [Hc Hb]. cbn [app maskFrom map].
  assert (E : isCh "*" c && isO "/" (hd_error (body ++ tail)) = false).
  { destruct (isCh "*" c) eqn:Ec; [|reflexivity]. apply isCh_eq in Ec.
    destruct (isO "/" (hd_error (body ++ tail))) eqn:E; [|reflexivity].
    apply isO_eq in E. exfalso.
    destruct body as [|d body']; simpl in E.
    - apply (Hlast []); [now rewrite Ec | exact E].
    - now apply Hc. }
  rewrite E. unfold blankOrNewline at 1. f_equal. apply IH; [exact Hb|].
  intros pre Hpre. apply (Hlast (c :: pre)). now rewrite Hpre.
Qed.

Lemma maskFrom_stringLit_plain (body tail : jsstring) :
  Forall (fun c => isNewline c = false /\ c <> backslash /\ c <> dquote) body ->
  maskFrom stringLit false (body ++ tail)
  = repeat blank (length body) ++ maskFrom stringLit false tail.
Proof.
  induction 1 as [|c body (Hn & Hb & Hq) _ IH]; [reflexivity|].
  cbn [app maskFrom length repeat].
  apply N.eqb_neq in Hb, Hq. rewrite Hn, Hb, Hq. now rewrite IH.
Qed.

Lemma maskFrom_open_lineComment t e :
  maskFrom normal e (ch "/" :: ch "/" :: t)
  = blank :: blank :: maskFrom lineComment e t.
Proof. reflexivity. Qed.

Lemma maskFrom_open_blockComment t e :
  maskFrom normal e (ch "/" :: ch "*" :: t)
  = blank :: blank :: maskFrom blockComment e t.
Proof. reflexivity. Qed.

Lemma maskFrom_close_blockComment t e :
  maskFrom blockComment e (ch "*" :: ch "/" :: t)
  = blank :: blank :: maskFrom normal e t.
Proof. reflexivity. Qed.

End MaskerRegions.

(** X1. Text with no quote character and no comment opener is code: the masker
    returns it as it is. *)
Theorem maskJavaNonCode_code_unchanged (s : jsstring) :
  clean s -> maskJavaNonCode s = s.
Proof. intros H; now apply maskFrom_clean_fixed. Qed.

Lemma maskJavaNonCode_code_unchanged_witness :
  maskJavaNonCode (str "x = a / b * 2;") = str "x = a / b * 2;".
Proof.
  apply maskJavaNonCode_code_unchanged.
  simpl; repeat split; discriminate.
Defined.

Lemma clean_no_quote (out : jsstring) :
  clean out -> ~ In dquote out /\ ~ In squote out.
Proof.
  induction out as [|c out IH]; simpl; [tauto|].
  intros (Hq & Hs & _ & Hc). destruct (IH Hc) as [I1 I2].
  split; intros [E|E]; auto.
Qed.

Lemma clean_slash (out : jsstring) :
  clean out ->
  forall i, nth_error out i = Some (ch "/") ->
    nth_error out (S i) <> Some (ch "/") /\
    nth_error out (S i) <> Some (ch "*").
Proof.
  induction out as [|c out IH]; intros Hc i Hi;
    [destruct i; discriminate|].
  destruct Hc as (_ & _ & Hsl & Hc). destruct i as [|i]; simpl in *.
  - injection Hi as ->. destruct out; simpl; [split; discriminate|].
    now apply Hsl.
  - now apply IH.
Qed.

(** X2. The masked text holds no quote character, and none of its slashes is
    followed by a slash or a star. *)
Theorem maskJavaNonCode_leaves_no_opener (s : jsstring) :
  ~ In dquote (maskJavaNonCode s) /\ ~ In squote (maskJavaNonCode s) /\
  forall i, nth_error (maskJavaNonCode s) i = Some (ch "/") ->
    nth_error (maskJavaNonCode s) (S i) <> Some (ch "/") /\
    nth_error (maskJavaNonCode s) (S i) <> Some (ch "*").
Proof.
  pose proof (@maskFrom_clean (length s) s normal false (le_n _)) as H.
  fold (maskJavaNonCode s) in H.
  destruct (clean_no_quote _ H) as [H1 H2].
  split; [exact H1 | split; [exact H2 | now apply clean_slash]].
Qed.


Section MaskerComments.

Lemma maskFrom_line_comment (code comment rest : jsstring) (nl : char) :
  clean code -> ~ endsWithSlash code ->
  Forall (fun c => isNewline c = false) comment ->
  isNewline nl = true ->
  maskJavaNonCode (code ++ str "//" ++ comment ++ nl :: rest)
    = code ++ repeat blank (2 + length comment) ++ nl :: maskJavaNonCode rest
  /\
  maskJavaNonCode (code ++ str "//" ++ comment)
    = code ++ repeat blank (2 + length comment).
Proof.
  intros Hc Hs Hcom Hnl. unfold maskJavaNonCode at 1 3.
  assert (Hopen : forall t, str "//" ++ t = ch "/" :: ch "/" :: t)
    by reflexivity.
  split; rewrite maskFrom_normal_app by (auto; intros; contradiction);
    f_equal; rewrite Hopen, maskFrom_open_lineComment;
    cbn [repeat Nat.add app]; do 2 f_equal.
  - rewrite maskFrom_lineComment by exact Hcom. f_equal.
    cbn [maskFrom]. rewrite Hnl. reflexivity.
  - rewrite <- (app_nil_r comment) at 1.
    rewrite maskFrom_lineComment by exact Hcom. simpl. apply app_nil_r.
Qed.

Lemma maskFrom_block_comment (code body rest : jsstring) :
  clean code -> ~ endsWithSlash code -> noCommentEnd body ->
  maskJavaNonCode (code ++ str "/*" ++ body ++ str "*/" ++ rest)
    = code ++ [blank; blank] ++ map blankOrNewline body ++ [blank; blank]
        ++ maskJavaNonCode rest
  /\
  maskJavaNonCode (code ++ str "/*" ++ body)
    = code ++ [blank; blank] ++ map blankOrNewline body.
Proof.
  intros Hc Hs Hb. unfold maskJavaNonCode at 1 3.
  assert (Hopen : forall t, str "/*" ++ t = ch "/" :: ch "*" :: t)
    by reflexivity.
  split;
    rewrite maskFrom_normal_app by (auto; intros; contradiction);
    f_equal; rewrite Hopen, maskFrom_open_blockComment;
    cbn [app]; do 2 f_equal.
  - rewrite maskFrom_blockComment; [reflexivity | exact Hb|].
    intros pre _. discriminate.
  - rewrite <- (app_nil_r body) at 1.
    rewrite maskFrom_blockComment; [|exact Hb|].
    + simpl. apply app_nil_r.
    + intros pre _. discriminate.
Qed.

End MaskerComments.

(** X3. Comments after code.  A line comment is blanked up to the line
    break, which is kept, and masking goes on after it; a comment on the
    last line is blanked to the end of the text.  A block comment is
    blanked with its two delimiters, the line breaks inside it are kept,
    and masking goes on after it; a block comment that is not closed is
    blanked to the end of the text.  The code before the comment must not
    end with a slash, which would open the comment one character
    earlier. *)
Theorem maskJavaNonCode_comments
    (code comment body rest : jsstring) (nl : char) :
  clean code -> ~ endsWithSlash code ->
  Forall (fun c => isNewline c = false) comment ->
  isNewline nl = true ->
  noCommentEnd body ->
  (maskJavaNonCode (code ++ str "//" ++ comment ++ nl :: rest)
     = code ++ repeat blank (2 + length comment) ++ nl :: maskJavaNonCode rest
   /\
   maskJavaNonCode (code ++ str "//" ++ comment)
     = code ++ repeat blank (2 + length comment))
  /\
  (maskJavaNonCode (code ++ str "/*" ++ body ++ str "*/" ++ rest)
     = code ++ [blank; blank] ++ map blankOrNewline body ++ [blank; blank]
         ++ maskJavaNonCode rest
   /\
   maskJavaNonCode (code ++ str "/*" ++ body)
     = code ++ [blank; blank] ++ map blankOrNewline body).
Proof.
  intros Hc Hs Hcom Hnl Hb. split.
  - now apply maskFrom_line_comment.
  - now apply maskFrom_block_comment.
Qed.

Lemma maskJavaNonCode_comments_witness :
  (maskJavaNonCode (str "a/b" ++ str "//" ++ str " x/y" ++ LF :: str "c")
     = str "a/b" ++ repeat blank (2 + 4) ++ LF :: maskJavaNonCode (str "c")
   /\
   maskJavaNonCode (str "a/b" ++ str "//" ++ str " x/y")
     = str "a/b" ++ repeat blank (2 + 4))
  /\
  (maskJavaNonCode (str "a/b" ++ str "/*" ++ (ch "b" :: LF :: str "*c")
                      ++ str "*/" ++ str "c")
     = str "a/b" ++ [blank; blank] ++ map blankOrNewline (ch "b" :: LF :: str "*c")
         ++ [blank; blank] ++ maskJavaNonCode (str "c")
   /\
   maskJavaNonCode (str "a/b" ++ str "/*" ++ (ch "b" :: LF :: str "*c"))
     = str "a/b" ++ [blank; blank]
         ++ map blankOrNewline (ch "b" :: LF :: str "*c")).
Proof.
  apply (@maskJavaNonCode_comments (str "a/b") (str " x/y")
           (ch "b" :: LF :: str "*c") (str "c") LF).
  - simpl; repeat split; discriminate.
  - intros [pre H]. apply (f_equal (@rev char)) in H.
    rewrite rev_app_distr in H. discriminate H.
  - repeat constructor.
  - reflexivity.
  - simpl; repeat split; discriminate.
Defined.

Section MaskerTextBlocks.

Lemma noTripleQuote_prefix (a b : jsstring) :
  noTripleQuote (a ++ b) -> noTripleQuote a.
Proof.
  induction a as [|c a IH]; [intros; exact I|].
  cbn [app noTripleQuote]. intros [H Hrest]. split; [|now apply IH].
  intros (Hc & H1 & H2). apply H. split; [exact Hc|].
  destruct a as [|d [|d' a']]; simpl in *; try discriminate; auto.
Qed.

(** Inside a text block nothing is read but the next run of three
    quotes. *)
Lemma maskFrom_textBlock (body : jsstring) :
  forall (tail : jsstring) e,
    noTripleQuote (body ++ firstn 2 tail) ->
    maskFrom textBlock e (body ++ tail)
    = map blankOrNewline body ++ maskFrom textBlock e tail.
Proof.
  induction body as [|c body IH]; intros tail e Hb; [reflexivity|].
  cbn [app noTripleQuote] in Hb. destruct Hb as [Hc Hb].
  cbn [app maskFrom map].
  assert (E : N.eqb c dquote && eqO dquote (hd_error (body ++ tail))
              && eqO dquote (hd_error (drop1 (body ++ tail))) = false).
  { destruct (N.eqb c dquote) eqn:E0; [|reflexivity].
    destruct (eqO dquote (hd_error (body ++ tail))) eqn:E1; [|reflexivity].
    destruct (eqO dquote (hd_error (drop1 (body ++ tail)))) eqn:E2;
      [|reflexivity].
    apply N.eqb_eq in E0. apply eqO_eq in E1, E2. exfalso. apply Hc.
    split; [exact E0|].
    destruct body as [|d [|d' body']]; destruct tail as [|t [|t' tail']];
      simpl in *; auto. }
  rewrite E. unfold blankOrNewline at 1. f_equal. now apply IH.
Qed.

Lemma maskFrom_open_textBlock (t : jsstring) e :
  maskFrom normal e (tripleQuote ++ t)
  = repeat blank 3 ++ maskFrom textBlock e t.
Proof. reflexivity. Qed.

End MaskerTextBlocks.

(** X4. A text block after code is blanked with its two delimiters of three
    quotes, the line breaks inside it are kept, and masking goes on after
    it; a text block that is not closed is blanked to the end of the text.
    The block ends at the first run of three quotes, whatever stands before
    it: a backslash does not escape a quote there. *)
Theorem maskJavaNonCode_text_block (code body rest : jsstring) :
  clean code -> noTripleQuote (body ++ [dquote; dquote]) ->
  maskJavaNonCode (code ++ tripleQuote ++ body ++ tripleQuote ++ rest)
    = code ++ repeat blank 3 ++ map blankOrNewline body ++ repeat blank 3
        ++ maskJavaNonCode rest
  /\
  maskJavaNonCode (code ++ tripleQuote ++ body)
    = code ++ repeat blank 3 ++ map blankOrNewline body.
Proof.
  intros Hc Hb. unfold maskJavaNonCode at 1 3.
  split;
    (rewrite maskFrom_normal_app;
     [|exact Hc|intros _; split; discriminate]);
    f_equal; rewrite maskFrom_open_textBlock; f_equal.
  - rewrite maskFrom_textBlock by exact Hb. reflexivity.
  - rewrite <- (app_nil_r body) at 1.
    rewrite maskFrom_textBlock.
    + simpl. apply app_nil_r.
    + simpl. rewrite app_nil_r. now apply noTripleQuote_prefix in Hb.
Qed.

Lemma maskJavaNonCode_text_block_witness :
  maskJavaNonCode (str "s=" ++ tripleQuote
                     ++ (LF :: ch "a" :: dquote :: str "//" ++ [backslash])
                     ++ tripleQuote ++ str ";")
    = str "s=" ++ repeat blank 3
        ++ map blankOrNewline (LF :: ch "a" :: dquote :: str "//" ++ [backslash])
        ++ repeat blank 3 ++ maskJavaNonCode (str ";")
  /\
  maskJavaNonCode (str "s=" ++ tripleQuote
                     ++ (LF :: ch "a" :: dquote :: str "//" ++ [backslash]))
    = str "s=" ++ repeat blank 3
        ++ map blankOrNewline (LF :: ch "a" :: dquote :: str "//" ++ [backslash]).
Proof.
  apply (@maskJavaNonCode_text_block (str "s=")
           (LF :: ch "a" :: dquote :: str "//" ++ [backslash]) (str ";")).
  - simpl; repeat split; discriminate.
  - simpl; repeat split; intros (H1 & H2 & H3); discriminate.
Defined.

Section MaskerLiterals.

Lemma maskFrom_stringBody (body tail : jsstring) :
  literalBody dquote body ->
  maskFrom stringLit false (body ++ tail)
  = repeat blank (length body) ++ maskFrom stringLit false tail.
Proof.
  induction 1 as [|c b Hn Hb Hq _ IH|c b Hn _ IH]; [reflexivity| |].
  - cbn [app maskFrom length repeat].
    apply N.eqb_neq in Hb, Hq. rewrite Hn, Hb, Hq. now rewrite IH.
  - cbn [app maskFrom length repeat].
    change (isNewline backslash) with false. cbv iota.
    rewrite N.eqb_refl, Hn. now rewrite IH.
Qed.

Lemma maskFrom_charBody (body tail : jsstring) :
  literalBody squote body ->
  maskFrom charLit false (body ++ tail)
  = repeat blank (length body) ++ maskFrom charLit false tail.
Proof.
  induction 1 as [|c b Hn Hb Hq _ IH|c b Hn _ IH]; [reflexivity| |].
  - cbn [app maskFrom length repeat].
    apply N.eqb_neq in Hb, Hq. rewrite Hn, Hb, Hq. now rewrite IH.
  - cbn [app maskFrom length repeat].
    change (isNewline backslash) with false. cbv iota.
    rewrite N.eqb_refl, Hn. now rewrite IH.
Qed.

Lemma literalBody_head (q : char) (body : jsstring) c :
  q <> backslash ->
  literalBody q body -> hd_error body = Some c -> c <> q.
Proof.
  intros Hq H E; destruct H; simpl in E; try discriminate;
    injection E as <-; [assumption | congruence].
Qed.

Lemma maskFrom_open_string (t : jsstring) e :
  ~ (hd_error t = Some dquote /\ hd_error (drop1 t) = Some dquote) ->
  maskFrom normal e (dquote :: t) = blank :: maskFrom stringLit false t.
Proof.
  intros H. cbn [maskFrom].
  change (isCh "/" dquote) with false. rewrite N.eqb_refl. cbn [andb].
  destruct (eqO dquote (hd_error t)) eqn:E1; [|reflexivity].
  destruct (eqO dquote (hd_error (drop1 t))) eqn:E2; [|reflexivity].
  apply eqO_eq in E1, E2. tauto.
Qed.

Lemma maskFrom_open_char (t : jsstring) e :
  maskFrom normal e (squote :: t) = blank :: maskFrom charLit false t.
Proof. reflexivity. Qed.

Lemma repeat_blank_2 n (t : jsstring) :
  repeat blank (n + 2) ++ t = blank :: repeat blank n ++ blank :: t.
Proof.
  replace (n + 2) with (S (n + 1)) by lia.
  cbn [repeat app]. f_equal. rewrite repeat_app. cbn [repeat].
  now rewrite <- app_assoc.
Qed.

Lemma repeat_blank_1 n (t : jsstring) :
  repeat blank (n + 1) ++ t = blank :: repeat blank n ++ t.
Proof. replace (n + 1) with (S n) by lia. reflexivity. Qed.

Lemma maskFrom_string_literal (code body rest : jsstring) (nl : char) :
  clean code -> literalBody dquote body ->
  (body = [] -> hd_error rest <> Some dquote) ->
  isNewline nl = true ->
  maskJavaNonCode (code ++ dquote :: body ++ dquote :: rest)
    = code ++ repeat blank (length body + 2) ++ maskJavaNonCode rest
  /\
  maskJavaNonCode (code ++ dquote :: body ++ nl :: rest)
    = code ++ repeat blank (length body + 1) ++ nl :: maskJavaNonCode rest.
Proof.
  intros Hc Hb Hempty Hnl. unfold maskJavaNonCode at 1 3.
  assert (Hd : dquote <> backslash) by discriminate.
  split;
    (rewrite maskFrom_normal_app;
     [|exact Hc|intros _; split; discriminate]);
    f_equal; rewrite maskFrom_open_string.
  - rewrite maskFrom_stringBody by exact Hb.
    rewrite repeat_blank_2. reflexivity.
  - intros [H1 H2]. destruct body as [|c body].
    + simpl in H2. apply Hempty; auto.
    + simpl in H1. injection H1 as ->.
      eapply literalBody_head; [exact Hd | exact Hb | reflexivity | reflexivity].
  - rewrite maskFrom_stringBody by exact Hb.
    rewrite repeat_blank_1. do 2 f_equal. cbn [maskFrom]. rewrite Hnl.
    reflexivity.
  - intros [H1 H2]. destruct body as [|c body].
    + simpl in H1. injection H1 as ->. discriminate Hnl.
    + simpl in H1. injection H1 as ->.
      eapply literalBody_head; [exact Hd | exact Hb | reflexivity | reflexivity].
Qed.

Lemma maskFrom_char_literal (code body rest : jsstring) (nl : char) :
  clean code -> literalBody squote body ->
  isNewline nl = true ->
  maskJavaNonCode (code ++ squote :: body ++ squote :: rest)
    = code ++ repeat blank (length body + 2) ++ maskJavaNonCode rest
  /\
  maskJavaNonCode (code ++ squote :: body ++ nl :: rest)
    = code ++ repeat blank (length body + 1) ++ nl :: maskJavaNonCode rest.
Proof.
  intros Hc Hb Hnl. unfold maskJavaNonCode at 1 3.
  split;
    (rewrite maskFrom_normal_app;
     [|exact Hc|intros _; split; discriminate]);
    f_equal; rewrite maskFrom_open_char, maskFrom_charBody by exact Hb.
  - rewrite repeat_blank_2. reflexivity.
  - rewrite repeat_blank_1. do 2 f_equal. cbn [maskFrom]. rewrite Hnl.
    reflexivity.
Qed.

End MaskerLiterals.

(** X5. A string literal or a character literal after code is blanked with
    its quotes, escaped characters included, and masking goes on after the
    closing quote; a literal that is not closed ends at the line break,
    which is kept.  An empty string followed by a third double quote would
    open a text block. *)
Theorem maskJavaNonCode_literal
    (q : char) (code body rest : jsstring) (nl : char) :
  q = dquote \/ q = squote ->
  clean code -> literalBody q body ->
  (q = dquote -> body = [] -> hd_error rest <> Some dquote) ->
  isNewline nl = true ->
  maskJavaNonCode (code ++ q :: body ++ q :: rest)
    = code ++ repeat blank (length body + 2) ++ maskJavaNonCode rest
  /\
  maskJavaNonCode (code ++ q :: body ++ nl :: rest)
    = code ++ repeat blank (length body + 1) ++ nl :: maskJavaNonCode rest.
Proof.
  intros [-> | ->] Hc Hb Hempty Hnl.
  - apply maskFrom_string_literal; auto.
  - now apply maskFrom_char_literal.
Qed.

Lemma maskJavaNonCode_literal_witness :
  maskJavaNonCode (str "s=" ++ dquote :: (ch "a" :: backslash :: dquote
                                            :: str "/b")
                     ++ dquote :: str ";")
    = str "s=" ++ repeat blank (5 + 2) ++ maskJavaNonCode (str ";")
  /\
  maskJavaNonCode (str "s=" ++ dquote :: (ch "a" :: backslash :: dquote
                                            :: str "/b")
                     ++ LF :: str ";")
    = str "s=" ++ repeat blank (5 + 1) ++ LF :: maskJavaNonCode (str ";").
Proof.
  apply (@maskJavaNonCode_literal dquote (str "s=")
           (ch "a" :: backslash :: dquote :: str "/b") (str ";") LF).
  - left; reflexivity.
  - simpl; repeat split; discriminate.
  - apply literalBody_plain; try discriminate; [reflexivity|].
    apply literalBody_escape; [reflexivity|].
    repeat (apply literalBody_plain; try discriminate; try reflexivity).
    apply literalBody_nil.
  - discriminate.
  - reflexivity.
Defined.

(* ================================================================== *)
(** * Further properties of the lexical helpers *)
(* ================================================================== *)

Section Lexical.

Lemma skipWsFrom_spec suffix :
  forall i,
    let r := skipWsFrom suffix i in
    i <= r <= i + length suffix /\
    (forall k, k < r - i -> testO isSpace (nth_error suffix k) = true) /\
    testO isSpace (nth_error suffix (r - i)) = false.
Proof.
  induction suffix as [|c s IH]; intros i; simpl.
  - replace (i - i) with 0 by lia.
    repeat split; intros; try lia; reflexivity.
  - destruct (isSpace c) eqn:E.
    + destruct (IH (S i)) as (H1 & H2 & H3).
      split; [lia|]. split.
      * intros [|k] Hk; simpl; [exact E|]. apply H2. lia.
      * replace (skipWsFrom s (S i) - i)
          with (S (skipWsFrom s (S i) - S i)) by lia.
        exact H3.
    + replace (i - i) with 0 by lia. simpl. rewrite E.
      repeat split; intros; try lia; reflexivity.
Qed.

End Lexical.

(** X6. [skipWs] lands on the first offset from [i] on that holds no white
    space: everything it steps over is white space, and what it stops at
    is not (or is the end of the text). *)
Theorem skipWs_first_non_space (text : jsstring) (i : nat) :
  i <= skipWs text i /\
  (forall k, i <= k < skipWs text i ->
     testO isSpace (charAt text k) = true) /\
  testO isSpace (charAt text (skipWs text i)) = false.
Proof.
  unfold skipWs, charAt.
  destruct (skipWsFrom_spec (skipn i text) i) as (H1 & H2 & H3).
  cbv zeta in *. split; [lia|]. split.
  - intros k Hk. specialize (H2 (k - i)).
    rewrite nth_error_skipn in H2.
    replace (i + (k - i)) with k in H2 by lia. apply H2. lia.
  - rewrite nth_error_skipn in H3.
    replace (i + (skipWsFrom (skipn i text) i - i))
      with (skipWsFrom (skipn i text) i) in H3 by lia.
    exact H3.
Qed.

Section Matching.

Lemma findMatchingFrom_same o suffix :
  forall i depth, findMatchingFrom suffix i depth o o = None.
Proof.
  induction suffix as [|x r IH]; intros i depth; simpl; [reflexivity|].
  destruct (N.eqb x o); apply IH.
Qed.

Lemma countChar_cons c x l :
  countChar c (x :: l) = ((if N.eqb x c then 1 else 0) + countChar c l)%Z.
Proof.
  unfold countChar. simpl.
  destruct (N.eq_dec x c) as [->|Hne].
  - rewrite N.eqb_refl. lia.
  - apply N.eqb_neq in Hne. rewrite Hne. lia.
Qed.

(** The depth after a prefix is the depth before it, plus its opening
    brackets, minus its closing brackets. *)
Lemma findMatchingFrom_balance o c suffix :
  o <> c ->
  forall i depth close,
    findMatchingFrom suffix i depth o c = Some close ->
    i <= close /\
    nth_error suffix (close - i) = Some c /\
    (depth + countChar o (firstn (S (close - i)) suffix)
       - countChar c (firstn (S (close - i)) suffix) = 0)%Z /\
    forall k, k < close - i -> nth_error suffix k = Some c ->
      (depth + countChar o (firstn (S k) suffix)
         - countChar c (firstn (S k) suffix) <> 0)%Z.
Proof.
  intros Hoc.
  induction suffix as [|x r IH]; intros i depth close H; simpl in H;
    [discriminate|].
  destruct (N.eqb_spec x o) as [->|Hxo].
  - apply IH in H. destruct H as (H1 & H2 & H3 & H4).
    replace (close - i) with (S (close - S i)) by lia.
    split; [lia|]. split; [exact H2|].
    assert (Eoc : N.eqb o c = false) by now apply N.eqb_neq.
    split.
    + rewrite firstn_cons, !countChar_cons, N.eqb_refl, Eoc. lia.
    + intros [|k] Hk Hc.
      * simpl in Hc. congruence.
      * rewrite firstn_cons, !countChar_cons, N.eqb_refl, Eoc.
        simpl in Hc.
        assert (G := H4 k ltac:(lia) Hc). lia.
  - assert (Exo : N.eqb x o = false) by now apply N.eqb_neq.
    destruct (N.eqb_spec x c) as [->|Hxc].
    + destruct (Z.eqb_spec (depth - 1) 0) as [Hd|Hd].
      * injection H as <-. replace (i - i) with 0 by lia.
        split; [lia|]. split; [reflexivity|]. split.
        -- cbn [firstn]. rewrite !countChar_cons, Exo, N.eqb_refl.
           unfold countChar; simpl. lia.
        -- intros k Hk; lia.
      * apply IH in H. destruct H as (H1 & H2 & H3 & H4).
        replace (close - i) with (S (close - S i)) by lia.
        split; [lia|]. split; [exact H2|]. split.
        -- rewrite firstn_cons, !countChar_cons, Exo, N.eqb_refl. lia.
        -- intros [|k] Hk Hc.
           ++ cbn [firstn]. rewrite !countChar_cons, Exo, N.eqb_refl.
              unfold countChar; simpl. lia.
           ++ rewrite firstn_cons, !countChar_cons, Exo, N.eqb_refl.
              simpl in Hc. assert (G := H4 k ltac:(lia) Hc). lia.
    + assert (Exc : N.eqb x c = false) by now apply N.eqb_neq.
      apply IH in H. destruct H as (H1 & H2 & H3 & H4).
      replace (close - i) with (S (close - S i)) by lia.
      split; [lia|]. split; [exact H2|]. split.
      * rewrite firstn_cons, !countChar_cons, Exo, Exc. lia.
      * intros [|k] Hk Hc.
        -- simpl in Hc. congruence.
        -- rewrite firstn_cons, !countChar_cons, Exo, Exc.
           simpl in Hc. assert (G := H4 k ltac:(lia) Hc). lia.
Qed.

End Matching.

(** X7. The index that [findMatching] returns holds a closing bracket, the
    brackets from [openIndex] up to it balance, and they balance at no
    closing bracket before it. *)
Theorem findMatching_balanced (text : jsstring) (openIndex : nat)
  (openCh closeCh : char) (close : nat) :
  findMatching text openIndex openCh closeCh = Some close ->
  openIndex <= close < length text /\
  charAt text close = Some closeCh /\
  countChar openCh (slice text openIndex (close + 1))
    = countChar closeCh (slice text openIndex (close + 1)) /\
  forall k, openIndex <= k < close -> charAt text k = Some closeCh ->
    countChar openCh (slice text openIndex (k + 1))
      <> countChar closeCh (slice text openIndex (k + 1)).
Proof.
  intros H. pose proof (findMatching_bounds _ _ _ _ H) as Hb.
  unfold findMatching in H.
  destruct (N.eq_dec openCh closeCh) as [->|Hoc];
    [now rewrite findMatchingFrom_same in H|].
  apply findMatchingFrom_balance in H; [|exact Hoc].
  destruct H as (H1 & H2 & H3 & H4).
  unfold charAt, slice. split; [exact Hb|]. split.
  - rewrite nth_error_skipn in H2.
    now replace (openIndex + (close - openIndex)) with close in H2 by lia.
  - split.
    + replace (close + 1 - openIndex) with (S (close - openIndex)) by lia.
      lia.
    + intros k Hk Hc.
      replace (k + 1 - openIndex) with (S (k - openIndex)) by lia.
      assert (G := H4 (k - openIndex) ltac:(lia)).
      rewrite nth_error_skipn in G.
      replace (openIndex + (k - openIndex)) with k in G by lia.
      specialize (G Hc). lia.
Qed.

Lemma findMatching_balanced_witness :
  2 <= 8 < length (str "f (a(b)c) d)") /\
  charAt (str "f (a(b)c) d)") 8 = Some (ch ")").
Proof.
  destruct (@findMatching_balanced (str "f (a(b)c) d)") 2 (ch "(") (ch ")") 8)
    as (H1 & H2 & _); [reflexivity|].
  split; assumption.
Defined.

Section Trimming.

Lemma trimStart_noLeadingSpace s : noLeadingSpace (trimStart s).
Proof.
  induction s as [|c r IH]; simpl; [exact I|].
  destruct (isSpace c) eqn:E; [exact IH|]. simpl. exact E.
Qed.

Lemma trimStart_fixed s : noLeadingSpace s -> trimStart s = s.
Proof.
  destruct s as [|c r]; simpl; [reflexivity|]. now intros ->.
Qed.

Lemma trimStart_suffix s : exists w, s = w ++ trimStart s.
Proof.
  induction s as [|c r [w IH]]; simpl; [now exists []|].
  destruct (isSpace c).
  - exists (c :: w). simpl. now f_equal.
  - now exists [].
Qed.

Lemma noLeadingSpace_prefix p q :
  noLeadingSpace (p ++ q) -> p <> [] -> noLeadingSpace p.
Proof. destruct p; simpl; [congruence|auto]. Qed.

Lemma trim_idempotent s : trim (trim s) = trim s.
Proof.
  unfold trim, trimEnd.
  pose proof (trimStart_noLeadingSpace s) as Hu.
  set (u := trimStart s) in *.
  pose proof (trimStart_noLeadingSpace (rev u)) as Hv.
  destruct (trimStart_suffix (rev u)) as [w Hw].
  set (v := trimStart (rev u)) in *.
  assert (Hrv : noLeadingSpace (rev v)).
  { destruct v as [|x v'] eqn:Ev; [exact I|].
    apply (f_equal (@rev char)) in Hw. rewrite rev_involutive, rev_app_distr in Hw.
    rewrite Hw in Hu. apply noLeadingSpace_prefix in Hu; [exact Hu|].
    simpl. now destruct (rev v'). }
  rewrite (trimStart_fixed (rev v)) by exact Hrv.
  rewrite rev_involutive. rewrite (trimStart_fixed v) by exact Hv.
  reflexivity.
Qed.

Lemma pushPart_app args argsText start i :
  pushPart args argsText start i = args ++ pushPart [] argsText start i.
Proof.
  unfold pushPart. destruct (trim (slice argsText start i));
    [now rewrite app_nil_r | reflexivity].
Qed.

Lemma pushPart_partOf argsText start i :
  pushPart [] argsText start i = partOf (slice argsText start i).
Proof. unfold pushPart, partOf. now destruct (trim (slice argsText start i)). Qed.

Lemma pushPart_trimmed args argsText start i :
  Forall trimmed args -> Forall trimmed (pushPart args argsText start i).
Proof.
  intros H. unfold pushPart.
  destruct (trim (slice argsText start i)) as [|c r] eqn:E; [exact H|].
  apply Forall_app; split; [exact H|].
  constructor; [|constructor]. split; [discriminate|].
  rewrite <- E. apply trim_idempotent.
Qed.

Lemma splitArgsFrom_trimmed argsText suffix :
  forall i start d args,
    Forall trimmed args ->
    Forall trimmed (splitArgsFrom argsText suffix i start d args).
Proof.
  induction suffix as [|c r IH]; intros i start d args H; simpl.
  - now apply pushPart_trimmed.
  - destruct (isCh "," c && topLevel (stepDepths c d)); apply IH;
      [now apply pushPart_trimmed | exact H].
Qed.

(** The loop reads the text only through the slices it closes, so two
    texts that agree on those give the same parts. *)
Lemma splitArgsFrom_shift suffix :
  forall T T' i i' start start' d args,
    (forall k, k <= length suffix ->
       slice T start (i + k) = slice T' start' (i' + k)) ->
    (forall a b, a <= b <= length suffix ->
       slice T (i + a) (i + b) = slice T' (i' + a) (i' + b)) ->
    splitArgsFrom T suffix i start d args
      = args ++ splitArgsFrom T' suffix i' start' d [].
Proof.
  induction suffix as [|c r IH]; intros T T' i i' start start' d args H1 H2;
    simpl.
  - rewrite pushPart_app. f_equal. unfold pushPart.
    specialize (H1 0 ltac:(simpl; lia)). rewrite !Nat.add_0_r in H1.
    now rewrite H1.
  - assert (P : pushPart [] T start i = pushPart [] T' start' i').
    { unfold pushPart.
      specialize (H1 0 ltac:(simpl; lia)). rewrite !Nat.add_0_r in H1.
      now rewrite H1. }
    destruct (isCh "," c && topLevel (stepDepths c d)).
    + rewrite (IH T T' (S i) (S i') (S i) (S i') _ (pushPart args T start i)).
      * rewrite (IH T' T' (S i') (S i') (S i') (S i') _
                   (pushPart [] T' start' i')); [|reflexivity|reflexivity].
        rewrite (pushPart_app args), P, app_assoc. reflexivity.
      * intros k Hk. specialize (H2 1 (S k) ltac:(simpl; lia)).
        now rewrite !Nat.add_1_r, <- !plus_n_Sm in H2.
      * intros a b Hab. specialize (H2 (S a) (S b) ltac:(simpl; lia)).
        now rewrite <- !plus_n_Sm in H2.
    + apply IH.
      * intros k Hk. specialize (H1 (S k) ltac:(simpl; lia)).
        now rewrite <- !plus_n_Sm in H1.
      * intros a b Hab. specialize (H2 (S a) (S b) ltac:(simpl; lia)).
        now rewrite <- !plus_n_Sm in H2.
Qed.

Lemma stepDepths_plain c d : isArgPunct c = false -> stepDepths c d = d.
Proof.
  unfold isArgPunct, stepDepths. intros H.
  repeat (apply orb_false_iff in H; destruct H as [H ?]).
  now repeat match goal with E : isCh _ c = false |- _ => rewrite E; clear E end.
Qed.

Lemma isArgPunct_comma c : isArgPunct c = false -> isCh "," c = false.
Proof.
  unfold isArgPunct. intros H. now apply orb_false_iff in H.
Qed.

Lemma splitArgsFrom_plain T a :
  forall suffix i start d args,
    Forall (fun c => isArgPunct c = false) a ->
    splitArgsFrom T (a ++ suffix) i start d args
      = splitArgsFrom T suffix (i + length a) start d args.
Proof.
  induction a as [|c r IH]; intros suffix i start d args H; simpl.
  - now rewrite Nat.add_0_r.
  - inversion H as [|? ? Hc Hr]; subst.
    rewrite stepDepths_plain by exact Hc.
    rewrite isArgPunct_comma by exact Hc. simpl.
    rewrite IH by exact Hr. f_equal. lia.
Qed.

Lemma slice_all (a : jsstring) post : slice (a ++ post) 0 (length a) = a.
Proof. apply (slice_middle [] a post). Qed.

Lemma slice_shift (p l : jsstring) x y :
  slice (p ++ l) (length p + x) (length p + y) = slice l x y.
Proof.
  unfold slice. rewrite skipn_app, skipn_all2 by lia. simpl.
  f_equal; [lia|]. f_equal. lia.
Qed.

End Trimming.

Lemma splitArgsText_trimmed (argsText : jsstring) :
  Forall trimmed (splitArgsText argsText).
Proof.
  unfold splitArgsText. apply splitArgsFrom_trimmed. constructor.
Qed.

Lemma splitArgsText_at_comma (a rest : jsstring) :
  Forall (fun c => isArgPunct c = false) a ->
  splitArgsText (a ++ ch "," :: rest) = partOf a ++ splitArgsText rest /\
  splitArgsText a = partOf a.
Proof.
  intros Ha. unfold splitArgsText. split.
  - rewrite splitArgsFrom_plain by exact Ha. simpl.
    rewrite (splitArgsFrom_shift rest (a ++ ch "," :: rest) rest
               (S (length a)) 0 (S (length a)) 0).
    + rewrite pushPart_partOf, slice_all. reflexivity.
    + intros k Hk.
      replace (a ++ ch "," :: rest) with ((a ++ [ch ","]) ++ rest)
        by now rewrite <- app_assoc.
      replace (S (length a)) with (length (a ++ [ch ","]) + 0)
        by (rewrite length_app; simpl; lia).
      rewrite <- Nat.add_assoc. apply slice_shift.
    + intros x y Hxy.
      replace (a ++ ch "," :: rest) with ((a ++ [ch ","]) ++ rest)
        by now rewrite <- app_assoc.
      replace (S (length a)) with (length (a ++ [ch ","]))
        by (rewrite length_app; simpl; lia).
      apply slice_shift.
  - rewrite <- (app_nil_r a) at 2. rewrite splitArgsFrom_plain by exact Ha.
    simpl. rewrite pushPart_partOf.
    rewrite <- (app_nil_r a) at 1. rewrite slice_all. reflexivity.
Qed.


(** X8. Every part that [splitArgsText] returns is non-empty and has no
    white space at either end.  The text is cut at its first comma when
    no bracket comes before it: what stands before the comma gives the
    first part, trimmed and dropped when empty, and what stands after it
    is split on its own.  A text with no comma and no bracket is one such
    part. *)
Theorem splitArgsText_parts (argsText : jsstring) :
  Forall trimmed (splitArgsText argsText) /\
  (forall a rest,
     argsText = a ++ ch "," :: rest ->
     Forall (fun c => isArgPunct c = false) a ->
     splitArgsText argsText = partOf a ++ splitArgsText rest) /\
  (Forall (fun c => isArgPunct c = false) argsText ->
   splitArgsText argsText = partOf argsText).
Proof.
  split; [apply splitArgsText_trimmed|]. split.
  - intros a rest -> Ha. now apply splitArgsText_at_comma.
  - intros Ha. now apply (@splitArgsText_at_comma argsText []).
Qed.

(* ================================================================== *)
(** * Further properties of the parser *)
(* ================================================================== *)

Section ParserSpans.

Lemma skipWs_le text i : i <= length text -> skipWs text i <= length text.
Proof.
  intros Hi. unfold skipWs.
  destruct (skipWsFrom_spec (skipn i text) i) as ((_ & H) & _).
  rewrite length_skipn in H. lia.
Qed.

Lemma digitRun_le suffix : digitRun suffix <= length suffix.
Proof.
  induction suffix as [|c r IH]; simpl; [lia|]. destruct (isDigit c); simpl; lia.
Qed.

Lemma identRun_le suffix : length (identRun suffix) <= length suffix.
Proof.
  induction suffix as [|c r IH]; simpl; [lia|].
  destruct (isIdentPart c); simpl; lia.
Qed.

Lemma identRun_pos text i :
  testO isIdentStart (charAt text i) = true ->
  0 < length (identRun (skipn i text)).
Proof.
  unfold charAt. rewrite <- (Nat.add_0_r i) at 1.
  rewrite <- nth_error_skipn.
  destruct (skipn i text) as [|c r]; simpl; [discriminate|].
  intros H. unfold isIdentPart. rewrite H. simpl. lia.
Qed.

Lemma testO_lt (p : char -> bool) text i :
  testO p (charAt text i) = true -> i < length text.
Proof.
  destruct (charAt text i) as [c|] eqn:E; simpl; [|discriminate].
  intros _. now apply charAt_lt with c.
Qed.

Lemma run_within (text : jsstring) i n : i < length text -> n <= length (skipn i text) ->
  i + n <= length text.
Proof. rewrite length_skipn. lia. Qed.

Lemma parseNumber_within text i value j :
  parseNumber text i = Some (value, j) -> i < j <= length text.
Proof.
  intros H. pose proof (@parseNumber_slice _ _ _ _ H) as (_ & Hij & Hi).
  split; [exact Hij|]. unfold parseNumber in H.
  destruct (testO isDigit (charAt text i)); simpl in H; [|discriminate].
  pose proof (@run_within text i (digitRun (skipn i text)) Hi
                (digitRun_le _)) as H1.
  destruct (isO "." (charAt text (i + digitRun (skipn i text)))
            && testO isDigit
                 (charAt text (i + digitRun (skipn i text) + 1))) eqn:E;
    injection H as _ <-; [|exact H1].
  apply andb_prop in E; destruct E as [_ E]. apply testO_lt in E.
  apply run_within; [exact E | apply digitRun_le].
Qed.

Lemma dottedSegments_within turns text :
  forall name j, j <= length text ->
    snd (dottedSegments turns text name j) <= length text.
Proof.
  induction turns as [|t IH]; intros name j Hj; simpl; [exact Hj|].
  destruct (isO "." (charAt text (skipWs text j))); simpl; [|exact Hj].
  destruct (testO isIdentStart
              (charAt text (skipWs text (skipWs text j + 1)))) eqn:E;
    simpl; [|exact Hj].
  apply IH. apply testO_lt in E.
  apply run_within; [exact E | apply identRun_le].
Qed.

Lemma parseQualifiedIdent_within text i name j :
  parseQualifiedIdent text i = Some (name, j) -> i < j <= length text.
Proof.
  unfold parseQualifiedIdent.
  destruct (testO isIdentStart (charAt text i)) eqn:E; simpl; [|discriminate].
  intros H; injection H as H.
  pose proof (@identRun_pos text i E) as Hpos.
  pose proof (@testO_lt _ _ _ E) as Hi.
  pose proof (@run_within text i (length (identRun (skipn i text))) Hi
                (identRun_le _)) as Hrun.
  match type of H with dottedSegments ?t _ ?n ?k = _ =>
    pose proof (dottedSegments_ge t text n k) as G;
    pose proof (@dottedSegments_within t text n k Hrun) as G'
  end.
  rewrite H in G, G'; simpl in G, G'. lia.
Qed.

Lemma eqO_lt c text i : negb (eqO c (charAt text i)) = false ->
  i < length text.
Proof.
  destruct (charAt text i) as [x|] eqn:E; simpl; [|discriminate].
  intros _. now apply charAt_lt with x.
Qed.

End ParserSpans.

Ltac name_skips_within :=
  repeat match goal with
  | H : context [skipWs ?t ?i] |- _ =>
      let x := fresh "w" in
      pose proof (skipWs_ge t i); pose proof (@skipWs_le t i);
      set (x := skipWs t i) in *; clearbody x
  | |- context [skipWs ?t ?i] =>
      let x := fresh "w" in
      pose proof (skipWs_ge t i); pose proof (@skipWs_le t i);
      set (x := skipWs t i) in *; clearbody x
  end.

Ltac lexical_spans :=
  repeat match goal with
  | H : parseNumber _ _ = Some (_, _) |- _ => apply parseNumber_within in H
  | H : parseQualifiedIdent _ _ = Some (_, _) |- _ =>
      apply parseQualifiedIdent_within in H
  | H : findMatching _ _ _ _ = Some _ |- _ => apply findMatching_bounds in H
  | H : charAt _ _ = Some _ |- _ => apply charAt_lt in H
  | H : negb (eqO _ (charAt _ _)) = false |- _ => apply eqO_lt in H
  end.

Ltac span_facts :=
  repeat match goal with
  | A : consumes _ ?f, G : ?f _ = Done (_, _) |- _ => apply A in G
  | A : forall x, staysWithin _ (?f x), G : ?f _ _ = Done (_, _) |- _ =>
      apply A in G
  end.

Ltac span_step H :=
  simpl in H; break_in H; try (injection H as <- <-); subst; break_guards;
  span_facts; lexical_spans; name_skips_within; try lia.

Lemma parser_spans fuel : forall text,
  consumes text (parseAdd fuel text) /\
  (forall l, staysWithin text (parseAddLoop fuel text l)) /\
  consumes text (parseMul fuel text) /\
  (forall l, staysWithin text (parseMulLoop fuel text l)) /\
  consumes text (parseUnary fuel text) /\
  consumes text (parsePrimary fuel text) /\
  (forall e0, staysWithin text (parsePostfix fuel text e0)).
Proof.
  induction fuel as [|fuel IH]; intros text.
  - unfold consumes, staysWithin; repeat split; intros; discriminate.
  - destruct (IH text) as (A & AL & M & ML & U & P & PF).
    unfold consumes, staysWithin; repeat split; intros;
      match goal with H : _ = Done (_, _) |- _ => span_step H end.
Qed.

(* ================================================================== *)
(** * No rendering of a parsed expression shows a circumflex *)
(* ================================================================== *)

Section CaretFree.

Lemma includes_join c sep (parts : list jsstring) :
  includes c sep = false ->
  Forall (fun p => includes c p = false) parts ->
  includes c (join sep parts) = false.
Proof.
  intros Hsep H; induction H as [|p rest Hp Hrest IH]; [reflexivity|].
  destruct rest as [|q rest']; [exact Hp|].
  change (join sep (p :: q :: rest')) with (p ++ sep ++ join sep (q :: rest')).
  now rewrite !includes_app, Hp, Hsep, IH.
Qed.

Lemma noCaretTree_renders (e : Expr) :
  noCaretTree e ->
  includes caret (exprToLatex e) = false /\
  includes caret (exprToInlineText e) = false.
Proof.
  induction e as [v|n|t|b e IH|op e IH|op l r IHl IHr|o m IH|o i IHo IHi
                 |c args IHc IHargs|c args IHc IHargs] using Expr_tree_ind;
    intros H; inversion H; subst; cbn [exprToLatex exprToInlineText];
    repeat match goal with
    | I : noCaretTree ?x -> _, G : noCaretTree ?x |- _ =>
        specialize (I G); destruct I as [? ?]
    end.
  - split; [now apply escapeLatex_no_caret | assumption].
  - split; [now apply escapeLatex_no_caret | assumption].
  - split; [|assumption].
    rewrite !includes_app, escapeLatex_no_caret by assumption. reflexivity.
  - destruct b; rewrite !includes_app;
      repeat match goal with E : includes _ _ = false |- _ => rewrite E end;
      split; reflexivity.
  - rewrite !includes_app, latexWrapped_no_caret by assumption.
    repeat match goal with E : includes _ _ = false |- _ => rewrite E end.
    destruct op; split; reflexivity.
  - destruct op; rewrite !includes_app;
      rewrite ?latexWrapped_no_caret by assumption;
      repeat match goal with E : includes _ _ = false |- _ => rewrite E end;
      split; reflexivity.
  - rewrite !includes_app, escapeLatex_no_caret by assumption.
    repeat match goal with E : includes _ _ = false |- _ => rewrite E end.
    split; reflexivity.
  - rewrite !includes_app.
    repeat match goal with E : includes _ _ = false |- _ => rewrite E end.
    split; reflexivity.
  - assert (A : Forall (fun a => includes caret (exprToLatex a) = false
                                 /\ includes caret (exprToInlineText a) = false)
                       args).
    { rewrite Forall_forall in *. intros a Ha. auto. }
    rewrite !includes_app.
    rewrite (@includes_join caret (str ", ") (map exprToLatex args));
      [|reflexivity | apply Forall_map; revert A; apply Forall_impl; tauto].
    rewrite (@includes_join caret (str ",") (map exprToInlineText args));
      [|reflexivity | apply Forall_map; revert A; apply Forall_impl; tauto].
    repeat match goal with E : includes _ _ = false |- _ => rewrite E end.
    split; reflexivity.
  - assert (A : Forall (fun a => includes caret (exprToLatex a) = false
                                 /\ includes caret (exprToInlineText a) = false)
                       args).
    { rewrite Forall_forall in *. intros a Ha. auto. }
    rewrite !includes_app.
    rewrite (@includes_join caret (str ", ") (map exprToLatex args));
      [|reflexivity | apply Forall_map; revert A; apply Forall_impl; tauto].
    rewrite (@includes_join caret (str ",") (map exprToInlineText args));
      [|reflexivity | apply Forall_map; revert A; apply Forall_impl; tauto].
    repeat match goal with E : includes _ _ = false |- _ => rewrite E end.
    split; reflexivity.
Qed.

Lemma slice_charAt (text : jsstring) a b c :
  In c (slice text a b) <-> exists k, a <= k < b /\ charAt text k = Some c.
Proof.
  unfold slice, charAt. split.
  - intros H. apply In_nth_error in H. destruct H as [n Hn].
    rewrite nth_error_firstn in Hn.
    destruct (Nat.ltb_spec n (b - a)); [|discriminate].
    rewrite nth_error_skipn in Hn. exists (a + n). split; [lia | exact Hn].
  - intros (k & Hk & Hc). apply nth_error_In with (k - a).
    rewrite nth_error_firstn.
    destruct (Nat.ltb_spec (k - a) (b - a)); [|lia].
    rewrite nth_error_skipn. now replace (a + (k - a)) with k by lia.
Qed.

Lemma includes_false_iff c (s : jsstring) : includes c s = false <-> ~ In c s.
Proof.
  split; [apply includes_false_not_In|].
  intros H. destruct (includes c s) eqn:E; [|reflexivity].
  apply existsb_exists in E. destruct E as (x & Hx & Hcx).
  apply N.eqb_eq in Hcx. subst x. contradiction.
Qed.

Lemma cleanRange_slice text a b :
  cleanRange text a b <-> includes caret (slice text a b) = false.
Proof.
  rewrite includes_false_iff, slice_charAt. unfold cleanRange. split.
  - intros H (k & Hk & Hc). now apply (H k Hk).
  - intros H k Hk Hc. apply H. now exists k.
Qed.

Lemma cleanRange_sub text a b a' b' :
  cleanRange text a b -> a <= a' -> b' <= b -> cleanRange text a' b'.
Proof. intros H Ha Hb k Hk. apply H. lia. Qed.

Lemma cleanRange_whole text a b :
  includes caret text = false -> cleanRange text a b.
Proof.
  intros H. apply cleanRange_slice.
  eapply includes_false_sub; [apply slice_incl | exact H].
Qed.

Lemma trimStart_incl s : incl (trimStart s) s.
Proof.
  destruct (trimStart_suffix s) as [w Hw]. intros x Hx.
  rewrite Hw. apply in_or_app. now right.
Qed.

Lemma trim_incl s : incl (trim s) s.
Proof.
  unfold trim, trimEnd. intros x Hx.
  apply in_rev in Hx. apply trimStart_incl in Hx. apply in_rev in Hx.
  now apply trimStart_incl.
Qed.

Lemma pushPart_no_caret args argsText start i :
  includes caret argsText = false ->
  Forall (fun p => includes caret p = false) args ->
  Forall (fun p => includes caret p = false) (pushPart args argsText start i).
Proof.
  intros Hc Ha; unfold pushPart.
  destruct (trim (slice argsText start i)) as [|c r] eqn:E; [exact Ha|].
  apply Forall_app; split; [exact Ha|]. constructor; [|constructor].
  rewrite <- E.
  eapply includes_false_sub; [|exact Hc].
  intros x Hx. apply trim_incl in Hx. now apply slice_incl in Hx.
Qed.

Lemma splitArgsFrom_no_caret argsText suffix :
  includes caret argsText = false ->
  forall i start d args,
    Forall (fun p => includes caret p = false) args ->
    Forall (fun p => includes caret p = false)
           (splitArgsFrom argsText suffix i start d args).
Proof.
  intros Hc. induction suffix as [|c r IH]; intros i start d args Ha; simpl.
  - now apply pushPart_no_caret.
  - destruct (isCh "," c && topLevel (stepDepths c d)); apply IH; auto.
    now apply pushPart_no_caret.
Qed.

Lemma collect_no_caret (rs : list (outcome Expr)) es :
  Forall (fun r => forall e, r = Done e -> noCaretTree e) rs ->
  collect rs = Done es -> Forall noCaretTree es.
Proof.
  intros H; revert es; induction H as [|r rs Hr _ IH]; intros es; simpl.
  - intros E; injection E as <-; constructor.
  - destruct r as [e| |]; try discriminate;
      destruct (collect rs) as [es'| |]; try discriminate.
    intros E; injection E as <-. constructor; [now apply Hr | now apply IH].
Qed.

Lemma arguments_no_caret fuel text a b es :
  (forall p e, parseExpressionF fuel p = Done e -> noCaretTree e) ->
  collect (map (fun p => orRaw p (parseExpressionF fuel p))
               (splitArgsText (slice text a b))) = Done es ->
  cleanRange text a b ->
  Forall noCaretTree es.
Proof.
  intros IH Hcol Hr. apply cleanRange_slice in Hr.
  revert Hcol. apply collect_no_caret, Forall_map.
  pose proof (@splitArgsFrom_no_caret (slice text a b) (slice text a b) Hr
                0 0 depths0 [] (Forall_nil _)) as Hparts.
  fold (splitArgsText (slice text a b)) in Hparts.
  revert Hparts. apply Forall_impl. intros p Hp e.
  destruct (parseExpressionF fuel p) eqn:E; simpl;
    intros H; try discriminate; injection H as <-;
    [now apply (IH p) | now constructor].
Qed.

Lemma index_no_caret fuel text a b e :
  (forall p e, parseExpressionF fuel p = Done e -> noCaretTree e) ->
  orRaw (trim (slice text a b))
        (parseExpressionF fuel (trim (slice text a b))) = Done e ->
  cleanRange text a b ->
  noCaretTree e.
Proof.
  intros IH H Hr. apply cleanRange_slice in Hr.
  destruct (parseExpressionF fuel (trim (slice text a b))) eqn:E; simpl in H;
    try discriminate; injection H as <-; [now apply IH in E|].
  constructor. eapply includes_false_sub; [apply trim_incl | exact Hr].
Qed.

Lemma parseNumber_no_caret text i value j :
  parseNumber text i = Some (value, j) -> cleanRange text i j ->
  includes caret value = false.
Proof.
  intros H Hr. apply parseNumber_slice in H. destruct H as (-> & _).
  now apply cleanRange_slice.
Qed.

Lemma parseQualifiedIdent_no_caret text i name j :
  parseQualifiedIdent text i = Some (name, j) -> includes caret name = false.
Proof. intros H. apply parseQualifiedIdent_leaf in H. apply H. Qed.

End CaretFree.

Ltac note_spans As ALs Ms MLs Us Ps PFs :=
  repeat match goal with
  | G : parseAdd _ _ _ = Done (_, _) |- _ => generalize G; apply As in G
  | G : parseMul _ _ _ = Done (_, _) |- _ => generalize G; apply Ms in G
  | G : parseUnary _ _ _ = Done (_, _) |- _ => generalize G; apply Us in G
  | G : parsePrimary _ _ _ = Done (_, _) |- _ => generalize G; apply Ps in G
  | G : parseAddLoop _ _ _ _ = Done (_, _) |- _ =>
      generalize G; apply ALs in G
  | G : parseMulLoop _ _ _ _ = Done (_, _) |- _ =>
      generalize G; apply MLs in G
  | G : parsePostfix _ _ _ _ = Done (_, _) |- _ =>
      generalize G; apply PFs in G
  | G : parseNumber _ _ = Some (_, _) |- _ =>
      generalize G; apply parseNumber_within in G
  | G : parseQualifiedIdent _ _ = Some (_, _) |- _ =>
      generalize G; apply parseQualifiedIdent_within in G
  | G : findMatching _ _ _ _ = Some _ |- _ => apply findMatching_bounds in G
  | G : charAt _ _ = Some _ |- _ => apply charAt_lt in G
  | G : negb (eqO _ (charAt _ _)) = false |- _ => apply eqO_lt in G
  end;
  intros; name_skips_within.

Ltac sub_range :=
  match goal with
  | R : cleanRange _ _ _ |- cleanRange _ _ _ =>
      apply (cleanRange_sub R); lia
  end.

Lemma parser_no_caret fuel : forall text,
  (forall e, parseExpressionF fuel text = Done e -> noCaretTree e) /\
  (forall i e j, parseAdd fuel text i = Done (e, j) ->
     cleanRange text i j -> noCaretTree e) /\
  (forall l i e j, parseAddLoop fuel text l i = Done (e, j) ->
     noCaretTree l -> cleanRange text i j -> noCaretTree e) /\
  (forall i e j, parseMul fuel text i = Done (e, j) ->
     cleanRange text i j -> noCaretTree e) /\
  (forall l i e j, parseMulLoop fuel text l i = Done (e, j) ->
     noCaretTree l -> cleanRange text i j -> noCaretTree e) /\
  (forall i e j, parseUnary fuel text i = Done (e, j) ->
     cleanRange text i j -> noCaretTree e) /\
  (forall i e j, parsePrimary fuel text i = Done (e, j) ->
     cleanRange text i j -> noCaretTree e) /\
  (forall e0 i e j, parsePostfix fuel text e0 i = Done (e, j) ->
     noCaretTree e0 -> cleanRange text i j -> noCaretTree e).
Proof.
  induction fuel as [|fuel IH]; intros text.
  - repeat split; intros; discriminate.
  - assert (E : forall p e, parseExpressionF fuel p = Done e -> noCaretTree e)
      by (intros p; apply (IH p)).
    destruct (IH text) as (_ & A & AL & M & ML & U & P & PF).
    destruct (parser_spans fuel text) as (As & ALs & Ms & MLs & Us & Ps & PFs).
    unfold consumes in As, Ms, Us, Ps. unfold staysWithin in ALs, MLs, PFs.
    split.
    + intros e H; simpl in H.
      destruct (includes caret text) eqn:Hc; [discriminate|].
      break_in H. injection H as <-.
      eapply A; [eassumption | now apply cleanRange_whole].
    + repeat split; intros;
        match goal with H : _ = Done (_, _) |- _ =>
          simpl in H; break_in H; try (injection H as <- <-); subst
        end;
        break_guards;
        note_spans As ALs Ms MLs Us Ps PFs;
        repeat match goal with
        | G : parseAdd _ _ _ = Done (_, _) |- _ => apply A in G; [|sub_range]
        | G : parseMul _ _ _ = Done (_, _) |- _ => apply M in G; [|sub_range]
        | G : parseUnary _ _ _ = Done (_, _) |- _ => apply U in G; [|sub_range]
        | G : parsePrimary _ _ _ = Done (_, _) |- _ =>
            apply P in G; [|sub_range]
        | G : parseNumber _ _ = Some (_, _) |- _ =>
            apply parseNumber_no_caret in G; [|sub_range]
        | G : parseQualifiedIdent _ _ = Some (_, _) |- _ =>
            apply parseQualifiedIdent_no_caret in G
        | G : collect (map _ (splitArgsText (slice _ _ _))) = Done _ |- _ =>
            apply (@arguments_no_caret fuel _ _ _ _ E) in G; [|sub_range]
        | G : orRaw (trim (slice _ _ _)) _ = Done _ |- _ =>
            apply (@index_no_caret fuel _ _ _ _ E) in G; [|sub_range]
        end;
        try match goal with
        | G : parseAddLoop _ _ _ _ = Done (_, _) |- _ =>
            eapply AL; [exact G | | sub_range]
        | G : parseMulLoop _ _ _ _ = Done (_, _) |- _ =>
            eapply ML; [exact G | | sub_range]
        | G : parsePostfix _ _ _ _ = Done (_, _) |- _ =>
            eapply PF; [exact G | | sub_range]
        end;
        auto 6 using noCaretTree;
        try (constructor; apply cleanRange_slice; intros k Hk; lia).
Qed.

(* ================================================================== *)
(** * What the parser returns *)
(* ================================================================== *)

(** X10. An expression that [parseExpressionAt] finds ends inside the text,
    after the first character from [start] on that is not white space;
    the text it spans has no circumflex, and neither has a rendering of
    the expression. *)
Theorem parseExpressionAt_span (text : jsstring) (start : nat)
  (e : Expr) (end_ : nat) :
  parseExpressionAt text start = Done (e, end_) ->
  start <= skipWs text start /\ skipWs text start < end_ <= length text /\
  includes caret (slice text start end_) = false /\
  includes caret (exprToLatex e) = false /\
  includes caret (exprToInlineText e) = false.
Proof.
  unfold parseExpressionAt. intros H.
  destruct (parseAdd (parseFuel (length text)) text start)
    as [[e' j]| |] eqn:Hp; try discriminate.
  destruct (includes caret (slice text start j)) eqn:Hc; [discriminate|].
  injection H as <- <-.
  split; [apply skipWs_ge|].
  split; [now apply (parser_spans (parseFuel (length text)) text) in Hp|].
  split; [exact Hc|].
  apply noCaretTree_renders.
  destruct (parser_no_caret (parseFuel (length text)) text) as (_ & A & _).
  apply (A _ _ _ Hp). now apply cleanRange_slice.
Qed.

Lemma parseExpressionAt_span_witness :
  3 <= skipWs (str "x = a * (b + 1);") 3 /\
  skipWs (str "x = a * (b + 1);") 3 < 15 <= length (str "x = a * (b + 1);").
Proof.
  destruct (@parseExpressionAt_span (str "x = a * (b + 1);") 3
              (EBinary Times (EIdent (str "a"))
                 (EGroup Paren
                    (EBinary Plus (EIdent (str "b")) (ENumber (str "1")))))
              15 eq_refl) as (H1 & H2 & _).
  split; assumption.
Defined.

(** X11. No rendering of an expression that [parseExpression] returns has a
    circumflex in it, whatever nodes the expression is made of. *)
Theorem parseExpression_renders_without_caret (text : jsstring) (e : Expr) :
  parseExpression text = Done e ->
  includes caret (exprToLatex e) = false /\
  includes caret (exprToInlineText e) = false.
Proof.
  intros H. apply noCaretTree_renders.
  now apply (parser_no_caret (parseFuel (length text)) text).
Qed.

Lemma parseExpression_renders_without_caret_witness :
  includes caret
    (exprToLatex (ECall (EIdent (str "f"))
                    [EIndex (EIdent (str "a")) (EIdent (str "i"));
                     EUnary Neg (ENumber (str "2"))])) = false.
Proof.
  apply (@parseExpression_renders_without_caret (str "f(a[i], -2)")
           (ECall (EIdent (str "f"))
              [EIndex (EIdent (str "a")) (EIdent (str "i"));
               EUnary Neg (ENumber (str "2"))])).
  reflexivity.
Defined.

Lemma parseExpressionAt_answers_span text start e end_ :
  parseExpressionAt text start = Done (e, end_) ->
  start < end_ <= length text.
Proof.
  unfold parseExpressionAt. intros H.
  destruct (parseAdd (parseFuel (length text)) text start)
    as [[e' j]| |] eqn:Hp; try discriminate.
  destruct (includes caret (slice text start j)); [discriminate|].
  injection H as <- <-.
  apply (parser_spans (parseFuel (length text)) text) in Hp.
  pose proof (skipWs_ge text start). lia.
Qed.

Section BlankText.

Lemma skipWsFrom_blank suffix i :
  Forall (fun c => isSpace c = true) suffix ->
  skipWsFrom suffix i = i + length suffix.
Proof.
  intros H; revert i; induction H as [|c r Hc _ IH]; intros i; simpl; [lia|].
  rewrite Hc, IH. lia.
Qed.

End BlankText.

(** A text of white space only, the empty text among them, has no
    parse. *)
Lemma parseExpression_blank (text : jsstring) :
  Forall (fun c => isSpace c = true) text -> parseExpression text = NoMatch.
Proof.
  intros Hb. pose proof (parseExpression_answers text) as Hans.
  unfold parseExpression in *.
  destruct (parseFuel (length text)) as [|fuel] eqn:Ef;
    [exfalso; now apply Hans|].
  simpl in *. destruct (includes caret text); [reflexivity|].
  destruct (parseAdd fuel text 0) as [[e j]| |] eqn:Hp;
    [|reflexivity|exfalso; now apply Hans].
  apply (parser_spans fuel text) in Hp.
  unfold skipWs in Hp at 1. simpl in Hp.
  rewrite (skipWsFrom_blank 0 Hb) in Hp. lia.
Qed.


Section RawNodes.

Lemma slice_empty (text : jsstring) a b : b <= a -> slice text a b = [].
Proof.
  intros H. unfold slice. now replace (b - a) with 0 by lia.
Qed.

Lemma parser_raw_empty fuel : forall text,
  (forall i e j, parseAdd fuel text i = Done (e, j) -> ~ rawWithText e) /\
  (forall l i e j, parseAddLoop fuel text l i = Done (e, j) ->
     ~ rawWithText l -> ~ rawWithText e) /\
  (forall i e j, parseMul fuel text i = Done (e, j) -> ~ rawWithText e) /\
  (forall l i e j, parseMulLoop fuel text l i = Done (e, j) ->
     ~ rawWithText l -> ~ rawWithText e) /\
  (forall i e j, parseUnary fuel text i = Done (e, j) -> ~ rawWithText e) /\
  (forall i e j, parsePrimary fuel text i = Done (e, j) -> ~ rawWithText e) /\
  (forall e0 i e j, parsePostfix fuel text e0 i = Done (e, j) ->
     ~ rawWithText e0 -> ~ rawWithText e).
Proof.
  induction fuel as [|fuel IH]; intros text.
  - repeat split; intros; discriminate.
  - destruct (IH text) as (A & AL & M & ML & U & P & PF).
    repeat split; intros;
      match goal with H : _ = Done (_, _) |- _ =>
        simpl in H; break_in H; try (injection H as <- <-); subst
      end;
      break_guards;
      repeat match goal with
      | G : parseAdd _ _ _ = Done (_, _) |- _ => apply A in G
      | G : parseMul _ _ _ = Done (_, _) |- _ => apply M in G
      | G : parseUnary _ _ _ = Done (_, _) |- _ => apply U in G
      | G : parsePrimary _ _ _ = Done (_, _) |- _ => apply P in G
      end;
      try match goal with
      | G : parseAddLoop _ _ _ _ = Done (_, _) |- _ =>
          eapply AL; [exact G|]
      | G : parseMulLoop _ _ _ _ = Done (_, _) |- _ =>
          eapply ML; [exact G|]
      | G : parsePostfix _ _ _ _ = Done (_, _) |- _ =>
          eapply PF; [exact G|]
      end;
      try assumption; try (simpl; tauto).
    lexical_spans.
    rewrite slice_empty; [simpl; tauto|].
    match goal with |- _ <= skipWs ?t ?i => apply (skipWs_ge t i) end.
Qed.

End RawNodes.

(** X12. The parser itself makes a raw node only for a [new] that no argument
    list follows, and the text it gives that node is always empty: the
    slice it takes ends where the constructor name ends and starts no
    earlier.  So a raw node at the root of a parsed expression has no
    text, as for [newFoo]. *)
Theorem parseExpression_raw_is_empty (text t : jsstring) :
  (parseExpression text = Done (ERaw t) -> t = []) /\
  (forall start end_,
     parseExpressionAt text start = Done (ERaw t, end_) -> t = []) /\
  parseExpression (str "newFoo") = Done (ERaw []).
Proof.
  assert (R : forall i j, parseAdd (parseFuel (length text)) text i
                          = Done (ERaw t, j) -> t = []).
  { intros i j H. apply (parser_raw_empty (parseFuel (length text)) text) in H.
    destruct t; [reflexivity | exfalso; apply H; exact I]. }
  repeat split.
  - unfold parseExpression. destruct (parseFuel (length text)) as [|fuel] eqn:Ef;
      [discriminate|].
    simpl. intros H. break_in H. injection H as ->.
    match goal with G : parseAdd fuel text 0 = Done (ERaw t, ?j) |- _ =>
      apply (parser_raw_empty fuel text) in G;
      destruct t; [reflexivity | exfalso; apply G; exact I]
    end.
  - unfold parseExpressionAt. intros start end_ H. break_in H.
    injection H as -> ->. eauto.
Qed.

Section Operators.

Lemma exprContainsOperator_child c e :
  child c e -> exprContainsOperator c = true ->
  exprContainsOperator e = true.
Proof.
  intros Hc H; destruct Hc; simpl; rewrite ?H, ?orb_true_r; try reflexivity.
  - apply orb_true_iff; left. apply existsb_exists. now exists a.
  - apply orb_true_iff; left. apply existsb_exists. now exists a.
Qed.

End Operators.

(** X13. [exprContainsOperator] is true of exactly the trees that hold a
    binary operator node, at any depth and under any kind of node. *)
Theorem exprContainsOperator_iff (e : Expr) :
  exprContainsOperator e = true <-> hasBinaryNode e.
Proof.
  split; [apply exprContainsOperator_binary|].
  intros (op & l & r & H).
  induction H as [|c e _ IH Hc]; [reflexivity|].
  now apply exprContainsOperator_child with c.
Qed.

(* ================================================================== *)
(** * The matches of the Generic-Expression detector *)
(* ================================================================== *)

Section InOrder.

Lemma inOrder_snoc from spans a b :
  inOrder from (spans ++ [(a, b)]) <->
  inOrder from spans /\ lastEnd from spans <= a /\ a < b.
Proof.
  revert from; induction spans as [|[x y] rest IH]; intros from; simpl.
  - tauto.
  - rewrite IH. tauto.
Qed.

Lemma lastEnd_snoc from spans a b : lastEnd from (spans ++ [(a, b)]) = b.
Proof.
  revert from; induction spans as [|[x y] rest IH]; intros from; simpl;
    [reflexivity | apply IH].
Qed.

Lemma trimTrailing_spec maskedText i e :
  trimTrailing maskedText i e <= e /\
  (i <= e -> i <= trimTrailing maskedText i e) /\
  (i < trimTrailing maskedText i e ->
   testO isSpace (charAt maskedText (trimTrailing maskedText i e - 1))
     = false).
Proof.
  induction e as [|e IH]; simpl; [repeat split; lia|].
  destruct (i <? S e) eqn:Hi; simpl.
  - apply Nat.ltb_lt in Hi.
    destruct (testO isSpace (charAt maskedText e)) eqn:Hs.
    + destruct IH as (H1 & H2 & H3). repeat split; [lia | lia | exact H3].
    + simpl. rewrite Nat.sub_0_r. repeat split; try lia. intros _; exact Hs.
  - apply Nat.ltb_ge in Hi. repeat split; lia.
Qed.

End InOrder.

Section ExpressionDetector.

Variables text maskedText : jsstring.
Variable maxMatches : nat.

(** An invariant of the offset and of the matches found so far. *)
Variable Inv : nat -> list ExpressionMatch -> Prop.

Hypothesis Inv_skip : forall i i' results,
  Inv i results -> i <= i' -> Inv i' results.

Hypothesis Inv_push : forall i results parsed parsedEnd,
  Inv i results ->
  length results < maxMatches ->
  i < length maskedText ->
  testO isStartChar (charAt maskedText i) = true ->
  (forall c, 0 < i -> charAt maskedText (i - 1) = Some c ->
             isBoundaryChar c = true) ->
  parseExpressionAt maskedText i = Done (parsed, parsedEnd) ->
  isCallOrNew parsed = false ->
  let end_ := trimTrailing maskedText i parsedEnd in
  i < end_ ->
  includes caret (slice maskedText i end_) = false ->
  (forall c, charAt maskedText end_ = Some c -> isBoundaryChar c = true) ->
  exprContainsOperator parsed = true ->
  Inv end_
      (results ++
       [ {| exprStart := i; exprEnd := end_;
            exprText := slice text i end_;
            expr := parsed;
            exprLatex := exprToLatex parsed;
            exprInlineText := exprToInlineText parsed |} ]).

Lemma boundary_guard (b : bool) (o : option char) :
  b && negb (match o with Some c => isBoundaryChar c | None => true end)
    = false ->
  forall c, b = true -> o = Some c -> isBoundaryChar c = true.
Proof.
  intros H c -> ->. simpl in H. now apply negb_false_iff in H.
Qed.

Lemma findExpressionsFrom_invariant turns :
  forall i results ms,
    Inv i results ->
    findExpressionsFrom turns text maskedText maxMatches i results = Done ms ->
    exists i', Inv i' ms.
Proof.
  induction turns as [|turns IH]; intros i results ms HI; simpl.
  - destruct (negb ((i <? length maskedText)
                    && (length results <? maxMatches)));
      [|discriminate].
    intros H; injection H as <-. now exists i.
  - destruct (i <? length maskedText) eqn:Hi; simpl;
      [|intros H; injection H as <-; now exists i].
    apply Nat.ltb_lt in Hi.
    destruct (length results <? maxMatches) eqn:Hn; simpl;
      [|intros H; injection H as <-; now exists i].
    apply Nat.ltb_lt in Hn.
    destruct (testO isStartChar (charAt maskedText i)) eqn:Hstart; simpl;
      [|apply IH, (Inv_skip HI); lia].
    destruct ((0 <? i)
              && negb (match charAt maskedText (i - 1) with
                       | Some c => isBoundaryChar c | None => true end))
      eqn:Hbefore; [apply IH, (Inv_skip HI); lia|].
    destruct (parseExpressionAt maskedText i) as [[parsed parsedEnd]| |]
      eqn:Hparse; [|apply IH, (Inv_skip HI); lia | discriminate].
    destruct (isCallOrNew parsed) eqn:Hcall; [apply IH, (Inv_skip HI); lia|].
    destruct (trimTrailing maskedText i parsedEnd <=? i) eqn:Hend;
      [apply IH, (Inv_skip HI); lia|].
    apply Nat.leb_gt in Hend.
    destruct (includes caret
                (slice maskedText i (trimTrailing maskedText i parsedEnd)))
      eqn:Hcaret; [apply IH, (Inv_skip HI); lia|].
    destruct ((trimTrailing maskedText i parsedEnd <? length maskedText)
              && negb (match charAt maskedText
                               (trimTrailing maskedText i parsedEnd) with
                       | Some c => isBoundaryChar c | None => true end))
      eqn:Hafter; [apply IH, (Inv_skip HI); lia|].
    destruct (exprContainsOperator parsed) eqn:Hop; simpl;
      [|apply IH, (Inv_skip HI); lia].
    apply IH. apply (Inv_push HI); try assumption.
    + intros c H0 Hc. apply (@boundary_guard _ _ Hbefore c); [|exact Hc].
      now apply Nat.ltb_lt.
    + intros c Hc. apply (@boundary_guard _ _ Hafter c); [|exact Hc].
      apply Nat.ltb_lt. now apply charAt_lt with c.
Qed.

End ExpressionDetector.

Lemma findExpressions_in_order
  (text maskedText : jsstring) (maxMatches : nat) (ms : list ExpressionMatch) :
  findExpressions text maskedText maxMatches = Done ms ->
  inOrder 0 (map exprSpan ms) /\
  lastEnd 0 (map exprSpan ms) <= length maskedText /\
  length ms <= maxMatches.
Proof.
  intros H. unfold findExpressions in H.
  apply (@findExpressionsFrom_invariant text maskedText maxMatches
           (fun i rs => inOrder 0 (map exprSpan rs) /\
                        lastEnd 0 (map exprSpan rs) <= i /\
                        lastEnd 0 (map exprSpan rs) <= length maskedText /\
                        length rs <= maxMatches)) with (i := 0) (results := [])
    in H.
  - destruct H as (i' & H1 & _ & H3 & H4). auto.
  - intros i i' rs (H1 & H2 & H3 & H4) Hi. repeat split; auto; lia.
  - intros i rs parsed parsedEnd (H1 & H2 & H3 & H4) Hn Hi _ _ Hp _ end_
      Hend _ _ _.
    assert (Hle : end_ <= length maskedText).
    { apply parseExpressionAt_answers_span in Hp.
      pose proof (trimTrailing_spec maskedText i parsedEnd) as (T & _).
      unfold end_. lia. }
    rewrite map_app, length_app. simpl. unfold exprSpan at 2 4 6. simpl.
    rewrite inOrder_snoc, !lastEnd_snoc. repeat split; auto; lia.
  - simpl. repeat split; lia.
Qed.


Lemma parseExpressionAt_noCaretTree text start e end_ :
  parseExpressionAt text start = Done (e, end_) -> noCaretTree e.
Proof.
  unfold parseExpressionAt. intros H.
  destruct (parseAdd (parseFuel (length text)) text start)
    as [[e' j]| |] eqn:Hp; try discriminate.
  destruct (includes caret (slice text start j)) eqn:Hc; [discriminate|].
  injection H as <- <-.
  destruct (parser_no_caret (parseFuel (length text)) text) as (_ & A & _).
  apply (A _ _ _ Hp). now apply cleanRange_slice.
Qed.

Lemma findExpressions_recorded
  (text maskedText : jsstring) (maxMatches : nat) (ms : list ExpressionMatch) :
  findExpressions text maskedText maxMatches = Done ms ->
  Forall (recordedMatch text maskedText) ms.
Proof.
  intros H. unfold findExpressions in H.
  apply (@findExpressionsFrom_invariant text maskedText maxMatches
           (fun _ rs => Forall (recordedMatch text maskedText) rs))
    with (i := 0) (results := []) in H.
  - now destruct H as (_ & H).
  - auto.
  - intros i rs parsed parsedEnd Hrs _ Hi Hstart Hbefore Hp _ end_
      Hend _ Hafter _.
    apply Forall_app; split; [exact Hrs|]. constructor; [|constructor].
    pose proof (noCaretTree_renders (parseExpressionAt_noCaretTree _ _ Hp))
      as (L & T).
    constructor; simpl; try reflexivity; try assumption.
    + exists parsedEnd. split; [exact Hp | reflexivity].
    + now apply trimTrailing_spec.
  - constructor.
Qed.


(** X14. [findExpressions] ends on every text with matches that come in
    the order of the text and do not overlap: each is a span of one
    character or more inside the masked text and starts no earlier than
    the one before it ends; there are never more than [maxMatches].
    Every match records the expression that the parser finds at its start
    in the masked text, cut back over trailing white space; its text is
    the slice of the document, its renderings are those of the expression
    and have no circumflex, it starts at a start character and both its
    ends are at boundaries. *)
Theorem findExpressions_matches
  (text maskedText : jsstring) (maxMatches : nat) :
  exists ms,
    findExpressions text maskedText maxMatches = Done ms /\
    inOrder 0 (map exprSpan ms) /\
    lastEnd 0 (map exprSpan ms) <= length maskedText /\
    length ms <= maxMatches /\
    Forall (recordedMatch text maskedText) ms.
Proof.
  destruct (@findExpressionsFrom_arithmetic (length maskedText) text maskedText
              maxMatches 0 []) as (ms & Hms & _); [lia | constructor |].
  fold (findExpressions text maskedText maxMatches) in Hms.
  exists ms. split; [exact Hms|].
  destruct (findExpressions_in_order _ _ _ Hms) as (H1 & H2 & H3).
  repeat split; try assumption.
  now apply findExpressions_recorded with maxMatches.
Qed.

(* ================================================================== *)
(** * Further properties of the renderers *)
(* ================================================================== *)

Section Escaping.

Lemma flat_map_flat_map (f g : char -> jsstring) (l : jsstring) :
  flat_map g (flat_map f l) = flat_map (fun c => flat_map g (f c)) l.
Proof.
  induction l as [|x l IH]; simpl; [reflexivity|].
  now rewrite flat_map_app, IH.
Qed.

Lemma escapedChar_step c :
  flat_map (fun c => if isLatexSpecial c then [backslash; c] else [c])
           (if N.eqb c backslash then str "\textbackslash{}" else [c])
  = escapedChar c.
Proof.
  unfold escapedChar. destruct (N.eqb c backslash); [reflexivity|].
  simpl. destruct (isLatexSpecial c); reflexivity.
Qed.

End Escaping.

Lemma escapeLatex_flat_map (s : jsstring) :
  escapeLatex s = flat_map escapedChar s.
Proof.
  unfold escapeLatex. rewrite flat_map_flat_map.
  apply flat_map_ext. intros c. apply escapedChar_step.
Qed.

Lemma escapeLatex_escaped (text : jsstring) (k : nat) (c : char) :
  charAt (escapeLatex text) k = Some c -> isLatexSpecial c = true ->
  exists k', k = S k' /\ charAt (escapeLatex text) k' = Some backslash.
Proof.
  unfold escapeLatex.
  generalize (flat_map (fun c => if N.eqb c backslash
                                 then str "\textbackslash{}" else [c]) text).
  intros step1.
  revert k. induction step1 as [|x l IH]; intros k Hk Hc.
  - unfold charAt in Hk. destruct k; discriminate.
  - cbn [flat_map] in *. destruct (isLatexSpecial x) eqn:Hx.
    + destruct k as [|[|k]]; unfold charAt in *; simpl in *.
      * injection Hk as <-. discriminate.
      * exists 0. split; reflexivity.
      * destruct (IH k Hk Hc) as (k' & -> & Hk').
        exists (S (S k')). split; [reflexivity | exact Hk'].
    + destruct k as [|k]; unfold charAt in *; simpl in *.
      * injection Hk as <-. congruence.
      * destruct (IH k Hk Hc) as (k' & -> & Hk').
        exists (S k'). split; [reflexivity | exact Hk'].
Qed.

(** X15. The two replacements of [escapeLatex] act as one substitution,
    character by character: a special character gets a backslash in
    front, any other character but the backslash stays, and a backslash
    becomes [\textbackslash] followed by two escaped braces.  So the
    escaping of a concatenation is the concatenation of the escapings,
    and in the result every special character stands right after a
    backslash. *)
Theorem escapeLatex_charwise (text : jsstring) :
  escapeLatex text = flat_map escapedChar text /\
  (forall rest, escapeLatex (text ++ rest)
                = escapeLatex text ++ escapeLatex rest) /\
  (forall k c,
     charAt (escapeLatex text) k = Some c -> isLatexSpecial c = true ->
     exists k', k = S k' /\ charAt (escapeLatex text) k' = Some backslash).
Proof.
  split; [apply escapeLatex_flat_map|]. split.
  - intros rest. rewrite !escapeLatex_flat_map. apply flat_map_app.
  - intros k c. apply escapeLatex_escaped.
Qed.

Section Superscripts.

Lemma superscriptOf_digit c :
  isDigit c = true ->
  isDigit (superscriptOf c) = false /\ superscriptOf c <> caret /\
  forall c', isDigit c' = true -> superscriptOf c' = superscriptOf c -> c' = c.
Proof.
  intros H. unfold isDigit, inRange in H.
  apply andb_prop in H. destruct H as [H1 H2].
  apply N.leb_le in H1. apply N.leb_le in H2.
  assert (C : (c = 48 \/ c = 49 \/ c = 50 \/ c = 51 \/ c = 52 \/ c = 53
               \/ c = 54 \/ c = 55 \/ c = 56 \/ c = 57)%N) by lia.
  assert (D : forall c', isDigit c' = true ->
              (c' = 48 \/ c' = 49 \/ c' = 50 \/ c' = 51 \/ c' = 52 \/ c' = 53
               \/ c' = 54 \/ c' = 55 \/ c' = 56 \/ c' = 57)%N).
  { intros c' H'. unfold isDigit, inRange in H'.
    apply andb_prop in H'. destruct H' as [G1 G2].
    apply N.leb_le in G1. apply N.leb_le in G2. lia. }
  repeat split.
  - repeat (destruct C as [->|C]; [reflexivity|]). subst; reflexivity.
  - repeat (destruct C as [->|C]; [discriminate|]). subst; discriminate.
  - intros c' H' E. specialize (D c' H').
    repeat (destruct C as [->|C];
            [repeat (destruct D as [->|D];
                     [first [reflexivity | discriminate E]|]);
             subst; first [reflexivity | discriminate E]|]).
    subst.
    repeat (destruct D as [->|D]; [first [reflexivity | discriminate E]|]).
    subst; reflexivity.
Qed.

Lemma toSuperscriptDigits_inv v sup :
  toSuperscriptDigits v = Some sup ->
  forallb isDigit v = true /\ sup = map superscriptOf v /\ v <> [].
Proof.
  intros H. unfold toSuperscriptDigits in H.
  destruct v as [|c r]; [discriminate|].
  destruct (forallb isDigit (c :: r)) eqn:E; [|discriminate].
  injection H as <-. repeat split; discriminate.
Qed.

Lemma toSuperscriptDigits_some value :
  digitsOnly value <-> exists sup, toSuperscriptDigits value = Some sup.
Proof.
  split.
  - intros [Hne Hd]. unfold toSuperscriptDigits.
    destruct value as [|c r]; [congruence|]. rewrite Hd. eauto.
  - intros [sup H]. apply toSuperscriptDigits_inv in H.
    unfold digitsOnly. tauto.
Qed.

Lemma toSuperscriptDigits_no_caret value sup :
  toSuperscriptDigits value = Some sup -> includes caret sup = false.
Proof.
  intros H. apply toSuperscriptDigits_inv in H. destruct H as (Hd & -> & _).
  induction value as [|c r IH]; [reflexivity|].
  cbn [forallb] in Hd. apply andb_prop in Hd. destruct Hd as [Hc Hr].
  destruct (superscriptOf_digit c Hc) as (_ & Hn & _).
  unfold includes in *. cbn [map existsb].
  replace (N.eqb caret (superscriptOf c)) with false
    by (symmetry; apply N.eqb_neq; congruence).
  now apply IH.
Qed.

End Superscripts.

(** X16. [toSuperscriptDigits] answers exactly for one ASCII digit or more.
    Its answer has a character for each digit, none of them an ASCII digit
    or a circumflex, and no other literal has the same answer. *)
Theorem toSuperscriptDigits_digits (value : jsstring) :
  (digitsOnly value <-> exists sup, toSuperscriptDigits value = Some sup) /\
  forall sup, toSuperscriptDigits value = Some sup ->
    length sup = length value /\
    existsb isDigit sup = false /\ includes caret sup = false /\
    forall value', toSuperscriptDigits value' = Some sup -> value' = value.
Proof.
  split; [apply toSuperscriptDigits_some|].
  intros sup H. pose proof (toSuperscriptDigits_no_caret _ H) as Hcaret.
  apply toSuperscriptDigits_inv in H. destruct H as (Hd & -> & _).
  split; [apply length_map|].
  split; [|split; [exact Hcaret|]].
  - clear Hcaret. induction value as [|c r IH]; [reflexivity|].
    cbn [forallb] in Hd. apply andb_prop in Hd. destruct Hd as [Hc Hr].
    cbn [map existsb].
    destruct (superscriptOf_digit c Hc) as (-> & _). now apply IH.
  - intros value' H'. apply toSuperscriptDigits_inv in H'.
    destruct H' as (Hd' & E & _). clear Hcaret.
    revert value' Hd' E.
    induction value as [|c r IH]; intros [|c' r'] Hd' E; try discriminate;
      [reflexivity|].
    cbn [forallb map] in *. apply andb_prop in Hd. destruct Hd as [Hc Hr].
    apply andb_prop in Hd'. destruct Hd' as [Hc' Hr'].
    injection E as E1 E2.
    destruct (superscriptOf_digit c Hc) as (_ & _ & Hinj).
    f_equal; [apply Hinj; [exact Hc' | now symmetry] | now apply IH].
Qed.

(** X17. [formatPowInline] writes no circumflex exactly when the exponent is a
    literal of ASCII digits only, which it writes in superscript digits;
    every other exponent is written after a circumflex.  (The base is
    taken to have no circumflex of its own.) *)
Theorem formatPowInline_caret (base exp : Expr) :
  includes caret (exprToInlineText base) = false ->
  (includes caret (formatPowInline base exp) = false <->
   exists value, exp = ENumber value /\ digitsOnly value).
Proof.
  intros Hb.
  assert (Hbase : includes caret
            (if exprContainsOperator base
             then str "(" ++ exprToInlineText base ++ str ")"
             else exprToInlineText base) = false).
  { destruct (exprContainsOperator base); [|exact Hb].
    rewrite !includes_app, Hb. reflexivity. }
  assert (Hfall : forall t, includes caret
            ((if exprContainsOperator base
              then str "(" ++ exprToInlineText base ++ str ")"
              else exprToInlineText base) ++ str "^(" ++ t ++ str ")")
            = true).
  { intros t. rewrite !includes_app. cbn. apply orb_true_r. }
  unfold formatPowInline. cbv zeta. split.
  - intros H. destruct exp as [value| | | | | | | | |];
      try (rewrite Hfall in H; discriminate).
    destruct (toSuperscriptDigits value) as [sup|] eqn:E;
      [|rewrite Hfall in H; discriminate].
    exists value. split; [reflexivity|].
    apply toSuperscriptDigits_some. eauto.
  - intros (value & -> & Hd).
    apply toSuperscriptDigits_some in Hd.
    destruct Hd as [sup E]. rewrite E. cbv iota.
    rewrite includes_app. apply orb_false_iff. split; [exact Hbase|].
    now apply toSuperscriptDigits_no_caret in E.
Qed.

Lemma formatPowInline_caret_witness :
  includes caret
    (formatPowInline (EBinary Plus (EIdent (str "a")) (EIdent (str "b")))
                     (ENumber (str "12"))) = false.
Proof.
  apply (@formatPowInline_caret
           (EBinary Plus (EIdent (str "a")) (EIdent (str "b")))
           (ENumber (str "12")) eq_refl).
  exists (str "12"). repeat split. discriminate.
Defined.

(* ================================================================== *)
(** * stackedFraction.ts and the text helpers of extension.ts *)
(* ================================================================== *)

Section Padding.

Lemma padCenter_split text width :
  exists l r,
    padCenter text width = repeatChar blank l ++ text ++ repeatChar blank r /\
    l + length text + r = Nat.max width (length text) /\
    r <= l <= r + 1.
Proof.
  unfold padCenter. destruct (width <=? length text) eqn:E.
  - apply Nat.leb_le in E. exists 0, 0. simpl. rewrite app_nil_r.
    repeat split; lia.
  - apply Nat.leb_gt in E.
    exists ((width - length text + 1) / 2),
           (width - length text - (width - length text + 1) / 2).
    split; [reflexivity|].
    pose proof (Nat.div_mod_eq (width - length text + 1) 2) as D.
    pose proof (Nat.mod_upper_bound (width - length text + 1) 2) as M.
    lia.
Qed.

Lemma padCenter_length text width :
  length (padCenter text width) = Nat.max width (length text).
Proof.
  destruct (padCenter_split text width) as (l & r & -> & H & _).
  unfold repeatChar. rewrite !length_app, !repeat_length. lia.
Qed.

End Padding.

(** X18. [buildStackedFraction] writes three lines of one width, the
    length of the longer of the two texts and never less than one: the
    numerator, a rule of box-drawing characters, the denominator.
    [padCenter] cuts neither text: each stands in the middle of its line
    between blanks, the odd blank on the left. *)
Theorem buildStackedFraction_lines (numerator denominator : jsstring) :
  let width := Nat.max (Nat.max (length numerator) (length denominator)) 1 in
  exists l1 r1 l2 r2,
    buildStackedFraction numerator denominator
      = (repeatChar blank l1 ++ numerator ++ repeatChar blank r1)
          ++ [LF] ++ repeatChar boxLine width ++ [LF]
          ++ (repeatChar blank l2 ++ denominator ++ repeatChar blank r2) /\
    l1 + length numerator + r1 = width /\
    l2 + length denominator + r2 = width /\
    length (repeatChar boxLine width) = width /\
    r1 <= l1 <= r1 + 1 /\ r2 <= l2 <= r2 + 1 /\ 0 < width.
Proof.
  intros width. unfold buildStackedFraction. fold width.
  destruct (padCenter_split numerator width) as (l1 & r1 & E1 & H1 & C1).
  destruct (padCenter_split denominator width) as (l2 & r2 & E2 & H2 & C2).
  exists l1, r1, l2, r2. rewrite E1, E2.
  unfold repeatChar at 7. rewrite repeat_length.
  repeat split; try reflexivity; unfold width in *; lia.
Qed.

Section Fractions.

Lemma subscriptOf_digit c : isDigit c = true -> isDigit (subscriptOf c) = false.
Proof.
  intros H. unfold isDigit, inRange in H.
  apply andb_prop in H. destruct H as [H1 H2].
  apply N.leb_le in H1. apply N.leb_le in H2.
  assert (C : (c = 48 \/ c = 49 \/ c = 50 \/ c = 51 \/ c = 52 \/ c = 53
               \/ c = 54 \/ c = 55 \/ c = 56 \/ c = 57)%N) by lia.
  repeat (destruct C as [->|C]; [reflexivity|]). subst; reflexivity.
Qed.

Lemma map_no_digit (f : char -> char) (value : jsstring) :
  (forall c, isDigit c = true -> isDigit (f c) = false) ->
  forallb isDigit value = true -> existsb isDigit (map f value) = false.
Proof.
  intros Hf. induction value as [|c r IH]; [reflexivity|].
  cbn [forallb map existsb]. intros H. apply andb_prop in H.
  destruct H as [Hc Hr]. now rewrite (Hf c Hc), IH.
Qed.

Lemma isInteger_digits value : isInteger value = true ->
  forallb isDigit value = true.
Proof. destruct value; [discriminate | auto]. Qed.

End Fractions.

(** X19. [formatInlineFraction] keeps the prefix and writes as many characters
    after it as the two texts have, and one for the fraction slash.  When
    both texts are ASCII digits only, no ASCII digit is left after the
    prefix: the numerator is in superscript digits and the denominator in
    subscript digits.  Otherwise the two texts are written as they are. *)
Theorem formatInlineFraction_shape (numerator denominator prefix : jsstring) :
  exists top bottom,
    formatInlineFraction numerator denominator prefix
      = prefix ++ top ++ [fractionSlash] ++ bottom /\
    length top = length numerator /\ length bottom = length denominator /\
    (isInteger numerator && isInteger denominator = true ->
     existsb isDigit (top ++ [fractionSlash] ++ bottom) = false) /\
    (isInteger numerator && isInteger denominator = false ->
     top = numerator /\ bottom = denominator).
Proof.
  unfold formatInlineFraction.
  destruct (isInteger numerator && isInteger denominator) eqn:E.
  - apply andb_prop in E. destruct E as [En Ed].
    apply isInteger_digits in En. apply isInteger_digits in Ed.
    exists (map superscriptOf numerator), (map subscriptOf denominator).
    split; [reflexivity|]. rewrite !length_map.
    repeat split; try discriminate. intros _.
    rewrite !existsb_app.
    rewrite (map_no_digit superscriptOf numerator), 
            (map_no_digit subscriptOf denominator); auto.
    + apply subscriptOf_digit.
    + intros c Hc. now apply superscriptOf_digit.
  - exists numerator, denominator. repeat split; discriminate.
Qed.

Section Html.

Lemma htmlChar_steps c :
  replaceAll squote (str "&#39;")
    (replaceAll dquote (str "&quot;")
       (replaceAll (ch ">") (str "&gt;")
          (replaceAll (ch "<") (str "&lt;")
             (if N.eqb c (ch "&") then str "&amp;" else [c]))))
  = htmlChar c.
Proof.
  unfold htmlChar.
  destruct (N.eqb_spec c (ch "&")) as [->|H1]; [reflexivity|].
  unfold replaceAll at 4. cbn [flat_map app].
  destruct (N.eqb_spec c (ch "<")) as [->|H2]; [reflexivity|].
  unfold replaceAll at 3. cbn [flat_map app].
  destruct (N.eqb_spec c (ch ">")) as [->|H3]; [reflexivity|].
  unfold replaceAll at 2. cbn [flat_map app].
  destruct (N.eqb_spec c dquote) as [->|H4]; [reflexivity|].
  unfold replaceAll. cbn [flat_map app].
  destruct (N.eqb_spec c squote) as [->|H5]; reflexivity.
Qed.

Lemma replaceAll_app c r (a b : jsstring) :
  replaceAll c r (a ++ b) = replaceAll c r a ++ replaceAll c r b.
Proof. apply flat_map_app. Qed.

Lemma escapeHtml_app a b : escapeHtml (a ++ b) = escapeHtml a ++ escapeHtml b.
Proof. unfold escapeHtml. now rewrite !replaceAll_app. Qed.

Lemma escapeHtml_flat_map text : escapeHtml text = flat_map htmlChar text.
Proof.
  induction text as [|c r IH]; [reflexivity|].
  change (c :: r) with ([c] ++ r). rewrite escapeHtml_app, IH.
  cbn [flat_map app]. f_equal.
  unfold escapeHtml. unfold replaceAll at 5. cbn [flat_map].
  rewrite app_nil_r. apply htmlChar_steps.
Qed.

Lemma htmlChar_safe c : existsb isHtmlMarkup (htmlChar c) = false.
Proof.
  unfold htmlChar.
  destruct (N.eqb_spec c (ch "&")) as [->|H1]; [reflexivity|].
  destruct (N.eqb c (ch "<")) eqn:H2; [reflexivity|].
  destruct (N.eqb c (ch ">")) eqn:H3; [reflexivity|].
  destruct (N.eqb c dquote) eqn:H4; [reflexivity|].
  destruct (N.eqb c squote) eqn:H5; [reflexivity|].
  cbn [existsb]. unfold isHtmlMarkup. now rewrite H2, H3, H4, H5.
Qed.

End Html.

(** X20. The five replacements of [escapeHtml] act as one substitution,
    character by character, an ampersand of the text becoming [&amp;]
    and never being escaped twice.  The result holds no angle bracket and
    no quote character, and a text without the five characters is left as
    it is. *)
Theorem escapeHtml_charwise (text : jsstring) :
  escapeHtml text = flat_map htmlChar text /\
  existsb isHtmlMarkup (escapeHtml text) = false /\
  (existsb (fun c => isHtmlMarkup c || N.eqb c (ch "&")) text = false ->
   escapeHtml text = text).
Proof.
  split; [apply escapeHtml_flat_map|]. rewrite escapeHtml_flat_map. split.
  - induction text as [|c r IH]; [reflexivity|].
    cbn [flat_map]. now rewrite existsb_app, htmlChar_safe, IH.
  - induction text as [|c r IH]; [reflexivity|].
    cbn [flat_map existsb]. intros H. apply orb_false_iff in H.
    destruct H as [Hc Hr]. rewrite (IH Hr).
    apply orb_false_iff in Hc. destruct Hc as [Hm Ha].
    unfold isHtmlMarkup in Hm.
    repeat (apply orb_false_iff in Hm; destruct Hm as [Hm ?]).
    unfold htmlChar.
    repeat match goal with E : N.eqb c _ = false |- _ => rewrite E; clear E end.
    reflexivity.
Qed.

(* ================================================================== *)
(** * Further properties of the overlap resolver *)
(* ================================================================== *)

Section ResolverOrder.

Lemma StronglySorted_remove (R : AnyMatch -> AnyMatch -> Prop) a c b :
  StronglySorted R (a ++ c :: b) -> StronglySorted R (a ++ b).
Proof.
  induction a as [|x a IH]; simpl; intros H; inversion H as [|? ? Hs Hf]; subst.
  - exact Hs.
  - constructor; [now apply IH|].
    apply Forall_app in Hf. destruct Hf as [Ha Hb].
    inversion Hb; subst. apply Forall_app; now split.
Qed.

Lemma pickFrom_sorted (R : AnyMatch -> AnyMatch -> Prop) items :
  forall kept,
    StronglySorted R (kept ++ items) ->
    StronglySorted R (pickFrom kept items).
Proof.
  induction items as [|c rest IH]; intros kept H; simpl.
  - now rewrite app_nil_r in H.
  - destruct (overlapsKept kept c); apply IH.
    + now apply StronglySorted_remove with c.
    + now rewrite <- app_assoc.
Qed.

Lemma sort_of_sorted l :
  StronglySorted matchLeq l -> sort compareMatches l = l.
Proof.
  induction 1 as [|x l Hs IH Hx]; [reflexivity|].
  simpl. fold (sort compareMatches l). rewrite IH.
  destruct l as [|y l']; [reflexivity|]. simpl.
  inversion Hx as [|? ? Hxy _]; subst. unfold matchLeq in Hxy.
  now destruct (Z.leb_spec (compareMatches x y) 0); [|lia].
Qed.

Lemma pickFrom_all_apart items :
  forall kept,
    ForallOrdPairs apart (kept ++ items) ->
    pickFrom kept items = kept ++ items.
Proof.
  induction items as [|c rest IH]; intros kept H; simpl.
  - now rewrite app_nil_r.
  - assert (E : overlapsKept kept c = false).
    { apply Resolver.overlapsKept_false.
      clear IH. induction kept as [|k kept IHk]; [constructor|].
      simpl in H. inversion H as [|? ? Hk Hrest]; subst.
      constructor; [|now apply IHk].
      apply Forall_app in Hk. destruct Hk as [_ Hk].
      inversion Hk as [|? ? Hkc _]; subst. apply Hkc. }
    rewrite E, IH; rewrite <- app_assoc; [reflexivity | exact H].
Qed.

Lemma apart_sym a b : apart a b -> apart b a.
Proof. unfold apart; tauto. Qed.

Lemma ForallOrdPairs_apart_perm l l' :
  Permutation l l' -> ForallOrdPairs apart l -> ForallOrdPairs apart l'.
Proof.
  induction 1 as [|x l l' Hp IH|x y l|l l' l'' _ IH1 _ IH2]; intros H.
  - exact H.
  - inversion H as [|? ? Hx Hl]; subst.
    constructor; [|now apply IH].
    eapply Permutation_Forall; [exact Hp | exact Hx].
  - inversion H as [|? ? Hy Hl]; subst.
    inversion Hl as [|? ? Hx Hl']; subst.
    inversion Hy as [|? ? Hyx Hyl]; subst.
    constructor; [|now constructor].
    constructor; [now apply apart_sym | exact Hx].
  - auto.
Qed.

End ResolverOrder.

(** X21. The matches that [pickLargestNonOverlapping] keeps are in the order
    of the comparator, earlier start first and the longer first of two
    with one start; and the resolver keeps all of them when it is run on
    its own result. *)
Theorem pickLargestNonOverlapping_sorted (matches : list AnyMatch) :
  let kept := pickLargestNonOverlapping matches in
  StronglySorted matchLeq kept /\
  pickLargestNonOverlapping kept = kept.
Proof.
  cbv zeta.
  assert (S : StronglySorted matchLeq (pickLargestNonOverlapping matches)).
  { unfold pickLargestNonOverlapping. apply pickFrom_sorted. simpl.
    apply Resolver.sort_sorted. }
  split; [exact S|].
  unfold pickLargestNonOverlapping at 1. rewrite (sort_of_sorted S).
  apply (pickFrom_all_apart _ []). simpl.
  unfold pickLargestNonOverlapping. apply Resolver.pickFrom_apart. constructor.
Qed.

(** X22. When no two matches of the input intersect, the resolver drops none:
    it returns the input sorted. *)
Theorem pickLargestNonOverlapping_keeps_all (matches : list AnyMatch) :
  ForallOrdPairs apart matches ->
  pickLargestNonOverlapping matches = sort compareMatches matches /\
  Permutation (pickLargestNonOverlapping matches) matches.
Proof.
  intros H.
  assert (E : pickLargestNonOverlapping matches = sort compareMatches matches).
  { unfold pickLargestNonOverlapping. apply (pickFrom_all_apart _ []). simpl.
    eapply ForallOrdPairs_apart_perm; [|exact H].
    symmetry. apply Resolver.sort_perm. }
  split; [exact E|]. rewrite E. apply Resolver.sort_perm.
Qed.

Lemma pickLargestNonOverlapping_keeps_all_witness :
  pickLargestNonOverlapping
    [ MPow (span 12 20) [] []; MDivision (span 0 5) [] [] ]
  = [ MDivision (span 0 5) [] []; MPow (span 12 20) [] [] ].
Proof.
  apply (@pickLargestNonOverlapping_keeps_all
           [ MPow (span 12 20) [] []; MDivision (span 0 5) [] [] ]).
  repeat constructor.
Defined.

(* ================================================================== *)
(** * The matches of the Power-Call detector *)
(* ================================================================== *)

Section PowPattern.

Lemma matchRe_lit_starts s text i caps k res :
  matchRe (RLit s) text i caps k = Some res ->
  startsWith text s i = true /\ k (i + length s) caps = Some res.
Proof.
  simpl. destruct (startsWith text s i); [auto | discriminate].
Qed.

Lemma startsWith_charAt text c i :
  startsWith text [c] i = true -> charAt text i = Some c.
Proof.
  unfold startsWith, charAt. rewrite <- (Nat.add_0_r i) at 2.
  rewrite <- nth_error_skipn.
  destruct (skipn i text) as [|x r]; simpl; [discriminate|].
  intros H. apply andb_prop in H. destruct H as [H _].
  apply N.eqb_eq in H. now subst.
Qed.





End PowPattern.

Section PowDetector.

Variables text maskedText : jsstring.

(** An invariant of [powRe.lastIndex] and of the matches found so far. *)
Variable Inv : nat -> list PowMatch -> Prop.

Hypothesis Inv_skip : forall i i' results,
  Inv i results -> i <= i' -> Inv i' results.

Hypothesis Inv_push : forall lastIndex results m closeParen a b base exp,
  Inv lastIndex results ->
  exec powRe maskedText lastIndex = Some m ->
  findMatchingParen maskedText (mEnd m - 1) = Some closeParen ->
  splitTwoArgs maskedText (mEnd m - 1 + 1) closeParen = Some (a, b) ->
  includes caret a = false -> includes caret b = false ->
  orRaw a (parseExpression a) = Done base ->
  orRaw b (parseExpression b) = Done exp ->
  Inv (closeParen + 1)
      (results ++
       [ {| powStart := mIndex m; powEnd := closeParen + 1;
            calleeText := trim (slice text (mIndex m) (mEnd m - 1));
            baseText := a; expText := b;
            baseExpr := base; expExpr := exp;
            powLatex :=
              str "{"
              ++ (if exprContainsOperator base
                  then str "\left(" ++ exprToLatex base ++ str "\right)"
                  else exprToLatex base)
              ++ str "}^{" ++ exprToLatex exp ++ str "}";
            powInlineText := formatPowInline base exp |} ]).


End PowDetector.







Section SplitTwoArgsCases.

Lemma splitTwoArgsFrom_no_comma maskedText suffix :
  Forall (fun c => isCh "," c = false) suffix ->
  forall start end_ i d,
    splitTwoArgsFrom maskedText suffix start end_ i d = None.
Proof.
  induction 1 as [|c r Hc _ IH]; intros start end_ i d; simpl;
    [reflexivity|].
  rewrite Hc. simpl.
  destruct (isCh "(" c || isCh ")" c || isCh "{" c || isCh "}" c
            || isCh "[" c || isCh "]" c); apply IH.
Qed.

End SplitTwoArgsCases.

(** X24. [splitTwoArgs] gives nothing for an argument text without a
    comma.  When no bracket comes before the first comma, it cuts there
    and nowhere else: what follows that comma, more commas included, is
    the second argument; and it gives nothing when one of the two, once
    trimmed, is empty. *)
Theorem splitTwoArgs_at_first_comma (maskedText : jsstring)
  (start end_ : nat) :
  (Forall (fun c => isCh "," c = false) (slice maskedText start end_) ->
   splitTwoArgs maskedText start end_ = None) /\
  (forall pre a rest post,
     maskedText = pre ++ a ++ ch "," :: rest ++ post ->
     start = length pre ->
     end_ = length pre + length a + 1 + length rest ->
     Forall (fun c => isArgPunct c = false) a ->
     splitTwoArgs maskedText start end_
     = match trim a, trim rest with
       | _ :: _, _ :: _ => Some (trim a, trim rest)
       | _, _ => None
       end).
Proof.
  split.
  - intros H. unfold splitTwoArgs. now apply splitTwoArgsFrom_no_comma.
  - intros pre a rest post -> -> -> Ha. unfold splitTwoArgs.
    set (text := pre ++ a ++ ch "," :: rest ++ post).
    assert (E1 : slice text (length pre)
                   (length pre + length a + 1 + length rest)
                 = a ++ ch "," :: rest).
    { unfold text.
      replace (pre ++ a ++ ch "," :: rest ++ post)
        with (pre ++ (a ++ ch "," :: rest) ++ post)
        by (now rewrite <- !app_assoc).
      replace (length pre + length a + 1 + length rest)
        with (length pre + length (a ++ ch "," :: rest))
        by (rewrite length_app; simpl; lia).
      apply slice_middle. }
    assert (E2 : slice text (length pre) (length pre + length a) = a)
      by apply slice_middle.
    assert (E3 : slice text (length pre + length a + 1)
                   (length pre + length a + 1 + length rest) = rest).
    { unfold text.
      replace (pre ++ a ++ ch "," :: rest ++ post)
        with ((pre ++ a ++ [ch ","]) ++ rest ++ post)
        by (now rewrite <- !app_assoc).
      replace (length pre + length a + 1)
        with (length (pre ++ a ++ [ch ","]))
        by (rewrite !length_app; simpl; lia).
      apply slice_middle. }
    rewrite E1, splitTwoArgsFrom_first_comma by exact Ha.
    cbv zeta. rewrite E2, E3. reflexivity.
Qed.

(* ================================================================== *)
(** * What a match of a pattern must hold *)
(* ================================================================== *)

Section PatternAnalysis.

Lemma isPrefix_incl needle s : isPrefix needle s = true -> incl needle s.
Proof.
  revert s; induction needle as [|a n IH]; intros s H x Hx; [destruct Hx|].
  destruct s as [|b s]; [discriminate|]. simpl in H.
  apply andb_prop in H. destruct H as [Hab Hn]. apply N.eqb_eq in Hab. subst b.
  destruct Hx as [<-|Hx]; [now left | right; now apply (IH s)].
Qed.

Lemma skipn_incl (i : nat) (text : jsstring) : incl (skipn i text) text.
Proof.
  intros x Hx. rewrite <- (firstn_skipn i text). apply in_or_app. now right.
Qed.

Lemma startsWith_incl text s i : startsWith text s i = true -> incl s text.
Proof.
  intros H x Hx. apply isPrefix_incl in H. apply (skipn_incl i). now apply H.
Qed.

Lemma includes_In c (s : jsstring) : includes c s = true -> In c s.
Proof.
  intros H. apply existsb_exists in H. destruct H as (x & Hx & E).
  apply N.eqb_eq in E. now subst.
Qed.

Lemma matchRe_mustContain c (r : regex) :
  forall text i caps k res,
    i <= length text ->
    mustContain c r = true ->
    matchRe r text i caps k = Some res ->
    In c text.
Proof.
  induction r as [p|s| |r1 IH1 r2 IH2|r1 IH1 r2 IH2|r1 IH1|n r1 IH1|n| | | ];
    intros text i caps k res Hi Hm H; simpl in Hm; try discriminate.
  - simpl in H. destruct (startsWith text s i) eqn:E; [|discriminate].
    eapply startsWith_incl; [exact E|]. now apply includes_In.
  - rewrite matchRe_seq in H. apply orb_prop in Hm. destruct Hm as [Hm|Hm].
    + now apply IH1 in H.
    + apply matchRe_continues in H; [|exact Hi].
      destruct H as (j & caps' & Hj & H). apply IH2 in H; [exact H|lia|exact Hm].
  - apply andb_prop in Hm. destruct Hm as [Hm1 Hm2]. simpl in H.
    destruct (matchRe r1 text i caps k) eqn:E.
    + now apply IH1 in E.
    + now apply IH2 in H.
  - simpl in H. now apply IH1 in H.
Qed.

Lemma execFrom_matches re text tries :
  forall i m,
    execFrom re text tries i = Some m ->
    i <= mIndex m <= i + tries /\
    matchRe re text (mIndex m) [] (fun j caps => Some (j, caps))
      = Some (mEnd m, mCaptures m).
Proof.
  induction tries as [|tries IH]; intros i m; cbn [execFrom];
    destruct (matchRe re text i [] (fun j caps => Some (j, caps)))
      as [[j caps]|] eqn:Em; try discriminate;
    try (intros H; injection H as <-; cbn [mIndex mEnd mCaptures];
         split; [lia | exact Em]).
  intros H. apply IH in H. destruct H as [H1 H2]. split; [lia | exact H2].
Qed.

Lemma exec_matches re text lastIndex m :
  exec re text lastIndex = Some m ->
  lastIndex <= mIndex m <= length text /\
  matchRe re text (mIndex m) [] (fun j caps => Some (j, caps))
    = Some (mEnd m, mCaptures m).
Proof.
  unfold exec. destruct (length text <? lastIndex) eqn:E; [discriminate|].
  apply Nat.ltb_ge in E. intros H. apply execFrom_matches in H.
  destruct H as [H1 H2]. split; [lia | exact H2].
Qed.

Lemma exec_mustContain c re text lastIndex m :
  mustContain c re = true -> exec re text lastIndex = Some m -> In c text.
Proof.
  intros Hm H. apply exec_matches in H. destruct H as [H1 H2].
  eapply matchRe_mustContain; [| exact Hm | exact H2]. lia.
Qed.


Lemma extractSummation_holds c body r :
  mustContain c plusEqRe = true -> mustContain c sumEqLeftRe = true ->
  mustContain c sumEqRightRe = true ->
  extractSummation body = Some r -> In c body.
Proof.
  intros H1 H2 H3. unfold extractSummation.
  destruct (exec plusEqRe body 0) eqn:E1;
    [intros _; eapply exec_mustContain; [|exact E1]; exact H1|].
  destruct (exec sumEqLeftRe body 0) eqn:E2;
    [intros _; eapply exec_mustContain; [|exact E2]; exact H2|].
  destruct (exec sumEqRightRe body 0) eqn:E3; [|discriminate].
  intros _; eapply exec_mustContain; [|exact E3]; exact H3.
Qed.

End PatternAnalysis.

(** X25. [extractSummation] finds an accumulation only in a body that holds a
    semicolon, a plus sign and an equals sign: each of its three patterns
    asks for them. *)
Theorem extractSummation_needs_statement (body : jsstring)
  (r : jsstring * jsstring) :
  extractSummation body = Some r ->
  In (ch ";") body /\ In (ch "+") body /\ In (ch "=") body.
Proof.
  intros H. repeat split;
    (eapply extractSummation_holds; [| | |exact H]; reflexivity).
Qed.

Lemma extractSummation_needs_statement_witness :
  In (ch ";") (str " sum += i * i; ").
Proof.
  apply (@extractSummation_needs_statement (str " sum += i * i; ")
           (str "sum", str "i * i")).
  vm_compute. reflexivity.
Defined.

Section HeaderParts.




End HeaderParts.



(* ================================================================== *)
(** * The matches of the Loop-Summation detector *)
(* ================================================================== *)

Section Searching.

Lemma indexOfFrom_spec needle suffix :
  forall i idx,
    indexOfFrom needle suffix i = Some idx ->
    i <= idx /\
    isPrefix needle (skipn (idx - i) suffix) = true /\
    forall k, k < idx - i -> isPrefix needle (skipn k suffix) = false.
Proof.
  induction suffix as [|c r IH]; intros i idx; simpl.
  - destruct needle as [|a n]; simpl; [|discriminate].
    intros H; injection H as <-. replace (i - i) with 0 by lia.
    split; [lia|]. split; [reflexivity|]. intros k Hk; lia.
  - destruct (isPrefix needle (c :: r)) eqn:E.
    + intros H; injection H as <-. replace (i - i) with 0 by lia.
      split; [lia|]. split; [exact E|]. intros k Hk; lia.
    + intros H. apply IH in H. destruct H as (H1 & H2 & H3).
      replace (idx - i) with (S (idx - S i)) by lia.
      split; [lia|]. split; [exact H2|].
      intros [|k] Hk; [exact E | apply H3; lia].
Qed.

Lemma indexOf_startsWith text needle from idx :
  indexOf text needle from = Some idx ->
  from <= idx /\ startsWith text needle idx = true.
Proof.
  unfold indexOf. destruct (length text <? from) eqn:E; [discriminate|].
  intros H. apply indexOfFrom_spec in H. destruct H as (H1 & H2 & _).
  split; [exact H1|]. unfold startsWith.
  rewrite skipn_skipn in H2. now replace (idx - from + from) with idx in H2 by lia.
Qed.

Lemma indexOf_first text c from idx :
  indexOf text [c] from = Some idx ->
  ~ In c (slice text from idx).
Proof.
  unfold indexOf. destruct (length text <? from) eqn:E; [discriminate|].
  intros H Hin. apply indexOfFrom_spec in H. destruct H as (H1 & _ & H3).
  apply slice_charAt in Hin. destruct Hin as (k & Hk & Hc).
  specialize (H3 (k - from) ltac:(lia)).
  rewrite skipn_skipn in H3. replace (k - from + from) with k in H3 by lia.
  unfold charAt in Hc. rewrite <- (Nat.add_0_r k) in Hc.
  rewrite <- nth_error_skipn in Hc.
  destruct (skipn k text) as [|x r]; [discriminate|].
  simpl in Hc. injection Hc as ->. simpl in H3. now rewrite N.eqb_refl in H3.
Qed.

End Searching.

Section SumDetector.

Variable maskedText : jsstring.

(** An invariant of the offset and of the matches found so far. *)
Variable Inv : nat -> list SumMatch -> Prop.

Hypothesis Inv_skip : forall i i' results,
  Inv i results -> i <= i' -> Inv i' results.

Hypothesis Inv_push :
  forall i results idx closeParen header bodyEnd acc term
         lowerExpr upperExpr termExpr accExpr,
  Inv i results ->
  indexOf maskedText (str "for") i = Some idx ->
  charAt maskedText (skipWs maskedText (idx + 3)) = Some (ch "(") ->
  findMatching maskedText (skipWs maskedText (idx + 3)) (ch "(") (ch ")")
    = Some closeParen ->
  parseForHeader
    (slice maskedText (skipWs maskedText (idx + 3) + 1) closeParen)
    = Some header ->
  charAt maskedText (skipWs maskedText (closeParen + 1)) = Some (ch "{") ->
  findMatchingBrace maskedText (skipWs maskedText (closeParen + 1))
    = Some bodyEnd ->
  extractSummation
    (slice maskedText (skipWs maskedText (closeParen + 1) + 1) bodyEnd)
    = Some (acc, term) ->
  includes caret term = false ->
  includes caret (hLower header) = false ->
  includes caret (hUpper header) = false ->
  orRaw (hLower header) (parseExpression (hLower header)) = Done lowerExpr ->
  orRaw (hUpper header) (parseExpression (hUpper header)) = Done upperExpr ->
  orRaw term (parseExpression term) = Done termExpr ->
  orRaw acc (parseExpression acc) = Done accExpr ->
  Inv (bodyEnd + 1)
      (results ++
       [ {| sumStart := idx; sumEnd := bodyEnd;
            indexVar := hIndexVar header;
            lowerText := hLower header;
            upperText := hUpper header;
            accumulatorText := acc;
            termText := term;
            sumLatex :=
              exprToLatex accExpr ++ str " = " ++ str "\sum_{"
                ++ hIndexVar header ++ str "=" ++ exprToLatex lowerExpr
                ++ str "}^{" ++ exprToLatex upperExpr ++ str "} "
                ++ exprToLatex termExpr;
            sumInlineText :=
              exprToInlineText accExpr ++ str " = " ++ [capitalSigma]
                ++ str "_" ++ hIndexVar header ++ str "="
                ++ exprToInlineText lowerExpr ++ str ".."
                ++ exprToInlineText upperExpr ++ str " "
                ++ exprToInlineText termExpr |} ]).

Lemma findForLoopSummationsFrom_invariant turns :
  forall i results ms,
    Inv i results ->
    findForLoopSummationsFrom turns maskedText i results = Done ms ->
    exists i', Inv i' ms.
Proof.
  induction turns as [|turns IH]; intros i results ms HI;
    cbn [findForLoopSummationsFrom];
    (destruct (i <? length maskedText) eqn:Hi; cbn [negb];
     [|intros H; injection H as <-; now exists i]);
    (destruct (indexOf maskedText (str "for") i) as [idx|] eqn:Hidx;
     [|intros H; injection H as <-; now exists i]);
    [discriminate|].
  pose proof (indexOf_ge _ _ _ Hidx) as Hge.
  pose proof (skipWs_ge maskedText (idx + 3)) as Hj.
  destruct (testO isIdentChar _ || testO isIdentChar _);
    [apply IH, (Inv_skip HI); lia|].
  destruct (isO "(" (charAt maskedText (skipWs maskedText (idx + 3))))
    eqn:Hopen; cbn [negb]; [|apply IH, (Inv_skip HI); lia].
  apply isO_eq in Hopen.
  destruct (findMatching maskedText (skipWs maskedText (idx + 3))
              (ch "(") (ch ")")) as [closeParen|] eqn:Hclose;
    [|apply IH, (Inv_skip HI); lia].
  pose proof (findMatching_bounds _ _ _ _ Hclose) as Hcb.
  pose proof (skipWs_ge maskedText (closeParen + 1)) as Hbs.
  destruct (parseForHeader _) as [header|] eqn:Hh;
    [|apply IH, (Inv_skip HI); lia].
  destruct (isO "{" (charAt maskedText (skipWs maskedText (closeParen + 1))))
    eqn:Hbrace.
  - apply isO_eq in Hbrace.
    destruct (findMatchingBrace maskedText
                (skipWs maskedText (closeParen + 1))) as [bodyEnd|] eqn:Hb;
      [|apply IH, (Inv_skip HI); lia].
    pose proof (findMatchingBrace_bounds _ _ Hb) as Hbb.
    destruct (extractSummation _) as [[acc term]|] eqn:Hx;
      [|apply IH, (Inv_skip HI); lia].
    destruct (includes caret term || includes caret (hLower header)
              || includes caret (hUpper header)) eqn:Hc;
      [apply IH, (Inv_skip HI); lia|].
    apply orb_false_iff in Hc. destruct Hc as [Hc Hc3].
    apply orb_false_iff in Hc. destruct Hc as [Hc1 Hc2].
    destruct (orRaw (hLower header) (parseExpression (hLower header)))
      as [lowerExpr| |] eqn:E1; try discriminate.
    destruct (orRaw (hUpper header) (parseExpression (hUpper header)))
      as [upperExpr| |] eqn:E2; try discriminate.
    destruct (orRaw term (parseExpression term))
      as [termExpr| |] eqn:E3; try discriminate.
    destruct (orRaw acc (parseExpression acc))
      as [accExpr| |] eqn:E4; try discriminate.
    apply IH. now apply (Inv_push HI Hidx Hopen Hclose Hh Hbrace Hb Hx).
  - destruct (indexOf maskedText (str ";")
                (skipWs maskedText (closeParen + 1))) as [semi|] eqn:Hsemi;
      [|apply IH, (Inv_skip HI); lia].
    pose proof (indexOf_ge _ _ _ Hsemi) as Hsg.
    destruct (extractSummation _) as [r|] eqn:Hx;
      [|apply IH, (Inv_skip HI); lia].
    exfalso. apply (indexOf_first _ _ _ Hsemi).
    eapply extractSummation_holds; [| | |exact Hx]; reflexivity.
Qed.

End SumDetector.

Lemma findForLoopSummations_in_order
  (maskedText : jsstring) (ms : list SumMatch) :
  findForLoopSummations maskedText = Done ms ->
  inOrder 0 (map sumSpan ms) /\
  lastEnd 0 (map sumSpan ms) <= length maskedText.
Proof.
  intros H. unfold findForLoopSummations in H.
  apply (@findForLoopSummationsFrom_invariant maskedText
           (fun i rs => inOrder 0 (map sumSpan rs) /\
                        lastEnd 0 (map sumSpan rs) <= i /\
                        lastEnd 0 (map sumSpan rs) <= length maskedText))
    with (i := 0) (results := []) in H.
  - destruct H as (i' & H1 & _ & H3). auto.
  - intros i i' rs (H1 & H2 & H3) Hi. repeat split; auto; lia.
  - intros i rs idx closeParen header bodyEnd acc term lowerExpr upperExpr
      termExpr accExpr (H1 & H2 & H3) Hidx _ Hclose _ _ Hb _ _ _ _ _ _ _ _.
    apply indexOf_ge in Hidx. apply findMatching_bounds in Hclose.
    apply findMatchingBrace_bounds in Hb.
    pose proof (skipWs_ge maskedText (idx + 3)).
    pose proof (skipWs_ge maskedText (closeParen + 1)).
    rewrite map_app. simpl. unfold sumSpan at 2 4 6. simpl.
    rewrite inOrder_snoc, !lastEnd_snoc.
    repeat split; auto; lia.
  - simpl. repeat split; lia.
Qed.


Lemma findForLoopSummations_recorded
  (maskedText : jsstring) (ms : list SumMatch) :
  findForLoopSummations maskedText = Done ms ->
  Forall (recordedSum maskedText) ms.
Proof.
  intros H. unfold findForLoopSummations in H.
  apply (@findForLoopSummationsFrom_invariant maskedText
           (fun _ rs => Forall (recordedSum maskedText) rs))
    with (i := 0) (results := []) in H.
  - now destruct H as (_ & H).
  - auto.
  - intros i rs idx closeParen header bodyEnd acc term lowerExpr upperExpr
      termExpr accExpr Hrs Hidx Hopen Hclose Hh Hbrace Hb Hx Hc1 Hc2 Hc3
      E1 E2 E3 E4.
    apply Forall_app; split; [exact Hrs|]. constructor; [|constructor].
    pose proof (findMatching_bounds _ _ _ _ Hclose) as Hcb.
    pose proof (findMatchingBrace_bounds _ _ Hb) as Hbb.
    pose proof (skipWs_ge maskedText (idx + 3)).
    pose proof (skipWs_ge maskedText (closeParen + 1)).
    constructor; cbn [sumStart sumEnd indexVar lowerText upperText
                      accumulatorText termText sumLatex sumInlineText].
    + now apply indexOf_startsWith in Hidx.
    + pose proof Hb as Hb'. unfold findMatchingBrace in Hb'.
      apply findMatchingFrom_balance in Hb'; [|discriminate].
      destruct Hb' as (_ & Hc & _). rewrite nth_error_skipn in Hc.
      now replace (skipWs maskedText (closeParen + 1)
                   + (bodyEnd - skipWs maskedText (closeParen + 1)))
        with bodyEnd in Hc by lia.
    + exists (skipWs maskedText (idx + 3)), closeParen.
      repeat split; try assumption; try lia. now destruct header.
    + exists (skipWs maskedText (closeParen + 1)). auto.
    + auto.
    + exists lowerExpr, upperExpr, termExpr, accExpr. repeat split; assumption.
  - constructor.
Qed.


Lemma findForLoopSummationsFrom_result turns :
  forall maskedText i results,
    findForLoopSummationsFrom turns maskedText i results <> NoMatch.
Proof.
  induction turns as [|turns IH]; intros maskedText i results;
    cbn [findForLoopSummationsFrom];
    repeat match goal with
    | |- (match ?x with _ => _ end) <> NoMatch => destruct x
    | |- (if ?b then _ else _) <> NoMatch => destruct b
    | |- (let (_, _) := ?x in _) <> NoMatch => destruct x
    end;
    try discriminate; apply IH.
Qed.

(** X26. [findForLoopSummations] ends on every text with matches that
    come in the order of the text and do not overlap.  Every match starts
    at a [for], has a header between matching parentheses that
    [parseForHeader] accepts, and has a body between matching braces in
    which [extractSummation] finds the accumulation; it ends at the
    closing brace.  A loop with a single statement for a body gives no
    match: the statement is read without its semicolon, and every
    accumulation pattern asks for one.  The bounds and the term have no
    circumflex, and the renderings are made of their expressions. *)
Theorem findForLoopSummations_matches (maskedText : jsstring) :
  exists ms,
    findForLoopSummations maskedText = Done ms /\
    inOrder 0 (map sumSpan ms) /\
    lastEnd 0 (map sumSpan ms) <= length maskedText /\
    Forall (recordedSum maskedText) ms.
Proof.
  pose proof (findForLoopSummations_answers maskedText) as Ha.
  pose proof (@findForLoopSummationsFrom_result (length maskedText)
                maskedText 0 []) as Hn.
  fold (findForLoopSummations maskedText) in Hn.
  destruct (findForLoopSummations maskedText) as [ms| |] eqn:E;
    [|now elim Hn | now elim Ha].
  exists ms. split; [reflexivity|].
  destruct (findForLoopSummations_in_order _ E) as (H1 & H2).
  repeat split; try assumption.
  now apply findForLoopSummations_recorded.
Qed.

(* ================================================================== *)
(** * Where a pattern without groups goes on, and the Division detector *)
(* ================================================================== *)

Section GroupFree.

Lemma matchRe_groupFree (r : regex) :
  groupFree r = true ->
  forall text i caps k res,
    i <= length text ->
    matchRe r text i caps k = Some res ->
    exists j, i + minLen r <= j <= length text /\ k j caps = Some res.
Proof.
  induction r as [p|s| |r1 IH1 r2 IH2|r1 IH1 r2 IH2|r1 IH1|n r1 IH1|n| | | ];
    intros Hg text i caps k res Hi H; simpl in Hg; try discriminate;
    cbn [minLen].
  - simpl in H. destruct (charAt text i) as [c|] eqn:E; [|discriminate].
    apply charAt_lt in E. destruct (p c); [|discriminate].
    exists (i + 1). split; [lia | exact H].
  - apply matchRe_lit in H; [|exact Hi]. destruct H as [H1 H2].
    exists (i + length s). split; [lia | exact H2].
  - exists i. split; [lia | exact H].
  - apply andb_prop in Hg. destruct Hg as [G1 G2]. rewrite matchRe_seq in H.
    apply (IH1 G1) in H; [|exact Hi]. destruct H as (j1 & Hj1 & H).
    apply (IH2 G2) in H; [|lia]. destruct H as (j2 & Hj2 & H).
    exists j2. split; [lia | exact H].
  - apply andb_prop in Hg. destruct Hg as [G1 G2]. simpl in H.
    destruct (matchRe r1 text i caps k) eqn:E.
    + injection H as <-. apply (IH1 G1) in E; [|exact Hi].
      destruct E as (j & Hj & E). exists j. split; [lia | exact E].
    + apply (IH2 G2) in H; [|exact Hi].
      destruct H as (j & Hj & H). exists j. split; [lia | exact H].
  - simpl in H. set (n := length text - i) in H. clearbody n.
    rewrite Nat.add_0_r. revert i Hi H.
    induction n as [|n IHn]; intros i Hi H.
    + exists i. split; [lia | exact H].
    + match type of H with
      | match ?m with _ => _ end = _ => destruct m eqn:E
      end.
      * injection H as <-. apply (IH1 Hg) in E; [|exact Hi].
        destruct E as (j & Hj & E).
        destruct (i <? j) eqn:Hij; [|discriminate].
        apply IHn in E; [|lia]. destruct E as (j' & Hj' & E).
        exists j'. split; [lia | exact E].
      * exists i. split; [lia | exact H].
  - simpl in H. destruct (capture n caps) as [[a b]|].
    + destruct (startsWith text (slice text a b) i) eqn:E; [|discriminate].
      apply startsWith_length in E; [|exact Hi].
      exists (i + length (slice text a b)). split; [lia | exact H].
    + exists i. split; [lia | exact H].
  - simpl in H. destruct (atWordBoundary text i); [|discriminate].
    exists i. split; [lia | exact H].
  - simpl in H. destruct (i =? 0); [|discriminate].
    exists i. split; [lia | exact H].
  - simpl in H. destruct (i =? length text); [|discriminate].
    exists i. split; [lia | exact H].
Qed.

(** A group of a pattern without inner groups records the span it took. *)
Lemma matchRe_group n (r : regex) text i caps k res :
  groupFree r = true -> i <= length text ->
  matchRe (RGroup n r) text i caps k = Some res ->
  exists j, i + minLen r <= j <= length text /\
            k j ((n, (i, j)) :: caps) = Some res.
Proof.
  intros Hg Hi H. simpl in H.
  apply (matchRe_groupFree r Hg) in H; [|exact Hi]. exact H.
Qed.

Lemma matchRe_boundary text i caps k res :
  matchRe RWordBoundary text i caps k = Some res -> k i caps = Some res.
Proof. simpl. destruct (atWordBoundary text i); [auto | discriminate]. Qed.

(** The spans of a match of [divisionRe]. *)
Lemma divisionRe_match text i j caps :
  i <= length text ->
  matchRe divisionRe text i [] (fun j caps => Some (j, caps)) = Some (j, caps) ->
  exists numEnd slash denStart,
    i < numEnd /\ numEnd <= slash /\ slash < denStart /\ denStart < j /\
    j <= length text /\ charAt text slash = Some (ch "/") /\
    caps = [(2, (denStart, j)); (1, (i, numEnd))].
Proof.
  intros Hi H. unfold divisionRe in H. cbn [rseq fold_right] in H.
  rewrite matchRe_seq in H. apply matchRe_boundary in H.
  rewrite matchRe_seq in H. apply matchRe_group in H; [|reflexivity|exact Hi].
  destruct H as (numEnd & Hn & H). change (minLen token) with 1 in Hn.
  rewrite matchRe_seq in H.
  apply (matchRe_groupFree ws eq_refl) in H; [|lia].
  destruct H as (slash & Hs & H). cbn [minLen ws] in Hs.
  rewrite matchRe_seq in H. unfold lit at 1 in H.
  pose proof H as H'. apply matchRe_lit in H'; [|lia]. destruct H' as [Hl _].
  apply matchRe_lit_starts in H. destruct H as [Hc H].
  apply startsWith_charAt in Hc. change (length (str "/")) with 1 in *.
  rewrite matchRe_seq in H.
  apply (matchRe_groupFree ws eq_refl) in H; [|lia].
  destruct H as (denStart & Hd & H). cbn [minLen ws] in Hd.
  rewrite matchRe_seq in H. apply matchRe_group in H; [|reflexivity|lia].
  destruct H as (j' & Hj & H). change (minLen token) with 1 in Hj.
  rewrite matchRe_seq in H. apply matchRe_boundary in H.
  simpl in H. injection H as <- <-.
  exists numEnd, slash, denStart. repeat split; try lia. exact Hc.
Qed.

Lemma execFrom_divisionRe text tries :
  forall i m,
    i + tries <= length text ->
    execFrom divisionRe text tries i = Some m ->
    i <= mIndex m /\
    exists numEnd slash denStart,
      mIndex m < numEnd /\ numEnd <= slash /\ slash < denStart /\
      denStart < mEnd m /\ mEnd m <= length text /\
      charAt text slash = Some (ch "/") /\
      mCaptures m = [(2, (denStart, mEnd m)); (1, (mIndex m, numEnd))].
Proof.
  induction tries as [|tries IH]; intros i m Hi; cbn [execFrom];
    destruct (matchRe divisionRe text i [] (fun j caps => Some (j, caps)))
      as [[j caps]|] eqn:Em; try discriminate;
    try (intros H; injection H as <-; cbn [mEnd mIndex mCaptures];
         split; [lia|]; apply divisionRe_match; [lia | exact Em]).
  intros H. apply IH in H; [|lia]. destruct H as [H1 H2]. split; [lia|exact H2].
Qed.

Lemma exec_divisionRe text lastIndex m :
  exec divisionRe text lastIndex = Some m ->
  lastIndex <= mIndex m /\
  exists numEnd slash denStart,
    mIndex m < numEnd /\ numEnd <= slash /\ slash < denStart /\
    denStart < mEnd m /\ mEnd m <= length text /\
    charAt text slash = Some (ch "/") /\
    mCaptures m = [(2, (denStart, mEnd m)); (1, (mIndex m, numEnd))].
Proof.
  unfold exec. destruct (length text <? lastIndex) eqn:E; [discriminate|].
  apply Nat.ltb_ge in E. apply execFrom_divisionRe. lia.
Qed.

End GroupFree.

Section LineExclusions.

Lemma skipn_cons_inv (l : jsstring) i c r :
  skipn i l = c :: r ->
  charAt l i = Some c /\ skipn (S i) l = r /\ i < length l /\
  hd_error r = charAt l (S i).
Proof.
  intros H. unfold charAt.
  assert (Hc : nth_error l i = Some c).
  { rewrite <- (Nat.add_0_r i), <- nth_error_skipn, H. reflexivity. }
  assert (Hr : skipn (S i) l = r).
  { change (S i) with (1 + i). rewrite <- skipn_skipn, H. reflexivity. }
  repeat split; [exact Hc | exact Hr | |].
  - apply nth_error_Some. congruence.
  - rewrite <- Hr. apply hd_error_skipn.
Qed.

Lemma computeLineExclusionsFrom_spec line_ suffix :
  forall i inDouble inSingle escape quoteStart ranges,
    skipn i line_ = suffix -> i <= length line_ ->
    inOrder 0 ranges ->
    Forall (fun r => testO isQuote (charAt line_ (fst r)) = true) ranges ->
    match quoteStart with
    | Some q => inDouble || inSingle = true /\ q < i /\
                lastEnd 0 ranges <= q /\
                testO isQuote (charAt line_ q) = true
    | None => inDouble = false /\ inSingle = false /\ lastEnd 0 ranges <= i
    end ->
    exclusionsOf line_
      (computeLineExclusionsFrom suffix i (length line_) inDouble inSingle
                                 escape quoteStart ranges).
Proof.
  induction suffix as [|c rest IH];
    intros i inDouble inSingle escape quoteStart ranges Hs Hi Ho Hq Hst;
    cbn [computeLineExclusionsFrom].
  - assert (i = length line_).
    { apply (f_equal (@length char)) in Hs. rewrite length_skipn in Hs.
      simpl in Hs. lia. }
    subst i. destruct quoteStart as [q|]; simpl.
    + destruct Hst as (_ & Hlt & Hle & Hquote).
      constructor; simpl.
      * apply inOrder_snoc. auto.
      * rewrite lastEnd_snoc. lia.
      * apply Forall_app. split; [exact Hq|]. now constructor.
      * discriminate.
    + destruct Hst as (_ & _ & Hle).
      constructor; simpl; auto. discriminate.
  - apply skipn_cons_inv in Hs. destruct Hs as (Hc & Hr & Hlt & Hnext).
    assert (Hkeep : match quoteStart with
              | Some q => inDouble || inSingle = true /\ q < S i /\
                          lastEnd 0 ranges <= q /\
                          testO isQuote (charAt line_ q) = true
              | None => inDouble = false /\ inSingle = false /\
                        lastEnd 0 ranges <= S i
              end).
    { destruct quoteStart; intuition lia. }
    destruct escape; [now apply IH|].
    destruct ((inDouble || inSingle) && N.eqb c backslash);
      [now apply IH|].
    destruct (negb inSingle && N.eqb c dquote) eqn:Ed.
    { apply andb_prop in Ed. destruct Ed as [Es Ec].
      apply negb_true_iff in Es. subst inSingle. apply N.eqb_eq in Ec.
      destruct inDouble; cbn [negb].
      - destruct quoteStart as [q|]; [|now destruct Hst].
        destruct Hst as (_ & Hqi & Hle & Hquote).
        apply IH; try assumption; try lia; simpl.
        + apply inOrder_snoc. repeat split; auto; lia.
        + apply Forall_app. split; [exact Hq|]. now constructor.
        + rewrite lastEnd_snoc. repeat split; lia.
      - destruct quoteStart as [q|]; [destruct Hst as (Hf & _); discriminate|].
        destruct Hst as (_ & _ & Hle).
        apply IH; try assumption; try lia.
        repeat split; try lia. rewrite Hc. simpl. unfold isQuote.
        subst c. reflexivity. }
    destruct (negb inDouble && N.eqb c squote) eqn:Eq.
    { apply andb_prop in Eq. destruct Eq as [Es Ec].
      apply negb_true_iff in Es. subst inDouble. apply N.eqb_eq in Ec.
      destruct inSingle; cbn [negb].
      - destruct quoteStart as [q|]; [|now destruct Hst].
        destruct Hst as (_ & Hqi & Hle & Hquote).
        apply IH; try assumption; try lia; simpl.
        + apply inOrder_snoc. repeat split; auto; lia.
        + apply Forall_app. split; [exact Hq|]. now constructor.
        + rewrite lastEnd_snoc. repeat split; lia.
      - destruct quoteStart as [q|]; [destruct Hst as (Hf & _); discriminate|].
        destruct Hst as (_ & _ & Hle).
        apply IH; try assumption; try lia.
        repeat split; try lia. rewrite Hc. simpl. unfold isQuote.
        subst c. reflexivity. }
    destruct (negb inSingle && negb inDouble && isCh "/" c
              && isO "/" (hd_error rest)) eqn:Ecom; [|now apply IH].
    apply andb_prop in Ecom. destruct Ecom as [Ecom Enext].
    apply andb_prop in Ecom. destruct Ecom as [Ecom Eslash].
    apply andb_prop in Ecom. destruct Ecom as [Es Ed'].
    apply negb_true_iff in Es. apply negb_true_iff in Ed'. subst.
    apply isCh_eq in Eslash. subst c. apply isO_eq in Enext.
    destruct quoteStart as [q|]; [destruct Hst as (Hf & _); discriminate|].
    destruct Hst as (_ & _ & Hle).
    constructor; simpl; auto; try lia.
    intros c E. injection E as <-. repeat split; try assumption.
    rewrite Nat.add_1_r, <- Hnext. exact Enext.
Qed.

End LineExclusions.

(** X27. The quoted ranges that [computeLineExclusions] returns start at a
    quote character, are not empty, follow each other without overlap
    inside the line, and end before the comment; the comment starts at
    two slashes. *)
Theorem computeLineExclusions_ranges (line_ : jsstring) :
  exclusionsOf line_ (computeLineExclusions line_).
Proof.
  unfold computeLineExclusions.
  apply computeLineExclusionsFrom_spec; simpl; auto; try lia.
Qed.

Section DivisionDetector.

Lemma ordered_snoc {A : Type} (R : A -> A -> Prop) l x :
  ForallOrdPairs R l -> Forall (fun k => R k x) l ->
  ForallOrdPairs R (l ++ [x]).
Proof.
  induction 1 as [|a l Ha Hl IH]; intros Hx; simpl.
  - repeat constructor.
  - inversion Hx as [|? ? Hax Hlx]; subst.
    constructor; [|now apply IH].
    apply Forall_app; split; [exact Ha | now constructor].
Qed.

Lemma endsBy_later n i n' i' m :
  endsBy n i m -> n < n' \/ (n = n' /\ i <= i') -> endsBy n' i' m.
Proof. unfold endsBy, plt. simpl. lia. Qed.

Variable lines : list jsstring.

Lemma findDivisionsInLine_found n text turns :
  nth_error lines n = Some text ->
  forall lastIndex results,
    length text - lastIndex <= turns ->
    divisionsFound lines n lastIndex results ->
    exists ms i',
      findDivisionsInLine turns n text (computeLineExclusions text)
                          lastIndex results = Done ms /\
      divisionsFound lines n i' ms.
Proof.
  intros Hline.
  induction turns as [|turns IH]; intros lastIndex results Ht Hf;
    cbn [findDivisionsInLine];
    destruct (exec divisionRe text lastIndex) as [m|] eqn:Em;
    try (exists results, lastIndex; split; [reflexivity | exact Hf]);
    apply exec_divisionRe in Em;
    destruct Em as (Hge & numEnd & slash & denStart & H1 & H2 & H3 & H4
                    & H5 & Hslash & Hcaps); [lia|].
  destruct (match commentStart (computeLineExclusions text) with
            | Some c => c <=? mIndex m
            | None => false
            end) eqn:Ecom;
    [exists results, lastIndex; split; [reflexivity | exact Hf]|].
  destruct Hf as (Hrec & Hord & Hend).
  assert (Hlater : Forall (endsBy n (mEnd m)) results).
  { eapply Forall_impl; [|exact Hend].
    intros k Hk. apply (endsBy_later Hk). lia. }
  destruct (isInRanges (mIndex m) (quotedRanges (computeLineExclusions text)))
    eqn:Equoted.
  - apply IH; [lia|]. repeat split; assumption.
  - apply IH; [lia|]. repeat split.
    + apply Forall_app. split; [exact Hrec|]. constructor; [|constructor].
      exists text. split; [exact Hline|].
      constructor; simpl; try reflexivity; try assumption.
      * exists numEnd, slash, denStart.
        unfold group. rewrite Hcaps. simpl.
        repeat split; try assumption; lia.
      * intros c Hc. rewrite Hc in Ecom. apply Nat.leb_gt in Ecom. exact Ecom.
    + apply ordered_snoc; [exact Hord|].
      eapply Forall_impl; [|exact Hend].
      intros k Hk. unfold follows, endsBy, plt in *. simpl in *. lia.
    + apply Forall_app. split; [exact Hlater|]. constructor; [|constructor].
      unfold endsBy, plt. simpl. lia.
Qed.

Lemma findDivisionsFrom_found rest :
  forall done results,
    lines = done ++ rest ->
    divisionsFound lines (length done) 0 results ->
    exists ms n i,
      findDivisionsFrom rest (length done) results = Done ms /\
      divisionsFound lines n i ms.
Proof.
  induction rest as [|text rest IH]; intros done results Hl Hf; simpl.
  - exists results, (length done), 0. split; [reflexivity | exact Hf].
  - assert (Hline : nth_error lines (length done) = Some text).
    { rewrite Hl, nth_error_app2, Nat.sub_diag by lia. reflexivity. }
    destruct (@findDivisionsInLine_found (length done) text (length text)
                Hline 0 results ltac:(lia) Hf) as (ms & i' & E & Hf').
    rewrite E.
    replace (S (length done)) with (length (done ++ [text]))
      by (rewrite length_app; simpl; lia).
    apply IH; [now rewrite <- app_assoc|].
    destruct Hf' as (R1 & R2 & R3). repeat split; try assumption.
    eapply Forall_impl; [|exact R3].
    intros k Hk. apply (endsBy_later Hk). rewrite length_app. simpl. lia.
Qed.

End DivisionDetector.

(** X28. [findDivisions] ends on every document.  Each of its matches lies on
    one line, starts with the numerator and ends with the denominator,
    with a slash between the two, and starts outside the quoted ranges of
    its line and before the comment of the line.  The matches are in the
    order of the document, and none starts before the one before it
    ends. *)
Theorem findDivisions_matches (lines : list jsstring) :
  exists ms,
    findDivisions lines = Done ms /\
    Forall (recordedDivision lines) ms /\
    ForallOrdPairs follows ms.
Proof.
  destruct (@findDivisionsFrom_found lines lines [] []) as (ms & n & i & E & H).
  - reflexivity.
  - repeat split; constructor.
  - exists ms. split; [exact E|]. destruct H as (H1 & H2 & _). now split.
Qed.

(* ================================================================== *)
(** * The matches of the Loop-Mapping detector *)
(* ================================================================== *)

Section MapDetector.

Lemma extractMapping_semicolon body indexVar r :
  extractMapping body indexVar = Some r -> In (ch ";") body.
Proof.
  unfold extractMapping.
  destruct (exec mappingRe body 0) as [m|] eqn:E; [|discriminate].
  intros _. eapply exec_mustContain; [|exact E]. reflexivity.
Qed.

Lemma extractMapping_names body indexVar r :
  extractMapping body indexVar = Some r ->
  wordContainsIdent (mIndexText r) indexVar = true.
Proof.
  unfold extractMapping.
  destruct (exec mappingRe body 0) as [m|] eqn:E; [|discriminate].
  destruct (wordContainsIdent (trim (group body m 2)) indexVar) eqn:W;
    [|discriminate].
  intros H. injection H as <-. exact W.
Qed.

Lemma toExpr_done text : exists e, toExpr text = Done e.
Proof. apply orRaw_parseExpression_done. Qed.

Variable maskedText : jsstring.

Lemma mappingsFound_later i i' results :
  mappingsFound maskedText i results -> i <= i' ->
  mappingsFound maskedText i' results.
Proof. intros (H1 & H2 & H3 & H4) Hi. repeat split; auto; lia. Qed.

Lemma findForLoopMappingsFrom_found turns :
  forall i results,
    length maskedText - i <= turns ->
    mappingsFound maskedText i results ->
    exists ms i',
      findForLoopMappingsFrom turns maskedText i results = Done ms /\
      mappingsFound maskedText i' ms.
Proof.
  induction turns as [|turns IH]; intros i results Ht HI;
    cbn [findForLoopMappingsFrom];
    (destruct (i <? length maskedText) eqn:Hi; cbn [negb];
     [|exists results, i; split; [reflexivity | exact HI]]);
    (destruct (indexOf maskedText (str "for") i) as [idx|] eqn:Hidx;
     [|exists results, i; split; [reflexivity | exact HI]]);
    apply Nat.ltb_lt in Hi; [lia|].
  pose proof (indexOf_ge _ _ _ Hidx) as Hge.
  pose proof (skipWs_ge maskedText (idx + 3)) as Hj.
  destruct (testO isIdentChar _ || testO isIdentChar _);
    [apply IH; [lia | apply (mappingsFound_later HI); lia]|].
  destruct (isO "(" (charAt maskedText (skipWs maskedText (idx + 3))))
    eqn:Hopen; cbn [negb];
    [|apply IH; [lia | apply (mappingsFound_later HI); lia]].
  apply isO_eq in Hopen.
  destruct (findMatching maskedText (skipWs maskedText (idx + 3))
              (ch "(") (ch ")")) as [closeParen|] eqn:Hclose;
    [|apply IH; [lia | apply (mappingsFound_later HI); lia]].
  pose proof (findMatching_bounds _ _ _ _ Hclose) as Hcb.
  pose proof (skipWs_ge maskedText (closeParen + 1)) as Hbs.
  destruct (parseForHeader _) as [header|] eqn:Hh;
    [|apply IH; [lia | apply (mappingsFound_later HI); lia]].
  destruct (isO "{" (charAt maskedText (skipWs maskedText (closeParen + 1))))
    eqn:Hbrace.
  - apply isO_eq in Hbrace.
    destruct (findMatchingBrace maskedText
                (skipWs maskedText (closeParen + 1))) as [bodyEnd|] eqn:Hb;
      [|apply IH; [lia | apply (mappingsFound_later HI); lia]].
    pose proof (findMatchingBrace_bounds _ _ Hb) as Hbb.
    destruct (extractMapping _ _) as [extracted|] eqn:Hx;
      [|apply IH; [lia | apply (mappingsFound_later HI); lia]].
    destruct (includes caret (mArrayText extracted)
              || includes caret (mIndexText extracted)
              || includes caret (mValueText extracted)
              || includes caret (hLower header)
              || includes caret (hUpper header)) eqn:Hc;
      [apply IH; [lia | apply (mappingsFound_later HI); lia]|].
    repeat (apply orb_false_iff in Hc; destruct Hc as [Hc ?]).
    destruct (toExpr_done (hLower header)) as [lowerExpr E1].
    destruct (toExpr_done (hUpper header)) as [upperExpr E2].
    destruct (toExpr_done (mArrayText extracted)) as [arrayExpr E3].
    destruct (toExpr_done (mIndexText extracted)) as [indexExpr E4].
    destruct (toExpr_done (mValueText extracted)) as [valueExpr E5].
    destruct (toExpr_done (hIndexVar header)) as [idxVarExpr E6].
    rewrite E1, E2, E3, E4, E5, E6.
    apply IH; [lia|].
    destruct HI as (R1 & R2 & R3 & R4).
    unfold mappingsFound. rewrite map_app. cbn [map].
    unfold mapSpan at 2 4 6. cbn [mapStart mapEnd].
    rewrite inOrder_snoc, !lastEnd_snoc.
    repeat split; auto; try lia.
    apply Forall_app. split; [exact R1|]. constructor; [|constructor].
    constructor; cbn [mapStart mapEnd mapIndexVar mapLowerText mapUpperText
                      arrayText indexText valueText mapLatex mapInlineText].
    + now apply indexOf_startsWith in Hidx.
    + pose proof Hb as Hb'. unfold findMatchingBrace in Hb'.
      apply findMatchingFrom_balance in Hb'; [|discriminate].
      destruct Hb' as (_ & Hcl & _). rewrite nth_error_skipn in Hcl.
      now replace (skipWs maskedText (closeParen + 1)
                   + (bodyEnd - skipWs maskedText (closeParen + 1)))
        with bodyEnd in Hcl by lia.
    + exists (skipWs maskedText (idx + 3)), closeParen.
      repeat split; try assumption; try lia. now destruct header.
    + exists (skipWs maskedText (closeParen + 1)).
      repeat split; try assumption. now destruct extracted.
    + now apply extractMapping_names in Hx.
    + repeat split; assumption.
    + exists lowerExpr, upperExpr, arrayExpr, indexExpr, valueExpr,
        idxVarExpr. repeat split; assumption.
  - destruct (indexOf maskedText (str ";")
                (skipWs maskedText (closeParen + 1))) as [semi|] eqn:Hsemi;
      [|apply IH; [lia | apply (mappingsFound_later HI); lia]].
    pose proof (indexOf_ge _ _ _ Hsemi) as Hsg.
    destruct (extractMapping _ _) as [r|] eqn:Hx;
      [|apply IH; [lia | apply (mappingsFound_later HI); lia]].
    exfalso. apply (indexOf_first _ _ _ Hsemi).
    now apply extractMapping_semicolon in Hx.
Qed.

End MapDetector.

(** X29. [findForLoopMappings] ends on every text.  Each of its matches starts
    at a [for], has a header between matching parentheses that
    [parseForHeader] accepts and a body between matching braces in which
    [extractMapping] finds the assignment, and ends at the closing brace;
    the index text names the loop variable as a whole word, and no text
    of the match has a circumflex.  A loop with a single statement for a
    body gives no match.  The matches come in the order of the text and
    do not overlap. *)
Theorem findForLoopMappings_matches (maskedText : jsstring) :
  exists ms,
    findForLoopMappings maskedText = Done ms /\
    Forall (recordedMap maskedText) ms /\
    inOrder 0 (map mapSpan ms) /\
    lastEnd 0 (map mapSpan ms) <= length maskedText.
Proof.
  destruct (@findForLoopMappingsFrom_found maskedText (length maskedText) 0 [])
    as (ms & i' & E & R1 & R2 & _ & R4).
  - lia.
  - repeat split; simpl; auto; lia.
  - exists ms. auto.
Qed.

(** The detector at work. *)
Example findForLoopMappings_example :
  let text := str "for (int i = 0; i <= n; ++i) { answer[i] = i + 1; }" in
  match findForLoopMappings (maskJavaNonCode text) with
  | Done ms =>
      map (fun m => (arrayText m, indexText m, valueText m,
                     mapLowerText m, mapUpperText m)) ms
      = [ (str "answer", str "i", str "i + 1", str "0", str "n") ]
  | _ => False
  end.
Proof. vm_compute. reflexivity. Qed.

(* ================================================================== *)
(** * What [parseForHeader] reads in a header *)
(* ================================================================== *)

Section HeaderPatterns.




















End HeaderPatterns.



(* ================================================================== *)
(** * The first comma at the top level *)
(* ================================================================== *)

Section TopLevelComma.

Lemma bracketPair_brackets o c :
  bracketPair o c -> isBracket o = true /\ isBracket c = true.
Proof. intros []; split; reflexivity. Qed.

Lemma stepDepths_pair o c d :
  bracketPair o c ->
  topLevel (stepDepths o d) = false /\ stepDepths c (stepDepths o d) = d.
Proof.
  intros []; destruct d as [p b k]; unfold stepDepths, topLevel; simpl;
    split; try reflexivity;
    rewrite ?andb_false_r; reflexivity.
Qed.

Lemma isBracket_not_comma c : isBracket c = true -> isCh "," c = false.
Proof.
  unfold isBracket, isCh. intros H.
  destruct (N.eqb_spec c (ch ",")) as [->|]; [discriminate H | reflexivity].
Qed.




End TopLevelComma.

Section ClosingParenthesis.








End ClosingParenthesis.

(* ================================================================== *)
(** * Where the pattern of the Power-Call detector matches *)
(* ================================================================== *)

Section PatternClasses.







End PatternClasses.

Section CallSite.















End CallSite.

Section CallPattern.







End CallPattern.

(* ================================================================== *)
(** * A call with more than two arguments *)
(* ================================================================== *)

Section CallWithArguments.






End CallWithArguments.



(* ================================================================== *)
(** * Argument lists with brackets *)
(* ================================================================== *)

Section ArgumentLists.

Lemma stepDepths_other c d : isBracket c = false -> stepDepths c d = d.
Proof.
  unfold isBracket, stepDepths. intros H.
  repeat (apply orb_false_iff in H; destruct H as [H ?]).
  now repeat match goal with E : isCh _ c = false |- _ => rewrite E; clear E end.
Qed.

(** Inside brackets the loop of [splitArgsText] steps over a text with
    closed brackets, commas included. *)
Lemma splitArgsFrom_enclosed T s :
  enclosed s ->
  forall suffix i start d args,
    topLevel d = false ->
    splitArgsFrom T (s ++ suffix) i start d args
    = splitArgsFrom T suffix (i + length s) start d args.
Proof.
  induction 1 as [|c s Hc _ IH|o c inner s Hp _ IHi _ IHs];
    intros suffix i start d args Hd.
  - simpl. now rewrite Nat.add_0_r.
  - cbn [app splitArgsFrom]. cbv zeta.
    rewrite stepDepths_other by exact Hc. rewrite Hd, andb_false_r.
    rewrite IH by exact Hd. simpl length. f_equal. lia.
  - destruct (bracketPair_brackets Hp) as [Bo Bc].
    destruct (stepDepths_pair d Hp) as [Ho Hback].
    cbn [app splitArgsFrom]. cbv zeta.
    rewrite (isBracket_not_comma _ Bo). cbn [andb].
    rewrite <- app_assoc. rewrite IHi by exact Ho.
    cbn [app splitArgsFrom]. cbv zeta.
    rewrite (isBracket_not_comma _ Bc), Hback. cbn [andb].
    rewrite IHs by exact Hd. f_equal.
    simpl length. rewrite length_app. simpl length. lia.
Qed.

(** At the top level it steps over an argument. *)
Lemma splitArgsFrom_argument T a :
  argument a ->
  forall suffix i start args,
    splitArgsFrom T (a ++ suffix) i start depths0 args
    = splitArgsFrom T suffix (i + length a) start depths0 args.
Proof.
  induction 1 as [|c s Hc _ IH|o c inner s Hp Hi _ IHs];
    intros suffix i start args.
  - simpl. now rewrite Nat.add_0_r.
  - cbn [app splitArgsFrom]. cbv zeta.
    rewrite stepDepths_plain by exact Hc.
    rewrite isArgPunct_comma by exact Hc. cbn [andb].
    rewrite IH. simpl length. f_equal. lia.
  - destruct (bracketPair_brackets Hp) as [Bo Bc].
    destruct (stepDepths_pair depths0 Hp) as [Ho Hback].
    cbn [app splitArgsFrom]. cbv zeta.
    rewrite (isBracket_not_comma _ Bo). cbn [andb].
    rewrite <- app_assoc.
    rewrite (splitArgsFrom_enclosed T Hi) by exact Ho.
    cbn [app splitArgsFrom]. cbv zeta.
    rewrite (isBracket_not_comma _ Bc), Hback. cbn [andb].
    rewrite IHs. f_equal.
    simpl length. rewrite length_app. simpl length. lia.
Qed.

End ArgumentLists.

(** X31. [splitArgsText] cuts an argument list at its commas at the top
    level only.  After an argument, whose own commas all stand inside
    closed brackets, the list is cut at the comma: the argument gives the
    first part, trimmed and dropped when empty, and what follows the
    comma is split on its own.  An argument alone is one part. *)
Theorem splitArgsText_arguments (a rest : jsstring) :
  argument a ->
  splitArgsText (a ++ ch "," :: rest) = partOf a ++ splitArgsText rest /\
  splitArgsText a = partOf a.
Proof.
  intros Ha. unfold splitArgsText. split.
  - rewrite splitArgsFrom_argument by exact Ha.
    cbn [splitArgsFrom]. cbv zeta.
    change (stepDepths (ch ",") depths0) with depths0.
    change (isCh "," (ch ",") && topLevel depths0) with true. cbv iota.
    rewrite (splitArgsFrom_shift rest (a ++ ch "," :: rest) rest
               (S (0 + length a)) 0 (S (0 + length a)) 0).
    + rewrite pushPart_partOf, slice_all. reflexivity.
    + intros k Hk.
      replace (a ++ ch "," :: rest) with ((a ++ [ch ","]) ++ rest)
        by now rewrite <- app_assoc.
      replace (S (0 + length a)) with (length (a ++ [ch ","]) + 0)
        by (rewrite length_app; simpl; lia).
      rewrite <- Nat.add_assoc. apply slice_shift.
    + intros x y Hxy.
      replace (a ++ ch "," :: rest) with ((a ++ [ch ","]) ++ rest)
        by now rewrite <- app_assoc.
      replace (S (0 + length a)) with (length (a ++ [ch ","]))
        by (rewrite length_app; simpl; lia).
      apply slice_shift.
  - rewrite <- (app_nil_r a) at 2. rewrite splitArgsFrom_argument by exact Ha.
    cbn [splitArgsFrom]. rewrite pushPart_partOf.
    rewrite <- (app_nil_r a) at 1. rewrite slice_all. reflexivity.
Qed.

Lemma splitArgsText_arguments_witness :
  splitArgsText (str "g(a, [b, c])" ++ ch "," :: str " d, e")
    = [str "g(a, [b, c])"] ++ splitArgsText (str " d, e") /\
  splitArgsText (str "g(a, [b, c])") = [str "g(a, [b, c])"].
Proof.
  apply (@splitArgsText_arguments (str "g(a, [b, c])") (str " d, e")).
  apply argument_char; [reflexivity|].
  apply (@argument_group (ch "(") (ch ")") (str "a, [b, c]") []).
  - constructor.
  - repeat (apply enclosed_char; [reflexivity|]).
    apply (@enclosed_group (ch "[") (ch "]") (str "b, c") []).
    + constructor.
    + repeat (apply enclosed_char; [reflexivity|]). apply enclosed_nil.
    + apply enclosed_nil.
  - apply argument_nil.
Defined.
